(** * Screen-language (SL1) decompiler: a shallow embedding of
      [decompiler/screendecompiler.py] and the properties of its
      header codec, block splitter, dispatcher, argument parser and printers.

    Text is Python 2 [unicode]; a character is modelled as an 8-bit code
    point ([ascii]), a string as [list ascii].  Exceptions are explicit:
    every fallible operation returns a [result]. *)

From Stdlib Require Import Ascii String Bool Arith ZArith Lia Permutation List.
Import ListNotations.

(** ** Strings *)

Definition str := list ascii.

(** A literal. *)
Definition lit (s : string) : str := list_ascii_of_string s.
Arguments lit s%_string : simpl never.

Definition NL : ascii := "010"%char.
Definition CR : ascii := "013"%char.
Definition SP : ascii := " "%char.
Definition DQ : ascii := "034"%char.   (* the double quote *)
Definition SQ : ascii := "039"%char.   (* the single quote *)
Definition BSL : ascii := "092"%char.  (* the backslash *)

Definition ch_eqb (a b : ascii) : bool := Ascii.eqb a b.
Arguments ch_eqb a b : simpl nomatch.

Fixpoint str_eqb (a b : str) : bool :=
  match a, b with
  | [], [] => true
  | x :: a', y :: b' => ch_eqb x y && str_eqb a' b'
  | _, _ => false
  end.

(** [unicode.isspace] on the code points below 256. *)
Definition isspace (c : ascii) : bool :=
  let n := nat_of_ascii c in
  ((9 <=? n) && (n <=? 13)) || ((28 <=? n) && (n <=? 32))
  || (n =? 133) || (n =? 160).

(** The line boundaries of [unicode.splitlines] below 256. *)
Definition is_linebreak (c : ascii) : bool :=
  let n := nat_of_ascii c in
  ((10 <=? n) && (n <=? 13)) || ((28 <=? n) && (n <=? 30)) || (n =? 133).

Definition isdigit (c : ascii) : bool :=
  let n := nat_of_ascii c in (48 <=? n) && (n <=? 57).

(** [[a-zA-Z0-9_]] *)
Definition is_word (c : ascii) : bool :=
  let n := nat_of_ascii c in
  ((97 <=? n) && (n <=? 122)) || ((65 <=? n) && (n <=? 90))
  || isdigit c || (n =? 95).

Definition is_sp (c : ascii) : bool := ch_eqb c SP.

(** The longest prefix whose characters satisfy [p], and the rest. *)
Fixpoint span (p : ascii -> bool) (s : str) : str * str :=
  match s with
  | c :: s' =>
      if p c then let (a, b) := span p s' in (c :: a, b) else ([], s)
  | [] => ([], [])
  end.

Definition lstrip (s : str) : str := snd (span isspace s).
Definition rstrip (s : str) : str := rev (lstrip (rev s)).
Definition strip (s : str) : str := lstrip (rstrip s).

(** [s.startswith(p)]; [strip_prefix] also gives what follows. *)
Fixpoint strip_prefix (p s : str) : option str :=
  match p, s with
  | [], _ => Some s
  | x :: p', y :: s' => if ch_eqb x y then strip_prefix p' s' else None
  | _ :: _, [] => None
  end.

Definition startswith (s p : str) : bool :=
  match strip_prefix p s with Some _ => true | None => false end.

Definition endswith (s p : str) : bool := startswith (rev s) (rev p).

(** [s.split(sep, 1)] for a non-empty [sep]: [None] when [sep] does not
    occur (Python returns the one-element list [[s]]), otherwise the text
    before the first occurrence and the text after it. *)
Fixpoint split1 (sep s : str) : option (str * str) :=
  match strip_prefix sep s with
  | Some rest => Some ([], rest)
  | None =>
      match s with
      | [] => None
      | c :: s' =>
          match split1 sep s' with
          | Some (a, b) => Some (c :: a, b)
          | None => None
          end
      end
  end.

(** [s.rsplit(sep, 1)]: the same around the last occurrence. *)
Definition rsplit1 (sep s : str) : option (str * str) :=
  match split1 (rev sep) (rev s) with
  | Some (a, b) => Some (rev b, rev a)
  | None => None
  end.

(** [sub in s] *)
Definition contains (sub s : str) : bool :=
  match split1 sub s with Some _ => true | None => false end.

(** [sep.join(parts)] *)
Fixpoint join (sep : str) (parts : list str) : str :=
  match parts with
  | [] => []
  | [p] => p
  | p :: rest => p ++ sep ++ join sep rest
  end.

(** [unicode.splitlines()]: the lines without their terminators; a carriage
    return directly followed by a line feed is one boundary; no empty last
    line after a final boundary. *)
Fixpoint splitlines (s : str) : list str :=
  match s with
  | [] => []
  | c :: s' =>
      if ch_eqb c CR && startswith s' [NL] then splitlines s'
      else if is_linebreak c then [] :: splitlines s'
      else match splitlines s' with
           | [] => [[c]]
           | l :: ls => (c :: l) :: ls
           end
  end.

(** [s[i:]] and [s[i:-1]] for [i >= 0]. *)
Definition slice_from (i : nat) (s : str) : str := skipn i s.
Definition slice_from_to_last (i : nat) (s : str) : str :=
  skipn i (removelast s).

(** [string * n] *)
Fixpoint repeat_str (s : str) (n : nat) : str :=
  match n with O => [] | S n' => s ++ repeat_str s n' end.

(** ** Results and exceptions *)

Inductive exn : Type :=
| TypeError | IndexError | ValueError | StopIteration | OutOfFuel.

Inductive result (A : Type) : Type :=
| Ok (a : A)
| Raise (e : exn).
Arguments Ok {A} a.
Arguments Raise {A} e.

(** ** Header codec *)

(** [[0-9]+] *)
Definition digits1 (s : str) : option (str * str) :=
  match span isdigit s with
  | ([], _) => None
  | (d, rest) => Some (d, rest)
  end.

(** [_?] *)
Definition opt_char (c : ascii) (s : str) : str :=
  match s with
  | x :: s' => if ch_eqb x c then s' else s
  | [] => s
  end.

(** What a match of a header pattern yields: the three groups, the matched
    text and the text after the match. *)
Record hmatch : Type := mk_hmatch {
  h_own : str; h_parent : str; h_index : str;
  h_text : str; h_rest : str
}.

(** The tail of both header patterns, after the parent field:
    [, _?([0-9]+)\) *\n?]. *)
Definition header_tail (whole own par s : str) : option hmatch :=
  match strip_prefix (lit ", ") s with
  | None => None
  | Some s1 =>
      match digits1 (opt_char "_"%char s1) with
      | None => None
      | Some (idx, s2) =>
          match strip_prefix (lit ")") s2 with
          | None => None
          | Some s3 =>
              let rest := opt_char NL (snd (span is_sp s3)) in
              Some (mk_hmatch own par idx
                      (firstn (length whole - length rest) whole) rest)
          end
      end
  end.

(** The front of both header patterns: [ *_([0-9]+) = \(_]. *)
Definition header_front (s : str) : option (str * str) :=
  match strip_prefix (lit "_") (snd (span is_sp s)) with
  | None => None
  | Some s1 =>
      match digits1 s1 with
      | None => None
      | Some (own, s2) =>
          match strip_prefix (lit " = (_") s2 with
          | None => None
          | Some s3 => Some (own, s3)
          end
      end
  end.

(** [ *_([0-9]+) = \(_([0-9]+|name), _?([0-9]+)\) *\n?] matched at the
    start of [s] (the pattern of [parse_header]). *)
Definition header_any_at (s : str) : option hmatch :=
  match header_front s with
  | None => None
  | Some (own, s3) =>
      match digits1 s3 with
      | Some (par, s4) => header_tail s own par s4
      | None =>
          match strip_prefix (lit "name") s3 with
          | Some s4 => header_tail s own (lit "name") s4
          | None => None
          end
      end
  end.

(** [( *_[0-9]+ = \(_%s, _?[0-9]+\) *\n?)] with [%s] replaced by [P],
    matched at the start of [s] (the pattern of [print_nodes]). *)
Definition header_of_at (P s : str) : option hmatch :=
  match header_front s with
  | None => None
  | Some (own, s3) =>
      match strip_prefix P s3 with
      | Some s4 => header_tail s own P s4
      | None => None
      end
  end.

(** [re.search]: the leftmost position at which the pattern matches; the
    text before it and the match. *)
Fixpoint re_search (pat : str -> option hmatch) (s : str)
  : option (str * hmatch) :=
  match pat s with
  | Some m => Some ([], m)
  | None =>
      match s with
      | [] => None
      | c :: s' =>
          match re_search pat s' with
          | Some (pre, m) => Some (c :: pre, m)
          | None => None
          end
      end
  end.

(** [parse_header]: the triple (id, parent id, index), or [None]. *)
Definition parse_header (header : str) : option (str * str * str) :=
  match re_search header_any_at header with
  | Some (_, m) => Some (h_own m, h_parent m, h_index m)
  | None => None
  end.

(** ** Block splitter *)

(** [re.split] with one capturing group around the whole pattern:
    [[text, match, text, match, ..., text]].  A match of a header pattern is
    never empty, so [length s] rounds suffice. *)
Fixpoint re_split_fuel (n : nat) (pat : str -> option hmatch) (s : str)
  : list str :=
  match n with
  | O => [s]
  | S n' =>
      match re_search pat s with
      | None => [s]
      | Some (pre, m) => pre :: h_text m :: re_split_fuel n' pat (h_rest m)
      end
  end.

Definition re_split (pat : str -> option hmatch) (s : str) : list str :=
  re_split_fuel (length s) pat s.

(** [(split[i], split[i+1])] for [i] in [range(1, len(split), 2)]. *)
Fixpoint pair_up (l : list str) : list (str * str) :=
  match l with
  | h :: c :: l' => (h, c) :: pair_up l'
  | _ => []
  end.

(** The statement records [print_nodes] hands to [print_node], in the order
    of the calls: none for a text of one line; [TypeError] when the first
    line is not a header (the unpacking of [None]). *)
Definition print_nodes_split (code : str) : result (list (str * str)) :=
  match split1 [NL] code with
  | None => Ok []
  | Some (header, _) =>
      match parse_header header with
      | None => Raise TypeError
      | Some (_, parent_id, _) =>
          Ok (pair_up (tl (re_split (header_of_at parent_id) code)))
      end
  end.

(** ** Argument parser *)

(** An element of the parser's stack: the [None] at its bottom, or the
    character that opened a string or a container. *)
Inductive frame : Type :=
| Bottom
| Open (c : ascii).

Definition is_quote (c : ascii) : bool := ch_eqb c SQ || ch_eqb c DQ.

(** Whether [stack[-1]] is one of the two quote characters. *)
Definition frame_is_quote (f : frame) : bool :=
  match f with
  | Bottom => false
  | Open c => is_quote c
  end.

Definition frame_is (f : frame) (c : ascii) : bool :=
  match f with
  | Bottom => false
  | Open x => ch_eqb x c
  end.

Definition is_opener (c : ascii) : bool :=
  ch_eqb c "["%char || ch_eqb c "("%char || ch_eqb c "{"%char.

Definition is_closer (c : ascii) : bool :=
  ch_eqb c "]"%char || ch_eqb c ")"%char || ch_eqb c "}"%char.

(** [count_trailing_slashes] *)
Fixpoint count_backslashes (reversed : str) : nat :=
  match reversed with
  | c :: r => if ch_eqb c BSL then S (count_backslashes r) else 0
  | [] => 0
  end.

Definition count_trailing_slashes (split : str) : nat :=
  count_backslashes (rev split).

(** The state of the scanning loop of [parse_args]; the top of the stack
    ([stack[-1]]) is the head of [stack]. *)
Record scan : Type := mk_scan {
  stack : list frame;
  current_parse : str;
  arguments : list str
}.

(** The stack after the character: the first half of the loop body.
    [stack[-1]] of an empty stack raises [IndexError]. *)
Definition scan_stack (st : scan) (character : ascii) : result (list frame) :=
  match stack st with
  | [] => Raise IndexError
  | top :: below =>
      if is_quote character then
        if negb (frame_is_quote top) then Ok (Open character :: stack st)
        else if frame_is top character
                && Nat.even (count_trailing_slashes (current_parse st))
        then Ok below
        else Ok (stack st)
      else if negb (frame_is_quote top) then
        if is_opener character then Ok (Open character :: stack st)
        else if is_closer character then Ok below
        else Ok (stack st)
      else Ok (stack st)
  end.

(** One round of the loop. *)
Definition scan_step (st : scan) (character : ascii) : result scan :=
  match scan_stack st character with
  | Raise e => Raise e
  | Ok stk =>
      if (length stk =? 1) && ch_eqb character ","%char
      then Ok (mk_scan stk [] (arguments st ++ [strip (current_parse st)]))
      else Ok (mk_scan stk (current_parse st ++ [character]) (arguments st))
  end.

Fixpoint scan_chars (st : scan) (s : str) : result scan :=
  match s with
  | [] => Ok st
  | c :: s' =>
      match scan_step st c with
      | Ok st' => scan_chars st' s'
      | Raise e => Raise e
      end
  end.

(** The quick and dirty split of the argument text on top-level commas. *)
Definition split_arguments (s : str) : result (list str) :=
  match scan_chars (mk_scan [Bottom] [] []) s with
  | Ok st => Ok (arguments st ++ [strip (current_parse st)])
  | Raise e => Raise e
  end.

(** The [re.match] that isolates the argument text: a lazy run of any
    characters, an opening parenthesis, a greedy group of any characters, a
    closing parenthesis.  The dot matches anything but a line feed, so the
    match lies in the first line; the lazy run stops at the first opening
    parenthesis and the group runs to the last closing one.  Without a
    match the text is kept whole. *)
Definition isolate_arguments (s : str) : str :=
  let line := fst (span (fun c => negb (ch_eqb c NL)) s) in
  match split1 (lit "(") line with
  | None => s
  | Some (_, after) =>
      match rsplit1 (lit ")") after with
      | None => s
      | Some (inner, _) => inner
      end
  end.

(** [re.match('^[a-zA-Z0-9_]+ *=[^=]', argument)] *)
Definition is_keyword_argument (argument : str) : bool :=
  match span is_word argument with
  | ([], _) => false
  | (_, r) =>
      match snd (span is_sp r) with
      | e :: c :: _ => ch_eqb e "="%char && negb (ch_eqb c "="%char)
      | _ => false
      end
  end.

(** An argument tuple: [args, kwargs, exargs, exkwargs]. *)
Record argtuple : Type := mk_args {
  a_args : list str;
  a_kwargs : list (str * str);
  a_exargs : option str;
  a_exkwargs : option str
}.

Definition classify (acc : argtuple) (argument : str) : argtuple :=
  if is_keyword_argument argument then
    match split1 (lit "=") argument with
    | Some (name, value) =>
        mk_args (a_args acc) (a_kwargs acc ++ [(strip name, strip value)])
                (a_exargs acc) (a_exkwargs acc)
    | None => acc  (* unreachable: a keyword argument holds an equals sign *)
    end
  else if startswith argument (lit "**") then
    mk_args (a_args acc) (a_kwargs acc) (a_exargs acc)
            (Some (slice_from 2 argument))
  else if startswith argument (lit "*") then
    mk_args (a_args acc) (a_kwargs acc) (Some (slice_from 1 argument))
            (a_exkwargs acc)
  else
    mk_args (a_args acc ++ [argument]) (a_kwargs acc)
            (a_exargs acc) (a_exkwargs acc).

Definition parse_args (string : str) : result argtuple :=
  match split_arguments (isolate_arguments string) with
  | Ok arguments => Ok (fold_left classify arguments (mk_args [] [] None None))
  | Raise e => Raise e
  end.

(** ** The writer *)

(** The cursor of the decompiler object and the text written so far. *)
Record wstate : Type := mk_wstate {
  indent_level : Z;
  linenumber : Z;
  skip_indent_until_write : bool;
  out_file : str
}.

(** The options of [SLDecompiler.__init__]. *)
Record config : Type := mk_config {
  indentation : str;
  force_multiline_kwargs : bool;
  decompile_python : bool;
  decompile_screencode : bool;
  comparable : bool
}.

(** A method of the decompiler: it reads and updates the cursor and either
    returns or raises. *)
Definition M (A : Type) : Type := wstate -> result (A * wstate).

Definition ret {A : Type} (a : A) : M A := fun w => Ok (a, w).

Definition bind {A B : Type} (m : M A) (k : A -> M B) : M B :=
  fun w =>
    match m w with
    | Ok (a, w') => k a w'
    | Raise e => Raise e
    end.

Definition raise {A : Type} (e : exn) : M A := fun _ => Raise e.

Definition lift {A : Type} (r : result A) : M A :=
  fun w => match r with Ok a => Ok (a, w) | Raise e => Raise e end.

Declare Scope py_scope.
Delimit Scope py_scope with py.
Notation "x <- m ;; k" := (bind m (fun x => k))
  (at level 61, m at next level, right associativity) : py_scope.
Notation "m ;; k" := (bind m (fun _ => k))
  (at level 61, right associativity) : py_scope.
Local Open Scope py_scope.

(** [self.indent_level += d] *)
Definition add_indent (d : Z) : M unit :=
  fun w => Ok (tt, mk_wstate (indent_level w + d) (linenumber w)
                             (skip_indent_until_write w) (out_file w)).

Fixpoint for_each {A : Type} (l : list A) (body : A -> M unit) : M unit :=
  match l with
  | [] => ret tt
  | a :: l' => body a ;; for_each l' body
  end.

Definition count_char (c : ascii) (s : str) : nat :=
  length (filter (ch_eqb c) s).

(** Modelled from the spec: [DecompilerBase.write] of [util], which is not
    among the sources; the writer emits text and advances the line counter
    by the line feeds written. *)
Definition write (s : str) : M unit :=
  fun w => Ok (tt, mk_wstate (indent_level w)
                             (linenumber w + Z.of_nat (count_char NL s))
                             false (out_file w ++ s)).

(** Modelled from the spec: [DecompilerBase.indent] of [util], which is not
    among the sources; it starts a line prefixed by the current indentation,
    unless the first write is still awaited. *)
Definition indent (cfg : config) : M unit :=
  fun w =>
    if skip_indent_until_write w then Ok (tt, w)
    else write (NL :: repeat_str (indentation cfg) (Z.to_nat (indent_level w))) w.

(** ** Printers *)

(** [print_python]: the escape hatch. *)
Definition print_python (cfg : config) (header code : str) : M unit :=
  indent cfg ;;
  if contains [NL] (strip code) then
    let lines := splitlines code in
    match find (fun line => negb (str_eqb (strip line) [])) lines with
    | None => raise StopIteration
    | Some first =>
        let code_indent := length first - length (lstrip first) in
        write (lit "python:") ;;
        add_indent 1 ;;
        for_each lines (fun line =>
          indent cfg ;; write (slice_from code_indent line)) ;;
        add_indent (-1)
    end
  else
    write (lit "$ " ++ strip code).

(** The dispatch table: which method handles which statement. *)
Inductive handler : Type :=
| H_if | H_for | H_use | H_default | H_hotspot | H_ui.

Definition handler_eqb (a b : handler) : bool :=
  match a, b with
  | H_if, H_if | H_for, H_for | H_use, H_use | H_default, H_default
  | H_hotspot, H_hotspot | H_ui, H_ui => true
  | _, _ => false
  end.

Definition dispatch : list (str * handler) :=
  [ (lit "if", H_if);
    (lit "for", H_for);
    (lit "renpy.use_screen", H_use);
    (lit "_scope.setdefault", H_default);
    (lit "ui.hotspot_with_child", H_hotspot);
    (lit "ui.add", H_ui);
    (lit "ui.imagebutton", H_ui);
    (lit "ui.input", H_ui);
    (lit "ui.key", H_ui);
    (lit "ui.label", H_ui);
    (lit "ui.text", H_ui);
    (lit "ui.null", H_ui);
    (lit "ui.mousearea", H_ui);
    (lit "ui.textbutton", H_ui);
    (lit "ui.timer", H_ui);
    (lit "ui.bar", H_ui);
    (lit "ui.vbar", H_ui);
    (lit "ui.hotbar", H_ui);
    (lit "ui.button", H_ui);
    (lit "ui.frame", H_ui);
    (lit "ui.transform", H_ui);
    (lit "ui.viewport", H_ui);
    (lit "ui.window", H_ui);
    (lit "ui.drag", H_ui);
    (lit "ui.fixed", H_ui);
    (lit "ui.grid", H_ui);
    (lit "ui.hbox", H_ui);
    (lit "ui.side", H_ui);
    (lit "ui.vbox", H_ui);
    (lit "ui.imagemap", H_ui);
    (lit "ui.draggroup", H_ui) ].

(** The loop of [print_node] over the table, taken in the order [registry]:
    the method of the first statement the stripped code starts with. *)
Fixpoint select_handler (registry : list (str * handler)) (code : str)
  : option handler :=
  match registry with
  | [] => None
  | (statement, func) :: rest =>
      if startswith (lstrip code) statement then Some func
      else select_handler rest code
  end.

(** [re.match(r' *_[0-9]+ = 0', code)]: the extra header of a for loop. *)
Definition is_loop_marker (code : str) : bool :=
  match strip_prefix (lit "_") (snd (span is_sp code)) with
  | None => false
  | Some s1 =>
      match digits1 s1 with
      | None => false
      | Some (_, s2) => startswith s2 (lit " = 0")
      end
  end.

(** The truth value of [exargs] and [exkwargs]: [None] and the empty
    string are false. *)
Definition truthy (o : option str) : bool :=
  match o with Some (_ :: _) => true | _ => false end.

Definition text_of (o : option str) : str :=
  match o with Some s => s | None => [] end.

Definition nonempty {A : Type} (l : list A) : bool :=
  match l with [] => false | _ :: _ => true end.

(** The keyword arguments [print_use] keeps. *)
Definition use_kwargs (kwargs : list (str * str)) : list (str * str) :=
  filter (fun kv => negb (str_eqb (fst kv) (lit "_scope")
                          || str_eqb (fst kv) (lit "_name"))) kwargs.

(** The [arglist] of [print_use]. *)
Definition use_arglist (args : list str) (kwargs : list (str * str))
           (exargs exkwargs : option str) : list str :=
  args
  ++ map (fun kv => fst kv ++ lit "=" ++ snd kv) kwargs
  ++ (if truthy exargs then [lit "*" ++ text_of exargs] else [])
  ++ (if truthy exkwargs then [lit "**" ++ text_of exkwargs] else []).

(** [print_use] *)
Definition print_use (cfg : config) (header code : str) : M unit :=
  a <- lift (parse_args (strip code)) ;;
  let kwargs := use_kwargs (a_kwargs a) in
  indent cfg ;;
  match a_args a with
  | [] => raise IndexError
  | first :: args =>
      let name := slice_from_to_last 2 first in
      write (lit "use " ++ name) ;;
      if nonempty args || nonempty kwargs
         || truthy (a_exargs a) || truthy (a_exkwargs a)
      then
        write (lit "(") ;;
        write (join (lit ", ")
                 (use_arglist args kwargs (a_exargs a) (a_exkwargs a))) ;;
        write (lit ")")
      else ret tt
  end.

(** [print_default] *)
Definition print_default (cfg : config) (header code : str) : M unit :=
  a <- lift (parse_args (strip code)) ;;
  match a_args a with
  | [] => raise IndexError
  | a0 :: rest =>
      match split1 [SQ] a0 with
      | None => raise IndexError
      | Some (_, after) =>
          let key := match rsplit1 [SQ] after with
                     | Some (k, _) => k
                     | None => after
                     end in
          match rest with
          | [] => raise IndexError
          | value :: _ =>
              indent cfg ;;
              write (lit "default " ++ key ++ lit " = " ++ value)
          end
      end
  end.

(** [print_condition] *)
Definition print_condition (statement line : str) : M unit :=
  let left := match rsplit1 (lit ":") line with
              | Some (l, _) => l
              | None => line
              end in
  match split1 statement left with
  | None => raise IndexError
  | Some (_, after) =>
      let condition := strip after in
      let unwrap (s : str) :=
        if startswith s (lit "(") && endswith s (lit ")")
        then slice_from_to_last 1 s else s in
      if str_eqb statement (lit "for") then
        match split1 (lit " in ") condition with
        | None => raise ValueError
        | Some (variables, expression) =>
            write (statement ++ lit " " ++
                   (unwrap (strip variables) ++ lit " in " ++ expression)
                   ++ lit ":")
        end
      else
        write (statement ++ lit " " ++ unwrap (strip condition) ++ lit ":")
  end.

Section Decompiler.

(** The collaborators of [util] and [codegen], which are not among the
    sources, are parameters: the expression guard, the printer of a
    parameter list, the word concatenator (given the words of each
    [append], it returns what [join] does) and the code generator. *)
Variable simple_expression_guard : str -> str.
Variables paraminfo source : Type.
Variable reconstruct_paraminfo : paraminfo -> str.
Variable WordConcatenator_join : list (list str) -> str.
Variable to_source : source -> str -> str.

Variable cfg : config.

(** [print_arguments] *)
Definition print_arguments (args : list str) (kwargs : list (str * str))
           (multiline : bool) : M unit :=
  (if nonempty args
   then write (lit " " ++ join (lit " ") (map simple_expression_guard args))
   else ret tt) ;;
  let kwargs :=
    map (fun kv => (fst kv, simple_expression_guard (snd kv)))
      (filter (fun kv =>
                 negb ((str_eqb (fst kv) (lit "id")
                        && startswith (snd kv) (lit "_"))
                       || (str_eqb (fst kv) (lit "scope")
                           && str_eqb (snd kv) (lit "_scope"))))
              kwargs) in
  if force_multiline_kwargs cfg && negb (comparable cfg) && nonempty kwargs
  then
    write (lit ":") ;;
    add_indent 1 ;;
    for_each kwargs (fun kv =>
      indent cfg ;; write (fst kv ++ lit " " ++ snd kv)) ;;
    add_indent (-1)
  else
    for_each kwargs (fun kv =>
      write (lit " " ++ fst kv ++ lit " " ++ snd kv)) ;;
    if multiline then write (lit ":") else ret tt.

(** [print_hotspot] *)
Definition print_hotspot (header code : str) : M unit :=
  let line := match split1 [NL] code with
              | Some (l, _) => l
              | None => code
              end in
  indent cfg ;;
  write (lit "hotspot") ;;
  a <- lift (parse_args line) ;;
  print_arguments (a_args a) (a_kwargs a) true.

Section Nodes.

(** The methods below call [print_nodes], which calls them back:
    [rec] stands for [print_nodes]. *)
Variable rec : str -> Z -> M unit.

Definition is_header (line : str) : bool :=
  match parse_header line with Some _ => true | None => false end.

(** [print_block] *)
Definition print_block (block : list str) : M unit :=
  if (2 <? length block) && is_header (nth 0 block [])
     && is_header (nth 1 block [])
  then rec (join [NL] (tl block)) 1
  else if (1 <? length block) && is_header (nth 0 block [])
  then rec (join [NL] block) 1
  else
    add_indent 1 ;;
    indent cfg ;;
    write (lit "pass") ;;
    add_indent (-1).

(** The loop of [print_if] over [enumerate(lines)], from index [i] on. *)
Fixpoint print_if_lines (if_indent last : nat) (i : nat) (lines : list str)
         (current_block : list str) : M unit :=
  match lines with
  | [] => ret tt
  | line :: rest =>
      if i =? 0 then
        print_condition (lit "if") line ;;
        print_if_lines if_indent last (S i) rest current_block
      else if startswith (slice_from if_indent line) (lit "elif") then
        print_block current_block ;;
        indent cfg ;;
        print_condition (lit "elif") line ;;
        print_if_lines if_indent last (S i) rest []
      else if startswith (slice_from if_indent line) (lit "else") then
        print_block current_block ;;
        indent cfg ;;
        write (lit "else:") ;;
        print_if_lines if_indent last (S i) rest []
      else if i =? last then
        print_block (current_block ++ [line]) ;;
        print_if_lines if_indent last (S i) rest (current_block ++ [line])
      else
        print_if_lines if_indent last (S i) rest (current_block ++ [line])
  end.

(** [print_if] *)
Definition print_if (header code : str) : M unit :=
  let lines := splitlines code in
  match nth_error lines 1 with
  | None => raise IndexError
  | Some line1 =>
      if negb (is_header line1) then print_python cfg header code
      else
        indent cfg ;;
        let if_indent :=
          length (hd [] lines) - length (lstrip (hd [] lines)) in
        print_if_lines if_indent (length lines - 1) 0 lines []
  end.

(** [print_for] *)
Definition print_for (header code : str) : M unit :=
  let lines := splitlines code in
  match nth_error lines 1 with
  | None => raise IndexError
  | Some line1 =>
      if negb (is_header line1) then print_python cfg header code
      else
        indent cfg ;;
        print_condition (lit "for") (hd [] lines) ;;
        print_block (removelast (tl lines))
  end.

(** [print_ui] *)
Definition print_ui (header code : str) : M unit :=
  let (line, block) := match split1 [NL] code with
                       | Some (l, b) => (l, b)
                       | None => (code, [])
                       end in
  match split1 (lit "ui.") line with
  | None => raise IndexError
  | Some (_, after) =>
      let name := match split1 (lit "(") after with
                  | Some (n, _) => n
                  | None => after
                  end in
      indent cfg ;;
      write name ;;
      a <- lift (parse_args line) ;;
      let block :=
        match split1 [NL] block with
        | Some (b0, b1) =>
            if contains (lit "ui.child_or_fixed()") b0 then b1 else block
        | None =>
            if contains (lit "ui.child_or_fixed()") block then [] else block
        end in
      print_arguments (a_args a) (a_kwargs a) (nonempty block) ;;
      rec block 1
  end.

(** The call [func(self, header, code)] of [print_node]. *)
Definition call_handler (func : handler) (header code : str) : M unit :=
  match func with
  | H_if => print_if header code
  | H_for => print_for header code
  | H_use => print_use cfg header code
  | H_default => print_default cfg header code
  | H_hotspot => print_hotspot header code
  | H_ui => print_ui header code
  end.

(** [print_node] *)
Definition print_node (header code : str) : M unit :=
  code <- (if is_loop_marker code then
             match split1 [NL] code with
             | Some (_, c) => ret c
             | None => raise ValueError
             end
           else ret code) ;;
  match select_handler dispatch code with
  | Some func => call_handler func header code
  | None => print_python cfg header code
  end.

(** The body of [print_nodes]. *)
Definition print_nodes_body (code : str) (extra_indent : Z) : M unit :=
  match split1 [NL] code with
  | None => ret tt
  | Some _ =>
      nodes <- lift (print_nodes_split code) ;;
      add_indent extra_indent ;;
      for_each nodes (fun hc => print_node (fst hc) (snd hc)) ;;
      add_indent (- extra_indent)
  end.

End Nodes.

(** [print_nodes]; [fuel] bounds the depth of the calls. *)
Fixpoint print_nodes (fuel : nat) (code : str) (extra_indent : Z)
  : M unit :=
  match fuel with
  | O => raise OutOfFuel
  | S fuel' => print_nodes_body (print_nodes fuel') code extra_indent
  end.

(** The screen statement handed to [print_screen].  A keyword that holds
    a [unicode] value is [Some] of it; any other value is [None]. *)
Record screen : Type := mk_screen {
  ast_name : str;
  ast_parameters : option paraminfo;
  ast_zorder : option str;
  ast_modal : option str;
  ast_variant : option str;
  ast_tag : option str;
  ast_code_source : source
}.

(** One round of the loop over [zorder], [modal] and [variant]; [acc]
    holds what was appended to [kwargs_for_screen_line] and
    [kwargs_for_separate_lines]. *)
Definition screen_keyword (acc : list (list str) * list str)
           (key : str) (value : option str)
  : result (list (list str) * list str) :=
  match value with
  | None => Ok acc
  | Some value =>
      match value with
      | [] => Raise IndexError
      | _ :: _ =>
          let guarded_value := simple_expression_guard value in
          if negb (ch_eqb (last value SP) SP)
             || negb (str_eqb guarded_value (strip value))
          then Ok (fst acc, snd acc ++ [key ++ lit " " ++ guarded_value])
          else Ok (fst acc ++ [[key; value]], snd acc)
      end
  end.

Definition screen_keywords (ast : screen)
  : result (list (list str) * list str) :=
  match screen_keyword ([], []) (lit "zorder") (ast_zorder ast) with
  | Raise e => Raise e
  | Ok acc =>
      match screen_keyword acc (lit "modal") (ast_modal ast) with
      | Raise e => Raise e
      | Ok acc => screen_keyword acc (lit "variant") (ast_variant ast)
      end
  end.

(** The text [print_screen] hands to [print_nodes]: the lines of the
    generated code but those that are [ui.close()] once stripped. *)
Definition screen_body (code : str) : str :=
  join [NL]
    (filter (fun line => negb (str_eqb (strip line) (lit "ui.close()")))
            (splitlines code)).

(** [print_screen] *)
Definition print_screen (fuel : nat) (ast : screen) : M unit :=
  indent cfg ;;
  write (lit "screen " ++ ast_name ast) ;;
  (match ast_parameters ast with
   | Some parameters => write (reconstruct_paraminfo parameters)
   | None => ret tt
   end) ;;
  kw <- lift (screen_keywords ast) ;;
  let kwargs_for_screen_line :=
    match snd kw with
    | [] => fst kw
    | first :: _ => fst kw ++ [[first]]
    end in
  let kwargs_for_separate_lines := tl (snd kw) in
  write (WordConcatenator_join kwargs_for_screen_line ++ lit ":") ;;
  add_indent 1 ;;
  for_each kwargs_for_separate_lines (fun i => indent cfg ;; write i) ;;
  (if truthy (ast_tag ast)
   then indent cfg ;; write (lit "tag " ++ text_of (ast_tag ast))
   else ret tt) ;;
  if negb (decompile_python cfg) then
    indent cfg ;;
    write (lit "pass # Screen code not extracted")
  else
    let code := to_source (ast_code_source ast) (indentation cfg) in
    (if decompile_screencode cfg then
       print_nodes fuel (screen_body code) 0
     else
       indent cfg ;;
       write (lit "python:") ;;
       add_indent 1 ;;
       for_each (tl (splitlines code)) (fun line =>
         indent cfg ;; write line) ;;
       add_indent (-1)) ;;
    add_indent (-1).

(** [dump] *)
Definition dump (fuel : nat) (out : str) (ast : screen)
           (level line : Z) (skip : bool) : result (Z * wstate) :=
  match print_screen fuel ast (mk_wstate level line skip out) with
  | Ok (_, w) => Ok (linenumber w, w)
  | Raise e => Raise e
  end.

End Decompiler.

(** [pprint]: the decompiler object is made with the options given and
    the indentation that [__init__] takes by default, four spaces, and
    [dump] is called on it. *)
Definition pprint (simple_expression_guard : str -> str)
           (paraminfo source : Type)
           (reconstruct_paraminfo : paraminfo -> str)
           (WordConcatenator_join : list (list str) -> str)
           (to_source : source -> str -> str)
           (fuel : nat) (out_file : str) (ast : screen paraminfo source)
           (indent_level linenumber : Z)
           (force_multiline_kwargs decompile_python decompile_screencode
              comparable skip_indent_until_write : bool)
  : result (Z * wstate) :=
  dump simple_expression_guard paraminfo source reconstruct_paraminfo
       WordConcatenator_join to_source
       (mk_config (lit "    ") force_multiline_kwargs decompile_python
                  decompile_screencode comparable)
       fuel out_file ast indent_level linenumber skip_indent_until_write.

(** * Vocabulary of the statements *)

(** What the specification asks of the table: no registered statement is a
    prefix of another one. *)
Definition prefix_free (registry : list (str * handler)) : Prop :=
  forall p1 h1 p2 h2,
    In (p1, h1) registry -> In (p2, h2) registry -> p1 <> p2 ->
    startswith p2 p1 = false.

(** What the table has: statements of which one is a prefix of the other
    are handled by the same method. *)
Definition overlap_agrees (registry : list (str * handler)) : bool :=
  forallb (fun e1 =>
    forallb (fun e2 =>
      implb (startswith (fst e2) (fst e1))
            (handler_eqb (snd e1) (snd e2))) registry) registry.

(** The stack of the scanning loop above its bottom element: the strings
    and containers that are open. *)
Definition open_frames (opens : list ascii) : list frame :=
  map Open opens ++ [Bottom].

(** Every stack the loop reaches from its start is a list of open strings
    and containers over the bottom element, or is empty (after an
    unmatched closer). *)
Definition stack_shape (stk : list frame) : Prop :=
  stk = [] \/ exists opens, stk = open_frames opens.

(** A character that neither opens nor closes a string or a container. *)
Definition plain (c : ascii) : bool :=
  negb (is_quote c || is_opener c || is_closer c).

(** A decimal string: one digit or more. *)
Definition is_decimal (d : str) : bool := nonempty d && forallb isdigit d.

(** The header built from a triple, with an underscore before the index
    when [u] holds. *)
Definition header_core (own parent : str) (u : bool) (index : str) : str :=
  lit "_" ++ own ++ lit " = (_" ++ parent ++ lit ", "
  ++ (if u then lit "_" else []) ++ index ++ lit ")".

(** The header line: [n1] spaces, the header, [n2] spaces and, when [nl]
    holds, a line feed. *)
Definition header_line (n1 : nat) (own parent : str) (u : bool) (index : str)
           (n2 : nat) (nl : bool) : str :=
  repeat SP n1 ++ header_core own parent u index
  ++ repeat SP n2 ++ (if nl then [NL] else []).

(** The first character of a text fails [p], if there is one. *)
Definition stops (p : ascii -> bool) (r : str) : Prop :=
  match r with c :: _ => p c = false | [] => True end.

(** A method shifts the indentation depth by [d] when, each time it
    returns, the depth is [d] more than on entry; it is balanced when it
    shifts the depth by nothing. *)
Definition shifts {A : Type} (d : Z) (m : M A) : Prop :=
  forall w a w', m w = Ok (a, w') -> indent_level w' = (indent_level w + d)%Z.

(** The indentation of a line: [len(line) - len(line.lstrip())]. *)
Definition indent_width (line : str) : nat :=
  length line - length (lstrip line).

(** The line holds more than white space: [line.strip()] is true. *)
Definition nonblank (line : str) : bool := negb (str_eqb (strip line) []).

(** The least indentation among the lines that are not blank. *)
Definition min_indent (lines : list str) : nat :=
  match filter nonblank lines with
  | [] => 0
  | l :: ls => fold_left Nat.min (map indent_width ls) (indent_width l)
  end.

(** What [indent] writes in the state [w]. *)
Definition line_start (cfg : config) (w : wstate) : str :=
  if skip_indent_until_write w then []
  else NL :: repeat_str (indentation cfg) (Z.to_nat (indent_level w)).

(** A [python:] block opened at depth [level] with the lines [body]. *)
Definition python_block (cfg : config) (level : Z) (body : list str) : str :=
  lit "python:"
  ++ concat (map (fun l => NL :: repeat_str (indentation cfg)
                                   (Z.to_nat (level + 1)) ++ l) body).

(** What a method did when it took the state [w] to [w']: it shifted the
    depth by [d] and wrote [text], counting its line feeds. *)
Definition wrote (w w' : wstate) (d : Z) (text : str) : Prop :=
  indent_level w' = (indent_level w + d)%Z
  /\ linenumber w' = (linenumber w + Z.of_nat (count_char NL text))%Z
  /\ out_file w' = out_file w ++ text.

(** The text [print_use] writes after the name of the screen. *)
Definition use_suffix (args : list str) (kwargs : list (str * str))
           (exargs exkwargs : option str) : str :=
  if nonempty args || nonempty kwargs || truthy exargs || truthy exkwargs
  then lit "(" ++ join (lit ", ") (use_arglist args kwargs exargs exkwargs)
       ++ lit ")"
  else [].

(** A pattern is sound when its match and the rest make up the text. *)
Definition sound (pat : str -> option hmatch) : Prop :=
  forall s m, pat s = Some m -> s = h_text m ++ h_rest m.

(** The text holds no line boundary. *)
Definition no_break (l : str) : bool :=
  forallb (fun c => negb (is_linebreak c)) l.

(** The text ends with a line feed. *)
Definition ends_nl (s : str) : Prop := exists p, s = p ++ [NL].

(** A parent id: a decimal string, or [name] at the outermost level. *)
Definition valid_parent (P : str) : bool :=
  is_decimal P || str_eqb P (lit "name").

(** [c] does not occur in [s]. *)
Definition lacks (c : ascii) (s : str) : bool :=
  forallb (fun x => negb (ch_eqb x c)) s.

(** The text before the closing parenthesis of a header line. *)
Definition header_open (n1 : nat) (own P : str) (u : bool) (index : str)
  : str :=
  repeat SP n1 ++ lit "_" ++ own ++ lit " = (_" ++ P ++ lit ", "
  ++ (if u then lit "_" else []) ++ index.

(** The two sides of the assignment in an open header. *)
Definition header_lhs (n1 : nat) (own : str) : str :=
  repeat SP n1 ++ lit "_" ++ own ++ lit " ".

Definition header_rhs (P : str) (u : bool) (index : str) : str :=
  lit " (_" ++ P ++ lit ", " ++ (if u then lit "_" else []) ++ index.

(** The pattern of [print_nodes] matches nowhere in the text. *)
Definition no_match (P b : str) : bool :=
  match re_search (header_of_at P) b with
  | None => true
  | Some _ => false
  end.

(** What the end of a header pattern takes from the text that follows a
    header without a line feed of its own: spaces, then one line feed. *)
Definition absorb (t : str) : str := opt_char NL (snd (span is_sp t)).

(** Texts made of sibling headers of the parent [P], with their ids in the
    order of the text: before each header and after the last one stands a
    text in which the pattern does not match. *)
Inductive siblings (P : str) : list (str * str * str) -> str -> Prop :=
| siblings_nil (b : str) :
    no_match P b = true -> siblings P [] b
| siblings_cons (b : str) (n1 : nat) (own : str) (u : bool) (index : str)
                (n2 : nat) (nl : bool) (t : str)
                (ids : list (str * str * str)) :
    no_match P b = true ->
    is_decimal own = true -> is_decimal index = true ->
    siblings P ids t ->
    siblings P ((own, P, index) :: ids)
             (b ++ header_line n1 own P u index n2 nl ++ t).

(** A sibling of a flattened body: the parts of its header line and the
    text that follows it up to the next sibling. *)
Record sibling : Type := mk_sibling {
  s_n1 : nat;        (* spaces before the header *)
  s_own : str;       (* own id *)
  s_u : bool;        (* an underscore before the index *)
  s_index : str;     (* index among the siblings *)
  s_n2 : nat;        (* spaces after the header *)
  s_nl : bool;       (* a line feed closes the header line *)
  s_text : str       (* the text up to the next sibling *)
}.

(** The header line of a sibling of the parent [P]. *)
Definition sibling_header (P : str) (x : sibling) : str :=
  header_line (s_n1 x) (s_own x) P (s_u x) (s_index x) (s_n2 x) (s_nl x).

(** The ids are decimal strings and the text holds no header of [P]. *)
Definition sibling_ok (P : str) (x : sibling) : bool :=
  is_decimal (s_own x) && is_decimal (s_index x) && no_match P (s_text x).

(** The body built from the siblings, in their order. *)
Definition flattened (P : str) (xs : list sibling) : str :=
  concat (map (fun x => sibling_header P x ++ s_text x) xs).

(** Two methods agree when they do the same in every state and neither
    runs out of fuel. *)
Definition agree {A : Type} (m1 m2 : M A) : Prop :=
  forall w, m1 w = m2 w /\ m1 w <> Raise OutOfFuel.

(** The characters of the lines, without what separates them. *)
Definition total (l : list str) : nat := length (concat l).

(** The exceptions the printers raise on a text they cannot handle. *)
Definition input_error (e : exn) : Prop :=
  e = TypeError \/ e = IndexError \/ e = ValueError.

(** A method fails with nothing but the exceptions [P]. *)
Definition raises_only {A : Type} (P : exn -> Prop) (m : M A) : Prop :=
  forall w e, m w = Raise e -> P e.

(** Text in which every string and every container is closed: plain
    characters, strings between two quotes of one kind without that quote
    or a backslash inside, and containers between an opening and a closing
    character (of any kind: the parser does not pair them) around such
    text. *)
Inductive closed_text : str -> Prop :=
| closed_nil : closed_text []
| closed_plain (c : ascii) (s : str) :
    plain c = true -> closed_text s -> closed_text (c :: s)
| closed_string (q : ascii) (inner s : str) :
    is_quote q = true -> lacks q inner = true -> lacks BSL inner = true ->
    closed_text s -> closed_text (q :: inner ++ q :: s)
| closed_group (o c : ascii) (inner s : str) :
    is_opener o = true -> is_closer c = true ->
    closed_text inner -> closed_text s ->
    closed_text (o :: inner ++ c :: s).

(** The text of one argument: closed text without a comma outside its
    strings and containers. *)
Inductive argument_text : str -> Prop :=
| argument_nil : argument_text []
| argument_plain (c : ascii) (s : str) :
    plain c = true -> ch_eqb c ","%char = false ->
    argument_text s -> argument_text (c :: s)
| argument_string (q : ascii) (inner s : str) :
    is_quote q = true -> lacks q inner = true -> lacks BSL inner = true ->
    argument_text s -> argument_text (q :: inner ++ q :: s)
| argument_group (o c : ascii) (inner s : str) :
    is_opener o = true -> is_closer c = true ->
    closed_text inner -> argument_text s ->
    argument_text (o :: inner ++ c :: s).

(** What [parse_args] returns is normal: positional arguments are
    stripped, the name of a keyword argument is a word, its value is
    stripped and not empty, and what follows the star of the positional
    catch-all does not start with a star. *)
Definition normal (a : argtuple) : Prop :=
  (forall x, In x (a_args a) -> strip x = x)
  /\ (forall k v, In (k, v) (a_kwargs a) ->
                  k <> [] /\ forallb is_word k = true
                  /\ v <> [] /\ strip v = v)
  /\ (forall r, a_exargs a = Some r -> startswith r (lit "*") = false).

(** A call on one line: a name and, between parentheses, arguments
    separated by commas. *)
Definition call_line (name : str) (arguments : list str) : str :=
  name ++ lit "(" ++ join (lit ",") arguments ++ lit ")".

(** An argument that is neither a keyword argument nor variadic. *)
Definition positional (argument : str) : bool :=
  negb (is_keyword_argument argument)
  && negb (startswith argument (lit "*")).

(** The call a [default] statement compiles to: the name of the variable
    as a string in single quotes, with or without the [u] of a unicode
    literal, and the default value. *)
Definition default_call (u : bool) (key value : str) : str :=
  lit "_scope.setdefault("
  ++ (if u then lit "u" else []) ++ SQ :: key ++ SQ :: lit ", " ++ value
  ++ lit ")".

(** The line that counts the rounds of a loop: spaces, an id, [ = 0] and
    anything up to the end of the line. *)
Definition loop_marker (k : nat) (d junk : str) : str :=
  repeat SP k ++ lit "_" ++ d ++ lit " = 0" ++ junk.

(** What [print_condition] does to a condition and to the variables of a
    loop: between an opening parenthesis at the start and a closing one at
    the end, the first and the last character are dropped. *)
Definition unwrapped (s : str) : str :=
  if startswith s (lit "(") && endswith s (lit ")")
  then slice_from_to_last 1 s else s.

(** A keyword argument the compiler of the screen language adds by
    itself: an [id] that starts with an underscore, or [scope=_scope]. *)
Definition internal_kwarg (kv : str * str) : bool :=
  (str_eqb (fst kv) (lit "id") && startswith (snd kv) (lit "_"))
  || (str_eqb (fst kv) (lit "scope") && str_eqb (snd kv) (lit "_scope")).

(** The keyword arguments [print_arguments] writes, their values guarded. *)
Definition written_kwargs (guard : str -> str) (kwargs : list (str * str))
  : list (str * str) :=
  map (fun kv => (fst kv, guard (snd kv)))
      (filter (fun kv => negb (internal_kwarg kv)) kwargs).

(** The text [print_arguments] writes at depth [level]: the positional
    arguments on the line, then the keyword arguments, each on a line of
    its own one level deeper after a colon, or on the same line. *)
Definition arguments_text (guard : str -> str) (cfg : config) (level : Z)
           (args : list str) (kwargs : list (str * str)) (multiline : bool)
  : str :=
  (if nonempty args
   then lit " " ++ join (lit " ") (map guard args) else [])
  ++ (if force_multiline_kwargs cfg && negb (comparable cfg)
         && nonempty (written_kwargs guard kwargs)
      then lit ":"
           ++ concat (map (fun kv =>
                NL :: repeat_str (indentation cfg) (Z.to_nat (level + 1))
                   ++ fst kv ++ lit " " ++ snd kv)
                (written_kwargs guard kwargs))
      else concat (map (fun kv => lit " " ++ fst kv ++ lit " " ++ snd kv)
                       (written_kwargs guard kwargs))
           ++ (if multiline then lit ":" else [])).

(** One of the three keywords of the screen is the empty string. *)
Definition empty_keyword {paraminfo source : Type}
           (ast : screen paraminfo source) : bool :=
  match ast_zorder paraminfo source ast, ast_modal paraminfo source ast,
        ast_variant paraminfo source ast with
  | Some [], _, _ | _, Some [], _ | _, _, Some [] => true
  | _, _, _ => false
  end.

(** A line that opens a further branch of a conditional: after the
    indentation of the [if] it starts with [elif] or with [else]. *)
Definition is_branch_line (if_indent : nat) (line : str) : bool :=
  startswith (slice_from if_indent line) (lit "elif")
  || startswith (slice_from if_indent line) (lit "else").

(** The lines of the branches a conditional has after its first one: for
    each branch the line that opens it and the lines of its block. *)
Definition flat_branches (branches : list (str * list str)) : list str :=
  concat (map (fun eb => fst eb :: snd eb) branches).

Section Branches.

Variable cfg : config.
Variable rec : str -> Z -> M unit.
Variable if_indent : nat.

(** The branches after the first one, printed one after the other: the
    line that opens the branch, then its block. *)
Fixpoint print_branches (branches : list (str * list str)) : M unit :=
  match branches with
  | [] => ret tt
  | (opener, block) :: rest =>
      indent cfg ;;
      (if startswith (slice_from if_indent opener) (lit "elif")
       then print_condition (lit "elif") opener
       else write (lit "else:")) ;;
      print_block cfg rec block ;;
      print_branches rest
  end.

(** The branches are well formed: each line that opens one is a branch
    line, no line of a block is, and the last block is not empty. *)
Fixpoint branches_ok (block : list str) (branches : list (str * list str))
  : bool :=
  forallb (fun l => negb (is_branch_line if_indent l)) block
  && match branches with
     | [] => nonempty block
     | (opener, block') :: rest =>
         is_branch_line if_indent opener && branches_ok block' rest
     end.

End Branches.

(** The text is empty or ends with a line feed. *)
Definition ends_line (s : str) : bool :=
  match rev s with
  | c :: _ => ch_eqb c NL
  | [] => true
  end.

(** The siblings stand on lines of their own: a line feed closes every
    header line, and the text of every sibling but the last one is empty
    or ends with a line feed. *)
Definition on_lines (xs : list sibling) : bool :=
  forallb s_nl xs && forallb (fun x => ends_line (s_text x)) (removelast xs).

(** The inside of a string between two quotes [q], read from the left:
    [closing] holds when the count of backslashes just before the place
    reached is even, so that a quote [q] there would close the string.
    No quote [q] of the inside stands at such a place, and the end of the
    inside is one. *)
Fixpoint string_inside_from (q : ascii) (closing : bool) (inner : str)
  : bool :=
  match inner with
  | [] => closing
  | c :: s =>
      negb (ch_eqb c q && closing)
      && string_inside_from q (if ch_eqb c BSL then negb closing else true) s
  end.

(** The inside of a string: every quote of the kind that opened it stands
    after an odd count of backslashes, and the inside ends with an even
    count of them. *)
Definition string_inside (q : ascii) (inner : str) : bool :=
  string_inside_from q true inner.

(** Text in which every string and every container is closed: plain
    characters, strings between two quotes of one kind, in single or in
    double quotes, and containers between an opening and a closing
    character (parentheses, brackets and braces, of any kind: the parser
    does not pair them) around such text. *)
Inductive nested_text : str -> Prop :=
| nested_nil : nested_text []
| nested_plain (c : ascii) (s : str) :
    plain c = true -> nested_text s -> nested_text (c :: s)
| nested_string (q : ascii) (inner s : str) :
    is_quote q = true -> string_inside q inner = true ->
    nested_text s -> nested_text (q :: inner ++ q :: s)
| nested_group (o c : ascii) (inner s : str) :
    is_opener o = true -> is_closer c = true ->
    nested_text inner -> nested_text s ->
    nested_text (o :: inner ++ c :: s).

(** The text of one argument: such text without a comma at top level,
    that is outside its strings and its containers. *)
Inductive top_level_text : str -> Prop :=
| top_level_nil : top_level_text []
| top_level_plain (c : ascii) (s : str) :
    plain c = true -> ch_eqb c ","%char = false ->
    top_level_text s -> top_level_text (c :: s)
| top_level_string (q : ascii) (inner s : str) :
    is_quote q = true -> string_inside q inner = true ->
    top_level_text s -> top_level_text (q :: inner ++ q :: s)
| top_level_group (o c : ascii) (inner s : str) :
    is_opener o = true -> is_closer c = true ->
    nested_text inner -> top_level_text s ->
    top_level_text (o :: inner ++ c :: s).

(** The arguments that remain of a use statement once the name of the
    screen and the keyword arguments [_scope] and [_name] are taken away:
    the other positional arguments, the keyword arguments kept, as
    [name=value], and the variadic arguments with their stars. *)
Definition use_remaining (args : list str) (kwargs : list (str * str))
           (exargs exkwargs : option str) : list str :=
  args
  ++ map (fun kv => fst kv ++ lit "=" ++ snd kv) kwargs
  ++ (match exargs with Some r => [lit "*" ++ r] | None => [] end)
  ++ (match exkwargs with Some r => [lit "**" ++ r] | None => [] end).




(** * Properties *)

(** ** Concrete runs *)

Example parse_header_ex1 :
  parse_header (lit "    _12 = (_3, _4)  ") = Some (lit "12", lit "3", lit "4").
Proof. reflexivity. Qed.

Example parse_header_ex2 :
  parse_header (lit "_1 = (_name, 0)") = Some (lit "1", lit "name", lit "0").
Proof. reflexivity. Qed.

Example parse_header_ex3 : parse_header (lit "ui.text(x)") = None.
Proof. reflexivity. Qed.

Example print_nodes_split_ex1 :
  print_nodes_split
    (lit "_3 = (_0, 0)" ++ [NL] ++ lit "ui.text(a)" ++ [NL] ++
     lit "  _2 = (_0, 1)" ++ [NL] ++ lit "x = 1")
  = Ok [ (lit "_3 = (_0, 0)" ++ [NL], lit "ui.text(a)" ++ [NL]);
         (lit "  _2 = (_0, 1)" ++ [NL], lit "x = 1") ].
Proof. reflexivity. Qed.

Example parse_args_ex1 :
  parse_args (lit "ui.text(u'a, b', id=_2, scope=_scope, *rest, **kw)")
  = Ok (mk_args [lit "u'a, b'"]
                [(lit "id", lit "_2"); (lit "scope", lit "_scope")]
                (Some (lit "rest")) (Some (lit "kw"))).
Proof. reflexivity. Qed.

Example parse_args_ex2 : parse_args (lit "a), b") = Raise IndexError.
Proof. reflexivity. Qed.

(** A conditional with three branches, each with one child. *)
Example print_nodes_conditional :
  let code := join [NL]
    [ lit "_1 = (_name, 0)"; lit "if x:";
      lit "    _2 = (_1, 0)"; lit "    ui.text(u'a')";
      lit "elif y:";
      lit "    _3 = (_1, 1)"; lit "    ui.text(u'b')";
      lit "else:";
      lit "    _4 = (_1, 2)"; lit "    ui.text(u'c')" ] in
  exists w,
    print_nodes (fun e => e) (mk_config (lit "    ") true true true false)
                4 code 0 (mk_wstate 0 1 false [])
    = Ok (tt, w)
    /\ indent_level w = 0%Z
    /\ out_file w
       = [NL] ++ join [NL]
           [ lit "if x:"; lit "    text u'a'";
             lit "elif y:"; lit "    text u'b'";
             lit "else:"; lit "    text u'c'" ].
Proof. eexists. split; [vm_compute; reflexivity|]. split; reflexivity. Qed.

(** A loop: the parentheses around its variables and the line that
    counts its rounds are dropped. *)
Example print_nodes_loop :
  let code := join [NL]
    [ lit "_1 = (_name, 0)"; lit "_2 = 0"; lit "for (a, b) in c:";
      lit "    _3 = (_1, _2)"; lit "    ui.text(a)"; lit "    _2 += 1" ] in
  exists w,
    print_nodes (fun e => e) (mk_config (lit "    ") true true true false)
                4 code 0 (mk_wstate 0 1 false [])
    = Ok (tt, w)
    /\ out_file w
       = [NL] ++ join [NL] [ lit "for a, b in c:"; lit "    text a" ].
Proof. eexists. split; [vm_compute; reflexivity|reflexivity]. Qed.

(** ** Characters and prefixes *)

Lemma ch_eqb_eq (a b : ascii) : ch_eqb a b = true <-> a = b.
Proof. unfold ch_eqb. apply Ascii.eqb_eq. Qed.

Lemma ch_eqb_refl (a : ascii) : ch_eqb a a = true.
Proof. apply ch_eqb_eq. reflexivity. Qed.

Lemma ch_eqb_neq (a b : ascii) : ch_eqb a b = false <-> a <> b.
Proof. unfold ch_eqb. apply Ascii.eqb_neq. Qed.

Lemma str_eqb_eq (a b : str) : str_eqb a b = true <-> a = b.
Proof.
  revert b. induction a as [|x a IH]; intros [|y b]; simpl; split;
    try congruence; try reflexivity.
  - intros H. apply andb_true_iff in H. destruct H as [H1 H2].
    apply ch_eqb_eq in H1. apply IH in H2. congruence.
  - intros H. inversion H; subst. rewrite ch_eqb_refl. simpl.
    apply IH. reflexivity.
Qed.

Lemma strip_prefix_spec (p s r : str) :
  strip_prefix p s = Some r <-> s = p ++ r.
Proof.
  revert s. induction p as [|x p IH]; intros s; simpl.
  - split; congruence.
  - destruct s as [|y s]; [split; congruence|].
    destruct (ch_eqb x y) eqn:E.
    + apply ch_eqb_eq in E. subst y. rewrite IH. split; congruence.
    + apply ch_eqb_neq in E. split; congruence.
Qed.

Lemma startswith_spec (s p : str) :
  startswith s p = true <-> exists r, s = p ++ r.
Proof.
  unfold startswith. destruct (strip_prefix p s) as [r|] eqn:E.
  - apply strip_prefix_spec in E. split; eauto.
  - split; [congruence|]. intros [r Hr].
    apply strip_prefix_spec in Hr. congruence.
Qed.

(** Two prefixes of one text are comparable. *)
Lemma prefixes_comparable (s p q : str) :
  startswith s p = true -> startswith s q = true ->
  startswith q p = true \/ startswith p q = true.
Proof.
  rewrite !startswith_spec. intros [r1 H1] [r2 H2]. subst s.
  revert q r1 r2 H2. induction p as [|x p IH]; intros q r1 r2 H.
  - left. exists q. reflexivity.
  - destruct q as [|y q].
    + right. eexists. reflexivity.
    + simpl in H. inversion H; subst.
      destruct (IH _ _ _ H2) as [[r Hl]|[r Hr]].
      * left. exists r. simpl. congruence.
      * right. exists r. simpl. congruence.
Qed.

(** ** The dispatch table (C7) *)

Lemma handler_eqb_eq (a b : handler) : handler_eqb a b = true -> a = b.
Proof. destruct a, b; simpl; congruence. Qed.

Lemma dispatch_overlap (p1 p2 : str) (h1 h2 : handler) :
  In (p1, h1) dispatch -> In (p2, h2) dispatch ->
  startswith p2 p1 = true -> h1 = h2.
Proof.
  intros H1 H2 Hp.
  assert (Hall : overlap_agrees dispatch = true) by (vm_compute; reflexivity).
  unfold overlap_agrees in Hall. rewrite forallb_forall in Hall.
  specialize (Hall _ H1). rewrite forallb_forall in Hall.
  specialize (Hall _ H2). simpl in Hall. rewrite Hp in Hall.
  apply handler_eqb_eq. exact Hall.
Qed.

Lemma select_handler_some (registry : list (str * handler)) (code : str)
      (h : handler) :
  select_handler registry code = Some h ->
  exists p, In (p, h) registry /\ startswith (lstrip code) p = true.
Proof.
  induction registry as [|[p f] rest IH]; simpl; [congruence|].
  destruct (startswith (lstrip code) p) eqn:E.
  - intros H. inversion H; subst. exists p. auto.
  - intros H. destruct (IH H) as [q [Hin Hq]]. exists q. auto.
Qed.

Lemma select_handler_none (registry : list (str * handler)) (code : str) :
  select_handler registry code = None ->
  forall p h, In (p, h) registry -> startswith (lstrip code) p = false.
Proof.
  induction registry as [|[p f] rest IH]; simpl; [tauto|].
  destruct (startswith (lstrip code) p) eqn:E; [congruence|].
  intros H q h [Hq|Hq].
  - inversion Hq; subst. exact E.
  - eapply IH; eauto.
Qed.

(** C7, the claim as stated fails: [ui.text] is registered and is a proper
    prefix of the registered [ui.textbutton] (as [ui.drag] is of
    [ui.draggroup]). *)
Lemma dispatch_not_prefix_free : ~ prefix_free dispatch.
Proof.
  intros H.
  assert (E : startswith (lit "ui.textbutton") (lit "ui.text") = false).
  { apply (H (lit "ui.text") H_ui (lit "ui.textbutton") H_ui).
    - unfold dispatch. simpl. tauto.
    - unfold dispatch. simpl. tauto.
    - discriminate. }
  vm_compute in E. discriminate.
Qed.

(** C7, amended: registered statements that overlap are handled by the same
    method, so the method [print_node] selects for a code is the same in
    every order of iteration over the table. *)
Theorem dispatch_order_irrelevant (registry : list (str * handler)) :
  Permutation dispatch registry ->
  forall code, select_handler registry code = select_handler dispatch code.
Proof.
  intros HP code.
  destruct (select_handler dispatch code) as [h|] eqn:Ed.
  - destruct (select_handler_some _ _ _ Ed) as [p [Hin Hp]].
    destruct (select_handler registry code) as [h'|] eqn:Er.
    + destruct (select_handler_some _ _ _ Er) as [q [Hin' Hq]].
      apply (Permutation_in (l:=registry) (l':=dispatch) _ (Permutation_sym HP)) in Hin'.
      destruct (prefixes_comparable _ _ _ Hp Hq) as [Hc|Hc].
      * f_equal. symmetry. eapply dispatch_overlap; eauto.
      * f_equal. eapply dispatch_overlap; eauto.
    + apply (Permutation_in (l:=dispatch) (l':=registry) _ HP) in Hin.
      rewrite (select_handler_none _ _ Er _ _ Hin) in Hp. discriminate.
  - destruct (select_handler registry code) as [h'|] eqn:Er; [|reflexivity].
    destruct (select_handler_some _ _ _ Er) as [q [Hin' Hq]].
    apply (Permutation_in (l:=registry) (l':=dispatch) _ (Permutation_sym HP)) in Hin'.
    rewrite (select_handler_none _ _ Ed _ _ Hin') in Hq. discriminate.
Qed.

Lemma dispatch_order_irrelevant_witness :
  Permutation dispatch (rev dispatch) /\
  select_handler (rev dispatch) (lit "  ui.textbutton(u'a')") = Some H_ui.
Proof.
  split.
  - apply Permutation_rev.
  - rewrite (dispatch_order_irrelevant (rev dispatch) (Permutation_rev dispatch)).
    reflexivity.
Defined.

(** ** The scanning loop of the argument parser *)

Lemma open_frames_length (opens : list ascii) :
  length (open_frames opens) = S (length opens).
Proof.
  unfold open_frames. rewrite length_app, length_map. simpl. lia.
Qed.

(** A comma never changes the stack. *)
Lemma scan_stack_comma (st : scan) (top : frame) (below : list frame) :
  stack st = top :: below ->
  scan_stack st ","%char = Ok (stack st).
Proof.
  intros H. unfold scan_stack. rewrite H. simpl.
  destruct (frame_is_quote top); reflexivity.
Qed.

(** At top level a comma ends the current argument; anywhere else it is
    part of it. *)
Lemma scan_step_comma (st : scan) (opens : list ascii) :
  stack st = open_frames opens ->
  scan_step st ","%char =
  Ok (match opens with
      | [] => mk_scan (stack st) []
                      (arguments st ++ [strip (current_parse st)])
      | _ :: _ => mk_scan (stack st) (current_parse st ++ [","%char])
                          (arguments st)
      end).
Proof.
  intros H. unfold scan_step.
  assert (Hs : scan_stack st ","%char = Ok (stack st)).
  { destruct opens as [|o opens]; unfold open_frames in H; simpl in H;
      eapply scan_stack_comma; exact H. }
  rewrite Hs, H, open_frames_length.
  destruct opens; reflexivity.
Qed.

(** Inside a string, the quote that opened it closes it exactly when an
    even number of backslashes precedes it; the other quote does nothing. *)
Lemma scan_stack_in_string (st : scan) (q c : ascii) (below : list frame) :
  is_quote q = true -> is_quote c = true ->
  stack st = Open q :: below ->
  scan_stack st c =
  Ok (if ch_eqb q c && Nat.even (count_trailing_slashes (current_parse st))
      then below else stack st).
Proof.
  intros Hq Hc H. unfold scan_stack. rewrite H. simpl.
  rewrite Hc, Hq. simpl.
  destruct (ch_eqb q c && Nat.even (count_trailing_slashes (current_parse st)));
    reflexivity.
Qed.

Lemma scan_stack_shape (st : scan) (c : ascii) (stk : list frame) :
  stack_shape (stack st) -> scan_stack st c = Ok stk -> stack_shape stk.
Proof.
  intros [H|[opens H]] E; unfold scan_stack in E; rewrite H in E.
  - discriminate.
  - assert (Hpush : stack_shape (Open c :: open_frames opens)).
    { right. exists (c :: opens). reflexivity. }
    assert (Hkeep : stack_shape (open_frames opens)).
    { right. exists opens. reflexivity. }
    assert (Hpop : forall top below,
               open_frames opens = top :: below -> stack_shape below).
    { intros top below Hb. destruct opens as [|o opens];
        unfold open_frames in Hb; simpl in Hb; inversion Hb; subst.
      - left. reflexivity.
      - right. exists opens. reflexivity. }
    destruct (open_frames opens) as [|top below] eqn:Eo; [discriminate|].
    specialize (Hpop top below eq_refl).
    destruct (is_quote c); destruct (frame_is_quote top); simpl in E;
      repeat match type of E with
             | (if ?b then _ else _) = _ => destruct b
             end; inversion E; subst; assumption.
Qed.

Lemma scan_chars_shape (s : str) (st st' : scan) :
  stack_shape (stack st) -> scan_chars st s = Ok st' ->
  stack_shape (stack st').
Proof.
  revert st. induction s as [|c s IH]; intros st Hs E; simpl in E.
  - inversion E; subst. exact Hs.
  - destruct (scan_step st c) as [st1|e] eqn:E1; [|discriminate].
    apply (IH st1); [|exact E].
    unfold scan_step in E1.
    destruct (scan_stack st c) as [stk|e] eqn:E2; [|discriminate].
    apply (scan_stack_shape _ _ _ Hs) in E2.
    destruct ((length stk =? 1) && ch_eqb c ","%char);
      inversion E1; subst; exact E2.
Qed.

(** Inside a string in double quotes every character but the double quote
    is kept, commas included. *)
Lemma scan_chars_in_string (inner cur : str) (args : list str)
      (below : list frame) :
  lacks DQ inner = true ->
  scan_chars (mk_scan (Open DQ :: Bottom :: below) cur args) inner
  = Ok (mk_scan (Open DQ :: Bottom :: below) (cur ++ inner) args).
Proof.
  revert cur. induction inner as [|c inner IH]; intros cur H.
  - simpl. rewrite app_nil_r. reflexivity.
  - unfold lacks in H. simpl in H. apply andb_true_iff in H.
    destruct H as [Hc H]. apply negb_true_iff in Hc.
    assert (E : scan_step (mk_scan (Open DQ :: Bottom :: below) cur args) c
                = Ok (mk_scan (Open DQ :: Bottom :: below) (cur ++ [c]) args)).
    { assert (Ef : frame_is (Open DQ) c = false).
      { simpl. apply ch_eqb_neq. apply ch_eqb_neq in Hc. congruence. }
      unfold scan_step, scan_stack.
      cbn [stack current_parse arguments].
      rewrite Ef. change (frame_is_quote (Open DQ)) with true.
      cbn [negb andb]. destruct (is_quote c); reflexivity. }
    simpl scan_chars. rewrite E. rewrite (IH (cur ++ [c]) H).
    rewrite <- app_assoc. reflexivity.
Qed.

Lemma scan_chars_app (s1 s2 : str) (st st' : scan) :
  scan_chars st s1 = Ok st' ->
  scan_chars st (s1 ++ s2) = scan_chars st' s2.
Proof.
  revert st. induction s1 as [|c s1 IH]; intros st H; simpl in *.
  - inversion H. reflexivity.
  - destruct (scan_step st c); [|discriminate]. apply IH. exact H.
Qed.

Lemma count_trailing_slashes_none (s : str) (c : ascii) :
  ch_eqb c BSL = false -> count_trailing_slashes (s ++ [c]) = 0.
Proof.
  intros H. unfold count_trailing_slashes. rewrite rev_app_distr. simpl.
  rewrite H. reflexivity.
Qed.

Lemma lstrip_fixed (c : ascii) (s : str) :
  isspace c = false -> lstrip (c :: s) = c :: s.
Proof. intros H. unfold lstrip. simpl. rewrite H. reflexivity. Qed.

Lemma rstrip_fixed (c : ascii) (s : str) :
  isspace c = false -> rstrip (s ++ [c]) = s ++ [c].
Proof.
  intros H. unfold rstrip. rewrite rev_app_distr. simpl app.
  rewrite (lstrip_fixed c _ H). simpl rev. rewrite rev_involutive.
  reflexivity.
Qed.

(** Stripping a text that starts and ends with a character that is not
    white space changes nothing. *)
Lemma strip_fixed (c1 c2 : ascii) (mid : str) :
  isspace c1 = false -> isspace c2 = false ->
  strip (c1 :: mid ++ [c2]) = c1 :: mid ++ [c2].
Proof.
  intros H1 H2. unfold strip. rewrite app_comm_cons.
  rewrite (rstrip_fixed c2 _ H2). rewrite <- app_comm_cons.
  apply lstrip_fixed. exact H1.
Qed.

(** A text in double quotes, without a double quote or a backslash inside,
    is one argument, whatever commas it holds. *)
Lemma split_arguments_quoted (inner : str) :
  lacks DQ inner = true -> lacks BSL inner = true ->
  split_arguments (DQ :: inner ++ [DQ]) = Ok [DQ :: inner ++ [DQ]].
Proof.
  intros Hq Hb. unfold split_arguments.
  assert (E : scan_chars (mk_scan [Bottom] [] []) (DQ :: inner ++ [DQ])
              = Ok (mk_scan [Bottom] (DQ :: inner ++ [DQ]) [])).
  { change (scan_chars (mk_scan [Bottom] [] []) (DQ :: inner ++ [DQ]))
      with (scan_chars (mk_scan [Open DQ; Bottom] [DQ] []) (inner ++ [DQ])).
    rewrite (scan_chars_app _ _ _ _
               (scan_chars_in_string inner [DQ] [] [] Hq)).
    simpl scan_chars. unfold scan_step, scan_stack.
    cbn [stack current_parse arguments].
    assert (Ec : Nat.even (count_trailing_slashes (DQ :: inner)) = true).
    { destruct inner as [|x inner _] using rev_ind; [reflexivity|].
      rewrite app_comm_cons, count_trailing_slashes_none; [reflexivity|].
      unfold lacks in Hb. rewrite forallb_app in Hb.
      apply andb_true_iff in Hb. destruct Hb as [_ Hb]. simpl in Hb.
      rewrite andb_true_r in Hb. apply negb_true_iff in Hb. exact Hb. }
    change (is_quote DQ) with true. change (frame_is_quote (Open DQ)) with true.
    change (frame_is (Open DQ) DQ) with true. cbn [negb andb].
    change ([DQ] ++ inner) with (DQ :: inner). rewrite Ec.
    reflexivity. }
  rewrite E. simpl arguments. simpl current_parse.
  rewrite (strip_fixed DQ DQ inner eq_refl eq_refl). reflexivity.
Qed.

(** Inside a container every plain character is kept, commas included. *)
Lemma scan_chars_in_container (inner cur : str) (args : list str)
      (o : ascii) (below : list frame) :
  is_quote o = false -> forallb plain inner = true ->
  scan_chars (mk_scan (Open o :: Bottom :: below) cur args) inner
  = Ok (mk_scan (Open o :: Bottom :: below) (cur ++ inner) args).
Proof.
  intros Ho. revert cur. induction inner as [|c inner IH]; intros cur H.
  - simpl. rewrite app_nil_r. reflexivity.
  - simpl in H. apply andb_true_iff in H. destruct H as [Hc H].
    unfold plain in Hc. apply negb_true_iff in Hc.
    apply orb_false_iff in Hc. destruct Hc as [Hc Hcl].
    apply orb_false_iff in Hc. destruct Hc as [Hq Hop].
    assert (E : scan_step (mk_scan (Open o :: Bottom :: below) cur args) c
                = Ok (mk_scan (Open o :: Bottom :: below) (cur ++ [c]) args)).
    { unfold scan_step, scan_stack. cbn [stack current_parse arguments].
      rewrite Hq. change (frame_is_quote (Open o)) with (is_quote o).
      rewrite Ho, Hop, Hcl. reflexivity. }
    simpl scan_chars. rewrite E. rewrite (IH (cur ++ [c]) H).
    rewrite <- app_assoc. reflexivity.
Qed.

(** A list in square brackets whose elements are plain is one argument,
    whatever commas it holds. *)
Lemma split_arguments_bracketed (inner : str) :
  forallb plain inner = true ->
  split_arguments ("["%char :: inner ++ ["]"%char])
  = Ok ["["%char :: inner ++ ["]"%char]].
Proof.
  intros H. unfold split_arguments.
  change (scan_chars (mk_scan [Bottom] [] [])
            ("["%char :: inner ++ ["]"%char]))
    with (scan_chars (mk_scan [Open "["%char; Bottom] ["["%char] [])
            (inner ++ ["]"%char])).
  rewrite (scan_chars_app _ _ _ _
             (scan_chars_in_container inner ["["%char] [] "["%char []
                eq_refl H)).
  simpl.
  rewrite (strip_fixed "["%char "]"%char inner eq_refl eq_refl).
  reflexivity.
Qed.

(** ** Header lines *)

Lemma span_all (p : ascii -> bool) (a : str) :
  forallb p a = true -> span p a = (a, []).
Proof.
  induction a as [|c a IH]; simpl; [reflexivity|].
  intros H. apply andb_true_iff in H. destruct H as [Hc Ha].
  rewrite Hc, (IH Ha). reflexivity.
Qed.

Lemma span_stop (p : ascii -> bool) (a : str) (c : ascii) (r : str) :
  forallb p a = true -> p c = false -> span p (a ++ c :: r) = (a, c :: r).
Proof.
  induction a as [|x a IH]; simpl; intros Ha Hc.
  - rewrite Hc. reflexivity.
  - apply andb_true_iff in Ha. destruct Ha as [Hx Ha].
    rewrite Hx, (IH Ha Hc). reflexivity.
Qed.

Lemma span_spec (p : ascii -> bool) (s : str) :
  s = fst (span p s) ++ snd (span p s)
  /\ forallb p (fst (span p s)) = true
  /\ match snd (span p s) with
     | c :: _ => p c = false
     | [] => True
     end.
Proof.
  induction s as [|c s IH]; simpl; [auto|].
  destruct (p c) eqn:E.
  - destruct (span p s) as [a b]. simpl in *.
    destruct IH as [H1 [H2 H3]]. rewrite E. repeat split; auto.
    congruence.
  - simpl. rewrite E. auto.
Qed.

Lemma forallb_repeat (p : ascii -> bool) (c : ascii) (n : nat) :
  p c = true -> forallb p (repeat c n) = true.
Proof. intros H. induction n; simpl; [reflexivity|]. rewrite H. exact IHn. Qed.

Lemma forallb_sp_repeat (a : str) :
  forallb is_sp a = true -> a = repeat SP (length a).
Proof.
  induction a as [|c a IH]; simpl; [reflexivity|].
  intros H. apply andb_true_iff in H. destruct H as [Hc Ha].
  apply ch_eqb_eq in Hc. subst c. f_equal. apply IH. exact Ha.
Qed.

Lemma strip_prefix_app (p r : str) : strip_prefix p (p ++ r) = Some r.
Proof. apply strip_prefix_spec. reflexivity. Qed.

Lemma digits1_spec (s d r : str) :
  digits1 s = Some (d, r) ->
  s = d ++ r /\ is_decimal d = true
  /\ match r with c :: _ => isdigit c = false | [] => True end.
Proof.
  unfold digits1, is_decimal. intros H.
  pose proof (span_spec isdigit s) as [H1 [H2 H3]].
  destruct (span isdigit s) as [a b]. simpl in *.
  destruct a as [|x a]; [discriminate|].
  inversion H; subst. repeat split; auto.
Qed.

Lemma decimal_head (d : str) :
  is_decimal d = true -> exists c d', d = c :: d' /\ isdigit c = true.
Proof.
  unfold is_decimal. destruct d as [|c d']; simpl; [discriminate|].
  intros H. apply andb_true_iff in H. destruct H as [H _].
  exists c, d'. auto.
Qed.

(** The optional underscore before the index. *)
Lemma opt_underscore (u : bool) (index r : str) :
  is_decimal index = true ->
  opt_char "_"%char ((if u then lit "_" else []) ++ index ++ r) = index ++ r.
Proof.
  intros H. destruct u; [reflexivity|].
  destruct (decimal_head _ H) as [c [d' [E Hc]]]. subst index. simpl.
  destruct (ch_eqb c "_"%char) eqn:Ec; [|reflexivity].
  apply ch_eqb_eq in Ec. subst c. discriminate.
Qed.

Lemma span_app (p : ascii -> bool) (a r : str) :
  forallb p a = true -> stops p r -> span p (a ++ r) = (a, r).
Proof.
  intros Ha Hr. destruct r as [|c r].
  - rewrite app_nil_r. apply span_all. exact Ha.
  - apply span_stop; assumption.
Qed.

Lemma digits1_app (d r : str) :
  is_decimal d = true -> stops isdigit r -> digits1 (d ++ r) = Some (d, r).
Proof.
  unfold is_decimal, digits1. intros H Hr.
  apply andb_true_iff in H. destruct H as [Hn Hd].
  rewrite (span_app isdigit d r Hd Hr).
  destruct d; [discriminate|reflexivity].
Qed.

Lemma header_front_line (n1 : nat) (own r : str) :
  is_decimal own = true ->
  header_front (repeat SP n1 ++ lit "_" ++ own ++ lit " = (_" ++ r)
  = Some (own, r).
Proof.
  intros H. unfold header_front.
  rewrite (span_app is_sp (repeat SP n1));
    [|apply forallb_repeat; reflexivity|exact eq_refl].
  cbn [snd]. rewrite strip_prefix_app.
  rewrite (digits1_app own _ H) by exact eq_refl.
  rewrite strip_prefix_app. reflexivity.
Qed.

(** The match of the tail of a header pattern. *)
Lemma header_tail_line (whole own par : str) (u : bool) (index t : str) :
  is_decimal index = true ->
  header_tail whole own par
    (lit ", " ++ (if u then lit "_" else []) ++ index ++ lit ")" ++ t)
  = let rest := opt_char NL (snd (span is_sp t)) in
    Some (mk_hmatch own par index
            (firstn (length whole - length rest) whole) rest).
Proof.
  intros H. unfold header_tail.
  rewrite strip_prefix_app, (opt_underscore u index _ H).
  rewrite (digits1_app index _ H) by exact eq_refl.
  rewrite strip_prefix_app. reflexivity.
Qed.

Lemma header_any_at_line (n1 : nat) (own parent : str) (u : bool)
      (index t : str) :
  is_decimal own = true -> is_decimal parent = true ->
  is_decimal index = true ->
  exists text rest,
    header_any_at (repeat SP n1 ++ header_core own parent u index ++ t)
    = Some (mk_hmatch own parent index text rest).
Proof.
  intros Ho Hp Hi. unfold header_any_at, header_core.
  repeat rewrite <- app_assoc.
  rewrite (header_front_line n1 own _ Ho).
  rewrite (digits1_app parent _ Hp) by exact eq_refl.
  rewrite (header_tail_line _ own parent u index t Hi).
  eexists _, _. reflexivity.
Qed.

Lemma isspace_not_underscore (c : ascii) :
  isspace c = true -> ch_eqb "_"%char c = false.
Proof.
  intros H. apply ch_eqb_neq. intros E. subst c. discriminate.
Qed.

(** Before a header, white space other than spaces spoils the match. *)
Lemma header_front_ws (ws r : str) :
  forallb isspace ws = true ->
  header_front (ws ++ lit "_" ++ r) = None \/ forallb is_sp ws = true.
Proof.
  intros Hws.
  destruct (span_spec is_sp ws) as [E [Ha Hb]].
  destruct (span is_sp ws) as [a b]. simpl in E, Ha, Hb.
  destruct b as [|c b].
  - right. rewrite app_nil_r in E. subst ws. exact Ha.
  - left. unfold header_front. subst ws. rewrite <- app_assoc.
    rewrite (span_app is_sp a) by (assumption || exact Hb).
    cbn [snd app]. rewrite forallb_app in Hws.
    apply andb_true_iff in Hws. destruct Hws as [_ Hc]. simpl in Hc.
    apply andb_true_iff in Hc. destruct Hc as [Hc _].
    unfold lit at 1. cbn [list_ascii_of_string strip_prefix].
    rewrite (isspace_not_underscore c Hc). reflexivity.
Qed.

Lemma re_search_none (pat : str -> option hmatch) (s : str) :
  re_search pat s = None <->
  (forall pre suf, s = pre ++ suf -> pat suf = None).
Proof.
  induction s as [|c s IH].
  - simpl. destruct (pat []) eqn:E; split; try congruence.
    + intros H. specialize (H [] [] eq_refl). congruence.
    + intros _ pre suf H. symmetry in H. apply app_eq_nil in H.
      destruct H; subst. exact E.
  - simpl. destruct (pat (c :: s)) eqn:E.
    + split; [congruence|]. intros H.
      specialize (H [] (c :: s) eq_refl). congruence.
    + destruct (re_search pat s) as [[pre m]|] eqn:Er.
      * split; [congruence|]. intros H.
        assert (Hn : Some (pre, m) = None); [|discriminate].
        apply IH. intros pre' suf Hs.
        apply (H (c :: pre') suf). simpl. congruence.
      * split; [|reflexivity]. intros _ pre' suf Hs.
        destruct pre' as [|x pre']; simpl in Hs.
        -- subst suf. exact E.
        -- inversion Hs; subst. destruct IH as [IH _].
           apply (IH eq_refl pre' suf). reflexivity.
Qed.

Lemma re_search_eq (pat : str -> option hmatch) (s : str) :
  re_search pat s =
  match pat s with
  | Some m => Some ([], m)
  | None =>
      match s with
      | [] => None
      | c :: s' =>
          match re_search pat s' with
          | Some (pre, m) => Some (c :: pre, m)
          | None => None
          end
      end
  end.
Proof. destruct s; reflexivity. Qed.

(** The leftmost match in white space followed by a text at which the
    pattern matches after any number of spaces. *)
Lemma re_search_after_ws (pat : str -> option hmatch) (X : str)
      (Q : hmatch -> Prop) :
  (forall n, exists m, pat (repeat SP n ++ X) = Some m /\ Q m) ->
  (forall ws, forallb isspace ws = true ->
              pat (ws ++ X) = None \/ forallb is_sp ws = true) ->
  forall ws, forallb isspace ws = true ->
             exists pre m, re_search pat (ws ++ X) = Some (pre, m) /\ Q m.
Proof.
  intros Hsp Hws ws. induction ws as [|c ws IH]; intros H.
  - destruct (Hsp 0) as [m [E HQ]]. simpl in E. simpl app.
    rewrite re_search_eq, E. eauto.
  - destruct (Hws _ H) as [Hn|Hs].
    + simpl in H. apply andb_true_iff in H. destruct H as [_ H].
      destruct (IH H) as [pre [m [E HQ]]].
      rewrite re_search_eq, Hn. cbn [app]. cbv iota. rewrite E. eauto.
    + rewrite (forallb_sp_repeat _ Hs).
      destruct (Hsp (length (c :: ws))) as [m [E HQ]].
      rewrite re_search_eq, E. eauto.
Qed.

(** C2: the header line built from a triple of decimal strings, after any
    white space and whatever follows it, parses to the triple; a line in
    which the header pattern matches nowhere parses to [None], and
    [parse_header] returns on every line. *)
Theorem parse_header_roundtrip :
  (forall own parent index ws1 ws2 u,
      is_decimal own = true -> is_decimal parent = true ->
      is_decimal index = true -> forallb isspace ws1 = true ->
      parse_header (ws1 ++ header_core own parent u index ++ ws2)
      = Some (own, parent, index))
  /\ (forall line,
         parse_header line = None <->
         (forall pre suf, line = pre ++ suf -> header_any_at suf = None)).
Proof.
  split.
  - intros own parent index ws1 ws2 u Ho Hp Hi Hws. unfold parse_header.
    destruct (re_search_after_ws header_any_at
                (header_core own parent u index ++ ws2)
                (fun m => (h_own m, h_parent m, h_index m)
                          = (own, parent, index))) with (ws := ws1)
      as [pre [m [E HQ]]].
    + intros n.
      destruct (header_any_at_line n own parent u index ws2 Ho Hp Hi)
        as [text [rest E]].
      eexists. split; [exact E|reflexivity].
    + intros ws H. unfold header_core. repeat rewrite <- app_assoc.
      destruct (header_front_ws ws
                  (own ++ lit " = (_" ++ parent ++ lit ", " ++
                   (if u then lit "_" else []) ++ index ++ lit ")" ++ ws2) H)
        as [Hn|Hs].
      * left. unfold header_any_at. rewrite Hn. reflexivity.
      * right. exact Hs.
    + exact Hws.
    + rewrite E. f_equal. exact HQ.
  - intros line. unfold parse_header.
    rewrite <- re_search_none.
    destruct (re_search header_any_at line) as [[pre m]|];
      split; congruence.
Qed.

Lemma parse_header_roundtrip_witness :
  parse_header ([" "%char; "009"%char; " "%char]
                ++ header_core (lit "12") (lit "3") true (lit "40")
                ++ lit "  ")
  = Some (lit "12", lit "3", lit "40")
  /\ parse_header (lit "ui.text(x)") = None.
Proof.
  destruct parse_header_roundtrip as [Hrt Hnone]. split.
  - apply Hrt; reflexivity.
  - reflexivity.
Defined.

(** ** Texts without a header (C3) *)

(** A text of one line has no children, and [print_nodes] returns at once. *)
Lemma print_nodes_single_line (guard : str -> str) (cfg : config)
      (fuel : nat) (code : str) (extra : Z) (w : wstate) :
  contains [NL] code = false ->
  print_nodes_split code = Ok []
  /\ print_nodes guard cfg (S fuel) code extra w = Ok (tt, w).
Proof.
  unfold contains, print_nodes_split. simpl. unfold print_nodes_body.
  destruct (split1 [NL] code) as [[a b]|]; [discriminate|]. auto.
Qed.

(** A text of several lines whose first line is not a header makes
    [print_nodes] raise: the result of [parse_header] is unpacked unseen. *)
Lemma print_nodes_no_header_raises (guard : str -> str) (cfg : config)
      (fuel : nat) (code first rest : str) (extra : Z) (w : wstate) :
  split1 [NL] code = Some (first, rest) ->
  parse_header first = None ->
  print_nodes_split code = Raise TypeError
  /\ print_nodes guard cfg (S fuel) code extra w = Raise TypeError.
Proof.
  intros Hs Hp. simpl. unfold print_nodes_body, print_nodes_split.
  rewrite Hs, Hp. split; reflexivity.
Qed.

(** C3, the failing input: two lines of plain code, no header anywhere. *)
Theorem print_nodes_headerless_text_raises :
  forall (guard : str -> str) (cfg : config) (fuel : nat) (extra : Z)
         (w : wstate),
    let code := lit "x = 1" ++ [NL] ++ lit "y = 2" in
    (forall pre suf, code = pre ++ suf -> header_any_at suf = None)
    /\ print_nodes_split code = Raise TypeError
    /\ print_nodes guard cfg (S fuel) code extra w = Raise TypeError.
Proof.
  intros guard cfg fuel extra w code. split.
  - apply re_search_none. reflexivity.
  - apply (print_nodes_no_header_raises guard cfg fuel code
             (lit "x = 1") (lit "y = 2")); reflexivity.
Qed.

(** ** Bodies that only look like a conditional or a loop (C4) *)

(** With a second line that is not a header, [print_if] and [print_for]
    are [print_python]. *)
Lemma print_if_for_fallback (guard : str -> str) (cfg : config)
      (rec : str -> Z -> M unit) (header code line1 : str) :
  nth_error (splitlines code) 1 = Some line1 ->
  parse_header line1 = None ->
  print_if cfg rec header code = print_python cfg header code
  /\ print_for cfg rec header code = print_python cfg header code.
Proof.
  intros H1 Hp. unfold print_if, print_for, is_header.
  rewrite H1, Hp. split; reflexivity.
Qed.

(** A body of one line makes them raise: [lines[1]] does not exist. *)
Lemma print_if_for_one_line (cfg : config) (rec : str -> Z -> M unit)
      (header code : str) (w : wstate) :
  length (splitlines code) <= 1 ->
  print_if cfg rec header code w = Raise IndexError
  /\ print_for cfg rec header code w = Raise IndexError.
Proof.
  intros H. unfold print_if, print_for.
  assert (E : nth_error (splitlines code) 1 = None)
    by (apply nth_error_None; exact H).
  rewrite E. split; reflexivity.
Qed.

(** C4, the failing input: the one-line bodies [format(x)] and
    [iffy = 1] are dispatched to [print_for] and [print_if], which raise;
    so does [print_node]. *)
Theorem print_if_for_one_line_raises :
  forall (guard : str -> str) (cfg : config) (rec : str -> Z -> M unit)
         (header : str) (w : wstate),
    select_handler dispatch (lit "format(x)") = Some H_for
    /\ select_handler dispatch (lit "iffy = 1") = Some H_if
    /\ print_for cfg rec header (lit "format(x)") w = Raise IndexError
    /\ print_if cfg rec header (lit "iffy = 1") w = Raise IndexError
    /\ print_node guard cfg rec header (lit "format(x)") w = Raise IndexError
    /\ print_node guard cfg rec header (lit "iffy = 1") w = Raise IndexError.
Proof.
  intros. repeat split; reflexivity.
Qed.

(** ** Indentation depth (C8) *)

Notation "'balanced' m" := (shifts 0 m) (at level 10, m at level 9).

Lemma balanced_spec {A : Type} (m : M A) :
  balanced m <->
  forall w a w', m w = Ok (a, w') -> indent_level w' = indent_level w.
Proof.
  unfold shifts. split; intros H w a w' E; specialize (H w a w' E); lia.
Qed.

Create HintDb balance.

Lemma shifts_bind {A B : Type} (d d1 d2 : Z) (m : M A) (k : A -> M B) :
  shifts d1 m -> (forall a, shifts d2 (k a)) -> d = (d1 + d2)%Z ->
  shifts d (bind m k).
Proof.
  intros Hm Hk Hd w b w' E. unfold bind in E.
  destruct (m w) as [[a w1]|e] eqn:E1; [|discriminate].
  specialize (Hm _ _ _ E1). specialize (Hk a _ _ _ E). lia.
Qed.

Lemma shifts_ret {A : Type} (a : A) : shifts 0 (ret a).
Proof. intros w x w' E. inversion E; subst. lia. Qed.

Lemma shifts_raise {A : Type} (d : Z) (e : exn) : shifts d (@raise A e).
Proof. intros w x w' E. discriminate. Qed.

Lemma shifts_lift {A : Type} (r : result A) : shifts 0 (lift r).
Proof.
  intros w x w' E. unfold lift in E. destruct r; inversion E; subst. lia.
Qed.

Lemma shifts_write (s : str) : shifts 0 (write s).
Proof. intros w x w' E. inversion E; subst. simpl. lia. Qed.

Lemma shifts_indent (cfg : config) : shifts 0 (indent cfg).
Proof.
  intros w x w' E. unfold indent in E.
  destruct (skip_indent_until_write w); inversion E; subst; simpl; lia.
Qed.

Lemma shifts_add_indent (d : Z) : shifts d (add_indent d).
Proof. intros w x w' E. inversion E; subst. reflexivity. Qed.

Lemma shifts_for_each {A : Type} (l : list A) (body : A -> M unit) :
  (forall a, shifts 0 (body a)) -> shifts 0 (for_each l body).
Proof.
  intros H. induction l as [|a l IH]; simpl.
  - apply shifts_ret.
  - eapply shifts_bind; [apply H|intros _; exact IH|reflexivity].
Qed.

(** The depth a method built from the writer's primitives shifts by. *)
Ltac shift :=
  lazymatch goal with
  | |- shifts _ (bind _ _) =>
      eapply shifts_bind;
        [shift|intros ?; shift|first [reflexivity|lia|idtac]]
  | |- shifts _ (ret _) => apply shifts_ret
  | |- shifts _ (raise _) => apply shifts_raise
  | |- shifts _ (lift _) => apply shifts_lift
  | |- shifts _ (write _) => apply shifts_write
  | |- shifts _ (indent _) => apply shifts_indent
  | |- shifts _ (add_indent _) => apply shifts_add_indent
  | |- shifts _ (for_each _ _) => apply shifts_for_each; intros ?; shift
  | |- shifts _ (if ?b then _ else _) => destruct b; shift
  | |- shifts _ (match ?x with Some _ => _ | None => _ end) =>
      destruct x; shift
  | |- shifts _ (match ?x with [] => _ | _ :: _ => _ end) =>
      destruct x; shift
  | |- shifts _ (let (_, _) := ?x in _) => destruct x; shift
  | |- shifts _ (let _ := _ in _) => cbv zeta; shift
  | |- _ => try solve [eauto with balance]
  end.

Lemma balanced_print_python (cfg : config) (header code : str) :
  balanced (print_python cfg header code).
Proof. unfold print_python. shift. Qed.
#[local] Hint Resolve balanced_print_python : balance.

Lemma balanced_print_arguments (guard : str -> str) (cfg : config)
      (args : list str) (kwargs : list (str * str)) (multiline : bool) :
  balanced (print_arguments guard cfg args kwargs multiline).
Proof. unfold print_arguments. shift. Qed.
#[local] Hint Resolve balanced_print_arguments : balance.

Lemma balanced_print_condition (statement line : str) :
  balanced (print_condition statement line).
Proof. unfold print_condition. shift. Qed.
#[local] Hint Resolve balanced_print_condition : balance.

Lemma balanced_print_use (cfg : config) (header code : str) :
  balanced (print_use cfg header code).
Proof. unfold print_use. shift. Qed.
#[local] Hint Resolve balanced_print_use : balance.

Lemma balanced_print_default (cfg : config) (header code : str) :
  balanced (print_default cfg header code).
Proof. unfold print_default. shift. Qed.
#[local] Hint Resolve balanced_print_default : balance.

Lemma balanced_print_hotspot (guard : str -> str) (cfg : config)
      (header code : str) :
  balanced (print_hotspot guard cfg header code).
Proof.
  unfold print_hotspot. shift.
Qed.
#[local] Hint Resolve balanced_print_hotspot : balance.

Section Balance.

Variable guard : str -> str.
Variable cfg : config.
Variable rec : str -> Z -> M unit.
Hypothesis rec_balanced : forall code extra, balanced (rec code extra).
#[local] Hint Resolve rec_balanced : balance.

Lemma balanced_print_block (block : list str) :
  balanced (print_block cfg rec block).
Proof. unfold print_block. shift. Qed.
#[local] Hint Resolve balanced_print_block : balance.

Lemma balanced_print_if_lines (if_indent last i : nat)
      (lines block : list str) :
  balanced (print_if_lines cfg rec if_indent last i lines block).
Proof.
  revert i block. induction lines as [|line lines IH]; intros i block; simpl.
  - apply shifts_ret.
  - shift.
Qed.
#[local] Hint Resolve balanced_print_if_lines : balance.

Lemma balanced_print_if (header code : str) :
  balanced (print_if cfg rec header code).
Proof.
  unfold print_if. shift.
Qed.
#[local] Hint Resolve balanced_print_if : balance.

Lemma balanced_print_for (header code : str) :
  balanced (print_for cfg rec header code).
Proof.
  unfold print_for. shift.
Qed.
#[local] Hint Resolve balanced_print_for : balance.

Lemma balanced_print_ui (header code : str) :
  balanced (print_ui guard cfg rec header code).
Proof.
  unfold print_ui.
  destruct (split1 [NL] code) as [[line block]|]; shift.
Qed.
#[local] Hint Resolve balanced_print_ui : balance.

Lemma balanced_print_node (header code : str) :
  balanced (print_node guard cfg rec header code).
Proof.
  unfold print_node. shift.
  match goal with h : handler |- _ => destruct h end; simpl; shift.
Qed.
#[local] Hint Resolve balanced_print_node : balance.

Lemma balanced_print_nodes_body (code : str) (extra : Z) :
  balanced (print_nodes_body guard cfg rec code extra).
Proof.
  unfold print_nodes_body. shift.
Qed.

End Balance.

(** [print_nodes] is balanced, and with it every method it calls. *)
Lemma balanced_print_nodes (guard : str -> str) (cfg : config) (fuel : nat)
      (code : str) (extra : Z) :
  balanced (print_nodes guard cfg fuel code extra).
Proof.
  revert code extra. induction fuel as [|fuel IH]; intros code extra; simpl.
  - apply shifts_raise.
  - apply balanced_print_nodes_body. exact IH.
Qed.

(** [print_screen] is balanced when it decompiles the code of the screen;
    the early return for [decompile_python = False] skips the decrement of
    its last line and leaves the depth one too high. *)
Lemma print_screen_shifts (guard : str -> str) (paraminfo source : Type)
      (reconstruct : paraminfo -> str) (wc : list (list str) -> str)
      (to_source : source -> str -> str) (cfg : config) (fuel : nat)
      (ast : screen paraminfo source) :
  shifts (if decompile_python cfg then 0 else 1)
         (print_screen guard paraminfo source reconstruct wc to_source cfg fuel ast).
Proof.
  unfold print_screen.
  pose proof (balanced_print_nodes guard cfg fuel) as Hn.
  destruct (decompile_python cfg); simpl negb; cbv iota; shift.
Qed.

(** C8, the failing input: a screen printed with [decompile_python = False]
    returns from [print_screen] with the indentation depth one above the
    depth on entry. *)
Theorem print_screen_early_return_unbalanced :
  forall (guard : str -> str) (paraminfo source : Type)
         (reconstruct : paraminfo -> str) (wc : list (list str) -> str)
         (to_source : source -> str -> str) (fuel : nat) (code : source)
         (w : wstate),
    let cfg := mk_config (lit "    ") true false true false in
    let ast := mk_screen paraminfo source (lit "s") None None None None None
                         code in
    exists w',
      print_screen guard paraminfo source reconstruct wc to_source cfg fuel ast w
      = Ok (tt, w')
      /\ indent_level w' = (indent_level w + 1)%Z.
Proof.
  intros. destruct w as [lvl line skip out]. subst cfg ast.
  destruct skip; eexists; (split; [cbn; reflexivity|reflexivity]).
Qed.

(** ** The escape hatch (C6) *)

Lemma linebreak_isspace (c : ascii) :
  is_linebreak c = true -> isspace c = true.
Proof.
  destruct c as [[] [] [] [] [] [] [] []]; vm_compute; congruence.
Qed.

Lemma lstrip_suffix (s : str) : exists a, s = a ++ lstrip s /\ forallb isspace a = true.
Proof.
  unfold lstrip. destruct (span_spec isspace s) as [H1 [H2 _]].
  exists (fst (span isspace s)). auto.
Qed.

Lemma lstrip_head (s : str) (c : ascii) (r : str) :
  lstrip s = c :: r -> isspace c = false.
Proof.
  unfold lstrip. destruct (span_spec isspace s) as [_ [_ H]].
  intros E. rewrite E in H. exact H.
Qed.

Lemma lstrip_in (c : ascii) (s : str) : In c (lstrip s) -> In c s.
Proof.
  destruct (lstrip_suffix s) as [a [E _]]. intros H. rewrite E.
  apply in_or_app. right. exact H.
Qed.

Lemma strip_in (c : ascii) (s : str) : In c (strip s) -> In c s.
Proof.
  unfold strip, rstrip. intros H. apply lstrip_in in H.
  apply in_rev in H. apply lstrip_in in H. apply in_rev in H. exact H.
Qed.

Lemma lstrip_nil (s : str) : lstrip s = [] -> forallb isspace s = true.
Proof.
  destruct (lstrip_suffix s) as [a [E Ha]]. intros H.
  rewrite H, app_nil_r in E. subst a. exact Ha.
Qed.

Lemma forallb_rev (p : ascii -> bool) (s : str) :
  forallb p (rev s) = forallb p s.
Proof.
  induction s as [|c s IH]; simpl; [reflexivity|].
  rewrite forallb_app, IH. simpl. rewrite andb_true_r. apply andb_comm.
Qed.

Lemma strip_nil (s : str) : strip s = [] -> forallb isspace s = true.
Proof.
  unfold strip, rstrip. intros H. apply lstrip_nil in H.
  rewrite forallb_rev in H.
  destruct (lstrip_suffix (rev s)) as [a [E Ha]].
  rewrite <- (forallb_rev isspace s), E, forallb_app, Ha, H. reflexivity.
Qed.

Lemma nonblank_of_char (c : ascii) (line : str) :
  In c line -> isspace c = false -> nonblank line = true.
Proof.
  intros Hin Hc. unfold nonblank.
  destruct (str_eqb (strip line) []) eqn:E; [|reflexivity].
  apply str_eqb_eq in E. apply strip_nil in E.
  rewrite forallb_forall in E. rewrite (E c Hin) in Hc. discriminate.
Qed.

(** A character that is not white space lies in one of the lines. *)
Lemma splitlines_covers (c : ascii) (s : str) :
  In c s -> isspace c = false ->
  exists line, In line (splitlines s) /\ In c line.
Proof.
  intros Hin Hc. induction s as [|x s IH]; [contradiction|].
  assert (Hx : is_linebreak x = true -> In c s).
  { intros Hb. destruct Hin as [E|Hin]; [|exact Hin].
    subst x. apply linebreak_isspace in Hb. congruence. }
  simpl. destruct (ch_eqb x CR && startswith s [NL]) eqn:E1.
  - apply IH, Hx. apply andb_true_iff in E1. destruct E1 as [E1 _].
    apply ch_eqb_eq in E1. subst x. reflexivity.
  - destruct (is_linebreak x) eqn:E2.
    + destruct (IH (Hx eq_refl)) as [line [Hl Hcl]].
      exists line. split; [right; exact Hl|exact Hcl].
    + destruct Hin as [E|Hin].
      * subst x. destruct (splitlines s) as [|l ls].
        -- exists [c]. split; left; reflexivity.
        -- exists (c :: l). split; left; reflexivity.
      * destruct (IH Hin) as [line [Hl Hcl]].
        destruct (splitlines s) as [|l ls]; [contradiction|].
        destruct Hl as [E|Hl].
        -- subst l. exists (x :: line). split; [left; reflexivity|].
           right. exact Hcl.
        -- exists line. split; [right; exact Hl|exact Hcl].
Qed.

Lemma contains_nonempty (sep s : str) :
  sep <> [] -> contains sep s = true -> s <> [].
Proof.
  intros Hsep H E. subst s. unfold contains in H. simpl in H.
  destruct sep; [congruence|discriminate].
Qed.

(** The generator of [print_python] always finds its line. *)
Lemma first_nonblank_exists (code : str) :
  contains [NL] (strip code) = true ->
  exists first, find nonblank (splitlines code) = Some first.
Proof.
  intros H. apply contains_nonempty in H; [|discriminate].
  destruct (strip code) as [|c r] eqn:E; [congruence|].
  assert (Hc : isspace c = false).
  { unfold strip in E. eapply lstrip_head. exact E. }
  assert (Hin : In c code).
  { apply strip_in. rewrite E. left. reflexivity. }
  destruct (splitlines_covers c code Hin Hc) as [line [Hl Hcl]].
  destruct (find nonblank (splitlines code)) as [f|] eqn:Ef; [eauto|].
  apply (find_none _ _ Ef) in Hl.
  rewrite (nonblank_of_char c line Hcl Hc) in Hl. discriminate.
Qed.

Lemma count_char_app (c : ascii) (a b : str) :
  count_char c (a ++ b) = count_char c a + count_char c b.
Proof. unfold count_char. rewrite filter_app, length_app. reflexivity. Qed.

Lemma wrote_trans (w1 w2 w3 : wstate) (d1 d2 : Z) (t1 t2 : str) :
  wrote w1 w2 d1 t1 -> wrote w2 w3 d2 t2 ->
  wrote w1 w3 (d1 + d2) (t1 ++ t2).
Proof.
  unfold wrote. intros [A1 [A2 A3]] [B1 [B2 B3]].
  rewrite count_char_app, B1, B2, B3, A1, A2, A3, app_assoc.
  repeat split; lia.
Qed.

Lemma write_wrote (s : str) (w : wstate) :
  exists w', write s w = Ok (tt, w') /\ wrote w w' 0 s
             /\ skip_indent_until_write w' = false.
Proof.
  eexists. split; [reflexivity|]. split; [|reflexivity].
  unfold wrote. simpl. repeat split. lia.
Qed.

Lemma indent_wrote (cfg : config) (w : wstate) :
  exists w', indent cfg w = Ok (tt, w') /\ wrote w w' 0 (line_start cfg w)
             /\ skip_indent_until_write w' = skip_indent_until_write w.
Proof.
  unfold indent, line_start. destruct (skip_indent_until_write w) eqn:E.
  - exists w. split; [reflexivity|]. split; [|exact E].
    unfold wrote. simpl. rewrite app_nil_r. repeat split; lia.
  - eexists. split; [reflexivity|]. split; [|reflexivity].
    unfold wrote. simpl. repeat split. lia.
Qed.

(** A line: [indent] and one [write]. *)
Lemma indent_write_wrote (cfg : config) (s : str) (w : wstate) :
  exists w', (indent cfg ;; write s) w = Ok (tt, w')
             /\ wrote w w' 0 (line_start cfg w ++ s)
             /\ skip_indent_until_write w' = false.
Proof.
  destruct (indent_wrote cfg w) as [w1 [E1 [H1 _]]].
  destruct (write_wrote s w1) as [w2 [E2 [H2 S2]]].
  exists w2. unfold bind. rewrite E1. split; [exact E2|].
  split; [|exact S2]. apply (wrote_trans _ _ _ 0 0 _ _ H1 H2).
Qed.

(** The loop of [print_python] over the lines. *)
Lemma print_python_lines (cfg : config) (k : nat) (lines : list str)
      (w : wstate) :
  skip_indent_until_write w = false ->
  exists w',
    for_each lines (fun l => indent cfg ;; write (slice_from k l)) w
    = Ok (tt, w')
    /\ wrote w w' 0
         (concat (map (fun l =>
            NL :: repeat_str (indentation cfg) (Z.to_nat (indent_level w))
               ++ skipn k l) lines))
    /\ skip_indent_until_write w' = false.
Proof.
  revert w. induction lines as [|l lines IH]; intros w Hs.
  - exists w. split; [reflexivity|]. split; [|exact Hs].
    unfold wrote. simpl. rewrite app_nil_r. repeat split; lia.
  - destruct (indent_write_wrote cfg (slice_from k l) w) as [w1 [E1 [H1 S1]]].
    destruct (IH w1 S1) as [w2 [E2 [H2 S2]]].
    exists w2. simpl for_each. unfold bind at 1. rewrite E1.
    split; [exact E2|]. split; [|exact S2].
    assert (El : indent_level w1 = indent_level w)
      by (destruct H1 as [A _]; lia).
    rewrite El in H2. unfold line_start in H1. rewrite Hs in H1.
    simpl concat. unfold slice_from in H1.
    apply (wrote_trans _ _ _ 0 0 _ _ H1 H2).
Qed.

Lemma indent_width_span (line : str) :
  indent_width line = length (fst (span isspace line)).
Proof.
  unfold indent_width, lstrip.
  destruct (span_spec isspace line) as [H _].
  apply (f_equal (@length ascii)) in H. rewrite length_app in H. lia.
Qed.

Lemma span_skipn (k : nat) (line : str) :
  k <= length (fst (span isspace line)) ->
  span isspace (skipn k line)
  = (skipn k (fst (span isspace line)), snd (span isspace line)).
Proof.
  revert k. induction line as [|c l IH]; intros k Hk.
  - rewrite skipn_nil. simpl. rewrite skipn_nil. reflexivity.
  - destruct k as [|k].
    + change (skipn 0 ?x) with x. apply surjective_pairing.
    + change (skipn (S k) (c :: l)) with (skipn k l).
      simpl span in *. destruct (isspace c) eqn:Ec.
      * destruct (span isspace l) as [a b] eqn:Es. simpl in *.
        apply IH. lia.
      * simpl in Hk. lia.
Qed.

(** Within the indentation of a line, dropping [k] characters drops [k]
    columns of indentation and nothing else. *)
Lemma skipn_within_indent (k : nat) (line : str) :
  k <= indent_width line ->
  lstrip (skipn k line) = lstrip line
  /\ indent_width (skipn k line) = indent_width line - k.
Proof.
  rewrite !indent_width_span. intros Hk. unfold lstrip.
  rewrite (span_skipn k line Hk). simpl. split; [reflexivity|].
  apply length_skipn.
Qed.

Lemma fold_min_le (l : list nat) (a : nat) :
  (forall x, In x l -> a <= x) -> fold_left Nat.min l a = a.
Proof.
  revert a. induction l as [|x l IH]; intros a H; simpl; [reflexivity|].
  rewrite Nat.min_l by (apply H; left; reflexivity).
  apply IH. intros y Hy. apply H. right. exact Hy.
Qed.

Lemma find_filter_head (f : str -> bool) (l : list str) (x : str) :
  find f l = Some x -> exists r, filter f l = x :: r /\ incl r l.
Proof.
  induction l as [|y l IH]; simpl; [discriminate|].
  destruct (f y) eqn:E.
  - intros H. inversion H; subst. exists (filter f l). split; [reflexivity|].
    intros z Hz. apply filter_In in Hz. right. tauto.
  - intros H. destruct (IH H) as [r [Hr Hi]]. exists r.
    split; [exact Hr|]. intros z Hz. right. apply Hi. exact Hz.
Qed.

(** The indentation of the first line that is not blank is the least one
    when no other such line is indented less. *)
Lemma min_indent_first (lines : list str) (first : str) :
  find nonblank lines = Some first ->
  (forall l, In l lines -> nonblank l = true ->
             indent_width first <= indent_width l) ->
  min_indent lines = indent_width first.
Proof.
  intros Hf Hmin. unfold min_indent.
  destruct (find_filter_head nonblank lines first Hf) as [r [Hr Hi]].
  rewrite Hr. apply fold_min_le. intros x Hx.
  apply in_map_iff in Hx. destruct Hx as [l [E Hl]]. subst x.
  assert (Hl' : In l (filter nonblank lines)) by (rewrite Hr; right; exact Hl).
  apply filter_In in Hl'. destruct Hl' as [Hl1 Hl2]. apply Hmin; assumption.
Qed.

(** C6, the claim as stated fails: for a body whose first line is indented
    more than a later one, the lines are cut at the indentation of the
    first line, not at the least indentation of the block. *)
Lemma print_python_min_indent_counterexample :
  ~ (forall cfg header code w w',
        contains [NL] (strip code) = true ->
        print_python cfg header code w = Ok (tt, w') ->
        out_file w' =
        out_file w ++ line_start cfg w
        ++ python_block cfg (indent_level w)
             (map (skipn (min_indent (splitlines code))) (splitlines code))).
Proof.
  intros H.
  specialize (H (mk_config (lit "    ") true true true false) []
                (lit "    a = 1" ++ [NL] ++ lit "b = 2")
                (mk_wstate 0 1 false []) _ eq_refl eq_refl).
  vm_compute in H. discriminate.
Qed.

(** C6, amended: a body of one line (once stripped) is written as one
    [$] line; a longer body is written as a [python:] block in which every
    line has lost as many leading characters as the first line that is not
    blank has indentation.  When no line that is not blank is indented
    less than that one, this is the least indentation of the block, and
    every line indented that much or more keeps its text and its
    indentation relative to the others. *)
Theorem print_python_spec (cfg : config) (header code : str) (w : wstate) :
  (contains [NL] (strip code) = false ->
   exists w',
     print_python cfg header code w = Ok (tt, w')
     /\ wrote w w' 0 (line_start cfg w ++ lit "$ " ++ strip code))
  /\ (contains [NL] (strip code) = true ->
      exists first w',
        find nonblank (splitlines code) = Some first
        /\ print_python cfg header code w = Ok (tt, w')
        /\ wrote w w' 0
             (line_start cfg w
              ++ python_block cfg (indent_level w)
                   (map (skipn (indent_width first)) (splitlines code)))
        /\ ((forall l, In l (splitlines code) -> nonblank l = true ->
                       indent_width first <= indent_width l) ->
            min_indent (splitlines code) = indent_width first)
        /\ (forall l, In l (splitlines code) ->
                      indent_width first <= indent_width l ->
                      lstrip (skipn (indent_width first) l) = lstrip l
                      /\ indent_width (skipn (indent_width first) l)
                         = indent_width l - indent_width first)).
Proof.
  split; intros Hc.
  - unfold print_python.
    destruct (indent_write_wrote cfg (lit "$ " ++ strip code) w)
      as [w' [E [H _]]].
    exists w'. split; [|exact H].
    unfold bind in *. destruct (indent cfg w) as [[u w1]|e]; [|discriminate].
    rewrite Hc. exact E.
  - destruct (first_nonblank_exists code Hc) as [first Hf].
    destruct (indent_write_wrote cfg (lit "python:") w) as [w1 [E1 [H1 S1]]].
    pose (w2 := mk_wstate (indent_level w1 + 1) (linenumber w1)
                          (skip_indent_until_write w1) (out_file w1)).
    destruct (print_python_lines cfg (indent_width first) (splitlines code)
                w2 S1) as [w3 [E3 [H3 S3]]].
    exists first. eexists. split; [exact Hf|]. split; [|split; [|split]].
    + unfold print_python. unfold bind in *.
      destruct (indent cfg w) as [[u w0]|e]; [|discriminate].
      rewrite Hc. fold nonblank. rewrite Hf.
      fold (indent_width first). rewrite E1.
      unfold add_indent at 1. fold w2. rewrite E3. reflexivity.
    + destruct H1 as [A1 [A2 A3]]. destruct H3 as [B1 [B2 B3]].
      assert (L1 : indent_level w1 = indent_level w) by lia.
      unfold w2 in B1, B2, B3.
      cbn [indent_level linenumber out_file] in B1, B2, B3.
      rewrite L1 in B1, B2, B3.
      unfold wrote, python_block.
      cbn [indent_level linenumber out_file]. rewrite map_map.
      split; [lia|]. split.
      * rewrite B2, A2. rewrite !count_char_app. lia.
      * rewrite B3, A3. rewrite <- !app_assoc. reflexivity.
    + apply min_indent_first. exact Hf.
    + intros l _ Hl. apply skipn_within_indent. exact Hl.
Qed.

Lemma print_python_spec_witness :
  (exists w',
      print_python (mk_config (lit "  ") true true true false) []
                   (lit " x = 1 ") (mk_wstate 1 1 false [])
      = Ok (tt, w')
      /\ out_file w' = [NL] ++ lit "  $ x = 1")
  /\ (exists w',
         print_python (mk_config (lit "  ") true true true false) []
                      (lit " if a:" ++ [NL] ++ lit "   b = 2")
                      (mk_wstate 0 1 false [])
         = Ok (tt, w')
         /\ out_file w' = [NL] ++ lit "python:" ++ [NL] ++ lit "  if a:"
                          ++ [NL] ++ lit "    b = 2").
Proof.
  split.
  - destruct (print_python_spec (mk_config (lit "  ") true true true false)
                [] (lit " x = 1 ") (mk_wstate 1 1 false [])) as [H _].
    destruct (H eq_refl) as [w' [E [_ [_ Ho]]]].
    exists w'. split; [exact E|exact Ho].
  - destruct (print_python_spec (mk_config (lit "  ") true true true false)
                [] (lit " if a:" ++ [NL] ++ lit "   b = 2")
                (mk_wstate 0 1 false [])) as [_ H].
    destruct (H eq_refl) as [first [w' [Hf [E [[_ [_ Ho]] _]]]]].
    exists w'. split; [exact E|].
    inversion Hf; subst first. exact Ho.
Defined.

(** ** The use statement (C9) *)

Lemma use_kwargs_spec (kwargs : list (str * str)) (k v : str) :
  In (k, v) (use_kwargs kwargs) <->
  In (k, v) kwargs /\ k <> lit "_scope" /\ k <> lit "_name".
Proof.
  unfold use_kwargs. rewrite filter_In. simpl.
  rewrite negb_true_iff, orb_false_iff.
  split; intros [H1 [H2 H3]]; (split; [exact H1|]); split.
  - intros E. apply str_eqb_eq in E. congruence.
  - intros E. apply str_eqb_eq in E. congruence.
  - destruct (str_eqb k (lit "_scope")) eqn:E; [|reflexivity].
    apply str_eqb_eq in E. contradiction.
  - destruct (str_eqb k (lit "_name")) eqn:E; [|reflexivity].
    apply str_eqb_eq in E. contradiction.
Qed.

(** [s[2:-1]] of a unicode literal is the text between its quotes. *)
Lemma unquote_unicode_literal (q : ascii) (name : str) :
  slice_from_to_last 2 ("u"%char :: q :: name ++ [q]) = name.
Proof.
  unfold slice_from_to_last.
  change ("u"%char :: q :: name ++ [q]) with (("u"%char :: q :: name) ++ [q]).
  rewrite removelast_last. reflexivity.
Qed.

(** C9: for a use statement, that is a call whose first positional
    argument is the unicode literal of the screen name (a [u], a quote,
    the name and the quote, as the code generator renders it) and whose
    variadic arguments, if any, have an expression after their stars,
    [print_use] writes [use] and the name without its quoting; it drops
    the keyword arguments [_scope] and [_name] and no other; and it writes
    the arguments that remain between parentheses, separated by commas,
    exactly when one remains: a positional argument, a keyword argument
    kept, or a variadic argument. *)
Theorem print_use_spec (cfg : config) (header code : str) (a : argtuple)
        (q : ascii) (name : str) (args : list str) (w : wstate) :
  parse_args (strip code) = Ok a ->
  is_quote q = true ->
  a_args a = ("u"%char :: q :: name ++ [q]) :: args ->
  a_exargs a <> Some [] -> a_exkwargs a <> Some [] ->
  let kwargs := use_kwargs (a_kwargs a) in
  let remaining := use_remaining args kwargs (a_exargs a) (a_exkwargs a) in
  (forall k v, In (k, v) kwargs <->
               In (k, v) (a_kwargs a)
               /\ k <> lit "_scope" /\ k <> lit "_name")
  /\ exists w',
      print_use cfg header code w = Ok (tt, w')
      /\ wrote w w' 0
           (line_start cfg w ++ lit "use " ++ name
            ++ match remaining with
               | [] => []
               | _ :: _ => lit "(" ++ join (lit ", ") remaining ++ lit ")"
               end).
Proof.
  intros Hp Hq Ha Hx Hk kwargs remaining.
  split; [intros k v; apply use_kwargs_spec|].
  assert (Hrem : remaining
                 = use_arglist args kwargs (a_exargs a) (a_exkwargs a)).
  { subst remaining. unfold use_remaining, use_arglist.
    destruct (a_exargs a) as [[|c r]|];
      [exfalso; apply Hx; reflexivity| |];
      (destruct (a_exkwargs a) as [[|c' r']|];
       [exfalso; apply Hk; reflexivity|reflexivity|reflexivity]). }
  assert (Hne : nonempty args || nonempty kwargs || truthy (a_exargs a)
                || truthy (a_exkwargs a) = nonempty remaining).
  { subst remaining. unfold use_remaining.
    destruct args as [|x args']; [|reflexivity].
    destruct kwargs as [|y kw]; [|reflexivity].
    destruct (a_exargs a) as [[|c r]|];
      [exfalso; apply Hx; reflexivity|reflexivity|].
    destruct (a_exkwargs a) as [[|c' r']|];
      [exfalso; apply Hk; reflexivity|reflexivity|reflexivity]. }
  unfold print_use. unfold bind at 1. unfold lift. rewrite Hp.
  fold kwargs. rewrite Ha. rewrite unquote_unicode_literal.
  destruct (indent_write_wrote cfg (lit "use " ++ name) w)
    as [w1 [E1 [H1 S1]]].
  unfold bind in E1. unfold bind at 1.
  destruct (indent cfg w) as [[u w0]|e]; [|discriminate].
  unfold bind at 1. rewrite E1. rewrite Hne, <- Hrem.
  destruct remaining as [|r0 rs].
  - exists w1. split; [reflexivity|]. rewrite app_nil_r. exact H1.
  - cbn [nonempty].
    destruct (write_wrote (lit "(") w1) as [w2 [E2 [H2 _]]].
    destruct (write_wrote (join (lit ", ") (r0 :: rs)) w2)
      as [w3 [E3 [H3 _]]].
    destruct (write_wrote (lit ")") w3) as [w4 [E4 [H4 _]]].
    exists w4. unfold bind. rewrite E2, E3. split; [exact E4|].
    pose proof (wrote_trans _ _ _ _ _ _ _ H1
                  (wrote_trans _ _ _ _ _ _ _ H2
                     (wrote_trans _ _ _ _ _ _ _ H3 H4))) as H.
    simpl Z.add in H. repeat rewrite <- app_assoc in H. exact H.
Qed.

Lemma print_use_spec_witness :
  (exists w',
      print_use (mk_config (lit "    ") true true true false) []
        (lit "renpy.use_screen(u'foo', 1, x=2, _name=_7, _scope=_scope, *a, **k)")
        (mk_wstate 1 1 false [])
      = Ok (tt, w')
      /\ out_file w' = [NL] ++ lit "    use foo(1, x=2, *a, **k)")
  /\ (exists w',
         print_use (mk_config (lit "    ") true true true false) []
           (lit "renpy.use_screen(u'foo', _name=_7, _scope=_scope)")
           (mk_wstate 1 1 false [])
         = Ok (tt, w')
         /\ out_file w' = [NL] ++ lit "    use foo").
Proof.
  split.
  - destruct (print_use_spec (mk_config (lit "    ") true true true false)
                []
                (lit "renpy.use_screen(u'foo', 1, x=2, _name=_7, _scope=_scope, *a, **k)")
                (mk_args [lit "u'foo'"; lit "1"]
                         [(lit "x", lit "2"); (lit "_name", lit "_7");
                          (lit "_scope", lit "_scope")]
                         (Some (lit "a")) (Some (lit "k")))
                SQ (lit "foo") [lit "1"] (mk_wstate 1 1 false [])
                eq_refl eq_refl eq_refl ltac:(discriminate)
                ltac:(discriminate)) as [_ [w' [E [_ [_ Ho]]]]].
    exists w'. split; [exact E|exact Ho].
  - destruct (print_use_spec (mk_config (lit "    ") true true true false)
                []
                (lit "renpy.use_screen(u'foo', _name=_7, _scope=_scope)")
                (mk_args [lit "u'foo'"]
                         [(lit "_name", lit "_7");
                          (lit "_scope", lit "_scope")] None None)
                SQ (lit "foo") [] (mk_wstate 1 1 false [])
                eq_refl eq_refl eq_refl ltac:(discriminate)
                ltac:(discriminate)) as [_ [w' [E [_ [_ Ho]]]]].
    exists w'. split; [exact E|exact Ho].
Defined.

(** ** Matches of the header pattern *)

Lemma firstn_suffix (x r : str) :
  firstn (length (x ++ r) - length r) (x ++ r) = x.
Proof.
  rewrite length_app. replace (length x + length r - length r) with (length x) by lia.
  rewrite firstn_app, Nat.sub_diag, firstn_all. simpl. apply app_nil_r.
Qed.

Lemma opt_char_spec (c : ascii) (s : str) :
  exists u : bool, s = (if u then [c] else []) ++ opt_char c s.
Proof.
  destruct s as [|x s]; simpl.
  - exists false. reflexivity.
  - destruct (ch_eqb x c) eqn:E.
    + apply ch_eqb_eq in E. subst x. exists true. reflexivity.
    + exists false. reflexivity.
Qed.

Lemma opt_char_cases (c : ascii) (s : str) :
  (exists r, s = c :: r /\ opt_char c s = r)
  \/ (opt_char c s = s /\ forall r, s <> c :: r).
Proof.
  destruct s as [|x s]; simpl.
  - right. split; [reflexivity|]. intros r. discriminate.
  - destruct (ch_eqb x c) eqn:E.
    + apply ch_eqb_eq in E. subst x. left. eauto.
    + right. split; [reflexivity|]. intros r H. inversion H; subst.
      rewrite ch_eqb_refl in E. discriminate.
Qed.

Lemma header_front_sound (s own r : str) :
  header_front s = Some (own, r) ->
  exists n1, s = repeat SP n1 ++ lit "_" ++ own ++ lit " = (_" ++ r
             /\ is_decimal own = true.
Proof.
  unfold header_front. intros H.
  destruct (span_spec is_sp s) as [Es [Ha _]].
  destruct (strip_prefix (lit "_") (snd (span is_sp s))) as [s1|] eqn:E1;
    [|discriminate].
  apply strip_prefix_spec in E1.
  destruct (digits1 s1) as [[d s2]|] eqn:E2; [|discriminate].
  apply digits1_spec in E2. destruct E2 as [E2 [Hd _]].
  destruct (strip_prefix (lit " = (_") s2) as [s3|] eqn:E3; [|discriminate].
  apply strip_prefix_spec in E3. inversion H; subst d s3.
  exists (length (fst (span is_sp s))). split; [|exact Hd].
  rewrite <- (forallb_sp_repeat _ Ha). rewrite Es at 1.
  rewrite E1, E2, E3. reflexivity.
Qed.

(** What a match of the tail of a header pattern consumed: the text of the
    match ends where the rest begins. *)
Lemma header_tail_sound (x own par s : str) (m : hmatch) :
  header_tail (x ++ s) own par s = Some m ->
  exists (u : bool) (n2 : nat) (nl : bool),
    is_decimal (h_index m) = true
    /\ h_own m = own /\ h_parent m = par
    /\ h_text m = x ++ lit ", " ++ (if u then lit "_" else []) ++ h_index m
                    ++ lit ")" ++ repeat SP n2 ++ (if nl then [NL] else [])
    /\ x ++ s = h_text m ++ h_rest m.
Proof.
  unfold header_tail. intros H.
  destruct (strip_prefix (lit ", ") s) as [s1|] eqn:E1; [|discriminate].
  apply strip_prefix_spec in E1.
  destruct (digits1 (opt_char "_"%char s1)) as [[idx s2]|] eqn:E2;
    [|discriminate].
  apply digits1_spec in E2. destruct E2 as [E2 [Hd _]].
  destruct (strip_prefix (lit ")") s2) as [s3|] eqn:E3; [|discriminate].
  apply strip_prefix_spec in E3.
  destruct (span_spec is_sp s3) as [Es [Ha _]].
  destruct (opt_char_spec "_"%char s1) as [u Eu].
  destruct (opt_char_spec NL (snd (span is_sp s3))) as [nl En].
  inversion H; subst m; clear H. simpl.
  exists u, (length (fst (span is_sp s3))), nl.
  rewrite <- (forallb_sp_repeat _ Ha).
  set (rest := opt_char NL (snd (span is_sp s3))) in *.
  assert (Ewhole : x ++ s =
            (x ++ lit ", " ++ (if u then lit "_" else []) ++ idx ++ lit ")"
               ++ fst (span is_sp s3) ++ (if nl then [NL] else [])) ++ rest).
  { rewrite E1, Eu, E2, E3. rewrite Es at 1. rewrite En.
    destruct u; destruct nl; repeat rewrite <- app_assoc; reflexivity. }
  assert (Etext : firstn (length (x ++ s) - length rest) (x ++ s) =
            x ++ lit ", " ++ (if u then lit "_" else []) ++ idx ++ lit ")"
               ++ fst (span is_sp s3) ++ (if nl then [NL] else [])).
  { rewrite Ewhole. apply firstn_suffix. }
  repeat split; try assumption. rewrite Etext. exact Ewhole.
Qed.

(** A match of the pattern of [print_nodes] is a header line for the
    parent [P], and the text splits into the match and the rest. *)
Lemma header_of_at_sound (P s : str) (m : hmatch) :
  header_of_at P s = Some m ->
  exists (n1 : nat) (u : bool) (n2 : nat) (nl : bool),
    is_decimal (h_own m) = true /\ is_decimal (h_index m) = true
    /\ h_parent m = P
    /\ h_text m = header_line n1 (h_own m) P u (h_index m) n2 nl
    /\ s = h_text m ++ h_rest m.
Proof.
  unfold header_of_at. intros H.
  destruct (header_front s) as [[own s3]|] eqn:E1; [|discriminate].
  apply header_front_sound in E1. destruct E1 as [n1 [E1 Ho]].
  destruct (strip_prefix P s3) as [s4|] eqn:E2; [|discriminate].
  apply strip_prefix_spec in E2.
  assert (Es : s = (repeat SP n1 ++ lit "_" ++ own ++ lit " = (_" ++ P) ++ s4).
  { rewrite E1, E2. repeat rewrite <- app_assoc. reflexivity. }
  rewrite Es in H. apply header_tail_sound in H.
  destruct H as [u [n2 [nl [Hi [Hown [Hpar [Ht Hw]]]]]]].
  exists n1, u, n2, nl. rewrite Hown. repeat split; try assumption.
  - rewrite Ht. unfold header_line, header_core.
    repeat rewrite <- app_assoc. reflexivity.
  - rewrite Es. exact Hw.
Qed.

Lemma header_line_nonempty (n1 : nat) (own P : str) (u : bool) (idx : str)
      (n2 : nat) (nl : bool) :
  header_line n1 own P u idx n2 nl <> [].
Proof.
  unfold header_line, header_core. intros H.
  apply app_eq_nil in H. destruct H as [_ H]. discriminate.
Qed.

Lemma header_of_at_shorter (P s : str) (m : hmatch) :
  header_of_at P s = Some m -> length (h_rest m) < length s.
Proof.
  intros H. apply header_of_at_sound in H.
  destruct H as [n1 [u [n2 [nl [_ [_ [_ [Ht Hs]]]]]]]].
  rewrite Hs, length_app.
  pose proof (header_line_nonempty n1 (h_own m) P u (h_index m) n2 nl) as Hn.
  rewrite <- Ht in Hn. destruct (h_text m); [congruence|simpl; lia].
Qed.

(** ** The pieces of [re.split] *)

Lemma header_of_at_is_sound (P : str) : sound (header_of_at P).
Proof.
  intros s m H. apply header_of_at_sound in H.
  destruct H as [n1 [u [n2 [nl [_ [_ [_ [_ H]]]]]]]]. exact H.
Qed.

Lemma re_search_sound (pat : str -> option hmatch) (s pre : str)
      (m : hmatch) :
  sound pat -> re_search pat s = Some (pre, m) ->
  s = pre ++ h_text m ++ h_rest m
  /\ pat (h_text m ++ h_rest m) = Some m.
Proof.
  intros Hp. revert pre. induction s as [|c s IH]; intros pre H;
    rewrite re_search_eq in H.
  - destruct (pat []) as [m'|] eqn:E; [|discriminate].
    inversion H; subst. rewrite <- (Hp _ _ E). auto.
  - destruct (pat (c :: s)) as [m'|] eqn:E.
    + inversion H; subst. rewrite <- (Hp _ _ E). auto.
    + destruct (re_search pat s) as [[pre' m']|]; [|discriminate].
      inversion H; subst. destruct (IH pre' eq_refl) as [H1 H2].
      split; [simpl; congruence|exact H2].
Qed.

Lemma re_split_nonempty (pat : str -> option hmatch) (n : nat) (s : str) :
  re_split_fuel n pat s <> [].
Proof.
  destruct n; simpl; [discriminate|].
  destruct (re_search pat s) as [[pre m]|]; discriminate.
Qed.

(** The text is its first piece followed by the statement records. *)
Lemma re_split_pieces (pat : str -> option hmatch) (n : nat) (s : str) :
  sound pat ->
  s = hd [] (re_split_fuel n pat s)
      ++ concat (map (fun hc => fst hc ++ snd hc)
                     (pair_up (tl (re_split_fuel n pat s)))).
Proof.
  intros Hp. revert s. induction n as [|n IH]; intros s; simpl.
  - rewrite app_nil_r. reflexivity.
  - destruct (re_search pat s) as [[pre m]|] eqn:E; simpl.
    + destruct (re_search_sound pat s pre m Hp E) as [H _].
      specialize (IH (h_rest m)).
      destruct (re_split_fuel n pat (h_rest m)) as [|b R] eqn:ER;
        [exfalso; exact (re_split_nonempty pat n _ ER)|].
      simpl in *. rewrite <- app_assoc, <- IH. exact H.
    + rewrite app_nil_r. reflexivity.
Qed.

(** Every statement record is a slice of the text. *)
Lemma re_split_slices (pat : str -> option hmatch) (n : nat) (s h c : str) :
  sound pat ->
  In (h, c) (pair_up (tl (re_split_fuel n pat s))) ->
  exists pre post, s = pre ++ h ++ c ++ post.
Proof.
  intros Hp. revert s. induction n as [|n IH]; intros s; simpl.
  - contradiction.
  - destruct (re_search pat s) as [[pre m]|] eqn:E; simpl; [|contradiction].
    destruct (re_search_sound pat s pre m Hp E) as [H _].
    pose proof (re_split_pieces pat n (h_rest m) Hp) as Hr.
    specialize (IH (h_rest m)).
    destruct (re_split_fuel n pat (h_rest m)) as [|b R]; simpl in *;
      [contradiction|].
    intros [Hin|Hin].
    + inversion Hin; subst h c. exists pre. eexists.
      rewrite H at 1. rewrite Hr at 1. reflexivity.
    + destruct (IH Hin) as [pre' [post' E']].
      exists (pre ++ h_text m ++ pre'), post'.
      rewrite H at 1. rewrite E' at 1.
      repeat rewrite <- app_assoc. reflexivity.
Qed.

(** The rounds of [re_split] suffice: with as many rounds as the text has
    characters or more, the pieces are the same. *)
Lemma re_split_fuel_enough (P : str) (n n' : nat) (s : str) :
  length s <= n -> length s <= n' ->
  re_split_fuel n (header_of_at P) s = re_split_fuel n' (header_of_at P) s.
Proof.
  revert n' s. induction n as [|n IH]; intros n' s Hn Hn'.
  - destruct s; [|simpl in Hn; lia].
    destruct n'; [reflexivity|]. simpl.
    destruct (header_of_at P []) as [m|] eqn:E; [|reflexivity].
    apply header_of_at_shorter in E. simpl in E. lia.
  - destruct n' as [|n'].
    + destruct s; [|simpl in Hn'; lia]. simpl.
      destruct (header_of_at P []) as [m|] eqn:E; [|reflexivity].
      apply header_of_at_shorter in E. simpl in E. lia.
    + simpl. destruct (re_search (header_of_at P) s) as [[pre m]|] eqn:E;
        [|reflexivity].
      destruct (re_search_sound _ _ _ _ (header_of_at_is_sound P) E)
        as [Hs Hm].
      apply header_of_at_shorter in Hm.
      assert (Hl : length (h_rest m) < length s).
      { apply (f_equal (@length ascii)) in Hs.
        rewrite !length_app in Hs. rewrite length_app in Hm. lia. }
      f_equal. f_equal. apply IH; lia.
Qed.

(** ** Lines of a text *)

Lemma splitlines_nonempty (s : str) : s <> [] -> splitlines s <> [].
Proof.
  induction s as [|c s IH]; [congruence|]. intros _. simpl.
  destruct (ch_eqb c CR && startswith s [NL]) eqn:E.
  - apply IH. apply andb_true_iff in E. destruct E as [_ E].
    destruct s; [discriminate|discriminate].
  - destruct (is_linebreak c); [discriminate|].
    destruct (splitlines s); discriminate.
Qed.

Lemma startswith_app_nl (x y : str) :
  startswith (x ++ NL :: y) [NL] = startswith (x ++ [NL]) [NL].
Proof. destruct x as [|c x]; simpl; [reflexivity|]. unfold startswith. simpl.
  destruct (ch_eqb NL c); reflexivity.
Qed.

(** A line feed ends the line it closes, whatever follows. *)
Lemma splitlines_app_nl (x y : str) :
  splitlines (x ++ NL :: y) = splitlines (x ++ [NL]) ++ splitlines y.
Proof.
  induction x as [|c x IH].
  - reflexivity.
  - simpl. rewrite startswith_app_nl.
    destruct (ch_eqb c CR && startswith (x ++ [NL]) [NL]); [exact IH|].
    destruct (is_linebreak c); [rewrite IH; reflexivity|].
    rewrite IH.
    destruct (splitlines (x ++ [NL])) as [|l ls] eqn:E; [|reflexivity].
    exfalso. apply (splitlines_nonempty (x ++ [NL])); [|exact E].
    destruct x; discriminate.
Qed.

Lemma no_break_not_cr (c : ascii) :
  is_linebreak c = false -> ch_eqb c CR = false.
Proof.
  intros H. apply ch_eqb_neq. intros E. subst c. discriminate.
Qed.

Lemma splitlines_line_nl (l : str) :
  no_break l = true -> splitlines (l ++ [NL]) = [l].
Proof.
  induction l as [|c l IH]; [reflexivity|].
  unfold no_break. simpl. intros H. apply andb_true_iff in H.
  destruct H as [Hc Hl]. apply negb_true_iff in Hc.
  rewrite (no_break_not_cr c Hc), Hc. simpl. rewrite (IH Hl). reflexivity.
Qed.

Lemma splitlines_line (l : str) :
  no_break l = true ->
  splitlines l = match l with [] => [] | _ :: _ => [l] end.
Proof.
  induction l as [|c l IH]; [reflexivity|].
  unfold no_break. simpl. intros H. apply andb_true_iff in H.
  destruct H as [Hc Hl]. apply negb_true_iff in Hc.
  rewrite (no_break_not_cr c Hc), Hc. simpl. rewrite (IH Hl).
  destruct l; reflexivity.
Qed.

(** The lines of [splitlines] hold no line boundary. *)
Lemma splitlines_no_break (s l : str) :
  In l (splitlines s) -> no_break l = true.
Proof.
  revert l. induction s as [|c s IH]; intros l; simpl; [contradiction|].
  destruct (ch_eqb c CR && startswith s [NL]); [apply IH|].
  destruct (is_linebreak c) eqn:Ec.
  - intros [E|H]; [subst l; reflexivity|apply IH; exact H].
  - destruct (splitlines s) as [|l' ls].
    + intros [E|[]]. subst l. unfold no_break. simpl. rewrite Ec. reflexivity.
    + intros [E|H].
      * subst l. unfold no_break. simpl. rewrite Ec. simpl.
        apply (IH l'). left. reflexivity.
      * apply IH. right. exact H.
Qed.

(** Joining lines with line feeds and splitting again gives no new line. *)
Lemma splitlines_join (ls : list str) :
  (forall l, In l ls -> no_break l = true) ->
  incl (splitlines (join [NL] ls)) ls.
Proof.
  induction ls as [|l ls IH]; intros H.
  - intros x Hx. exact Hx.
  - destruct ls as [|l2 ls].
    + simpl. rewrite (splitlines_line l (H l (or_introl eq_refl))).
      destruct l; intros x Hx; [destruct Hx|exact Hx].
    + change (join [NL] (l :: l2 :: ls))
        with (l ++ NL :: join [NL] (l2 :: ls)).
      rewrite (splitlines_app_nl l (join [NL] (l2 :: ls))).
      rewrite (splitlines_line_nl l (H l (or_introl eq_refl))).
      intros x [Hx|Hx]; [left; exact Hx|right].
      apply IH; [|exact Hx]. intros y Hy. apply H. right. exact Hy.
Qed.

(** The lines of a slice that starts after a line feed (or at the start)
    and ends with one (or at the end) are lines of the text. *)
Lemma aligned_slice_lines (pre b post : str) :
  pre = [] \/ ends_nl pre ->
  post = [] \/ b = [] \/ ends_nl b ->
  incl (splitlines b) (splitlines (pre ++ b ++ post)).
Proof.
  intros Hpre Hpost.
  assert (Hb : incl (splitlines b) (splitlines (b ++ post))).
  { destruct Hpost as [E|[E|[p E]]]; subst.
    - rewrite app_nil_r. apply incl_refl.
    - intros x Hx. destruct Hx.
    - rewrite <- app_assoc. simpl. rewrite (splitlines_app_nl p post).
      apply incl_appl. apply incl_refl. }
  destruct Hpre as [E|[p E]]; subst; [exact Hb|].
  rewrite <- app_assoc. simpl. rewrite (splitlines_app_nl p (b ++ post)).
  apply incl_appr. exact Hb.
Qed.

(** ** The lines of the body of a screen *)

Lemma screen_body_lines (code line : str) :
  In line (splitlines (screen_body code)) ->
  In line (splitlines code) /\ strip line <> lit "ui.close()".
Proof.
  unfold screen_body. intros H. apply splitlines_join in H.
  - apply filter_In in H. destruct H as [H1 H2]. split; [exact H1|].
    apply negb_true_iff in H2. intros E. apply str_eqb_eq in E. congruence.
  - intros l Hl. apply filter_In in Hl. destruct Hl as [Hl _].
    eapply splitlines_no_break. exact Hl.
Qed.

Lemma print_nodes_split_slices (code : str) (nodes : list (str * str))
      (h b : str) :
  print_nodes_split code = Ok nodes -> In (h, b) nodes ->
  exists pre post, code = pre ++ h ++ b ++ post.
Proof.
  unfold print_nodes_split.
  destruct (split1 [NL] code) as [[first rest]|].
  - destruct (parse_header first) as [[[own P] idx]|]; [|discriminate].
    intros H Hin. inversion H; subst nodes.
    eapply re_split_slices; [apply header_of_at_is_sound|exact Hin].
  - intros H Hin. inversion H; subst. destruct Hin.
Qed.

(** ** Sibling headers (C1) *)

Lemma lacks_app (c : ascii) (a b : str) :
  lacks c (a ++ b) = lacks c a && lacks c b.
Proof. apply forallb_app. Qed.

Lemma lacks_count (c : ascii) (s : str) :
  lacks c s = true -> count_char c s = 0.
Proof.
  unfold lacks, count_char. induction s as [|x s IH]; simpl; [reflexivity|].
  intros H. apply andb_true_iff in H. destruct H as [Hx Hs].
  apply negb_true_iff in Hx.
  assert (E : ch_eqb c x = false).
  { apply ch_eqb_neq. intros E. subst x. rewrite ch_eqb_refl in Hx.
    discriminate. }
  rewrite E. apply IH. exact Hs.
Qed.

Lemma count_lacks (c : ascii) (s : str) :
  count_char c s = 0 -> lacks c s = true.
Proof.
  unfold lacks, count_char. induction s as [|x s IH]; simpl; [reflexivity|].
  destruct (ch_eqb c x) eqn:E; simpl; [discriminate|].
  intros H. rewrite (IH H), andb_true_r. apply negb_true_iff.
  apply ch_eqb_neq. apply ch_eqb_neq in E. congruence.
Qed.

Lemma lacks_forall (p : ascii -> bool) (c : ascii) (s : str) :
  forallb p s = true -> p c = false -> lacks c s = true.
Proof.
  unfold lacks. rewrite !forallb_forall. intros H Hc x Hx.
  apply negb_true_iff. apply ch_eqb_neq. intros E. subst x.
  rewrite (H c Hx) in Hc. discriminate.
Qed.

Lemma lacks_decimal (c : ascii) (d : str) :
  is_decimal d = true -> isdigit c = false -> lacks c d = true.
Proof.
  unfold is_decimal. intros H Hc. apply andb_true_iff in H.
  destruct H as [_ H]. eapply lacks_forall; eassumption.
Qed.

Lemma lacks_spaces (c : ascii) (n : nat) :
  is_sp c = false -> lacks c (repeat SP n) = true.
Proof.
  intros H. apply (lacks_forall is_sp); [|exact H].
  apply forallb_repeat. reflexivity.
Qed.

(** A parent id holds none of the characters that delimit a header. *)
Lemma lacks_parent (c : ascii) (P : str) :
  valid_parent P = true -> isdigit c = false ->
  lacks c (lit "name") = true -> lacks c P = true.
Proof.
  unfold valid_parent. intros H Hc Hn. apply orb_true_iff in H.
  destruct H as [H|H].
  - apply lacks_decimal; assumption.
  - apply str_eqb_eq in H. subst P. exact Hn.
Qed.

(** Texts cut at the first occurrence of a character agree piece by
    piece. *)
Lemma split_at_first (c : ascii) (x1 y1 x2 y2 : str) :
  lacks c x1 = true -> lacks c x2 = true ->
  x1 ++ c :: y1 = x2 ++ c :: y2 -> x1 = x2 /\ y1 = y2.
Proof.
  revert x2. induction x1 as [|a x1 IH]; intros [|b x2] H1 H2 E;
    simpl in *.
  - inversion E. auto.
  - inversion E; subst. rewrite ch_eqb_refl in H2. discriminate.
  - inversion E; subst. rewrite ch_eqb_refl in H1. discriminate.
  - inversion E; subst. apply andb_true_iff in H1, H2.
    destruct (IH x2) as [E1 E2]; try tauto. subst. auto.
Qed.

Lemma in_split_first (c : ascii) (s : str) :
  lacks c s = false ->
  exists a b, s = a ++ c :: b /\ lacks c a = true.
Proof.
  induction s as [|x s IH]; simpl; [discriminate|].
  destruct (ch_eqb x c) eqn:E; simpl.
  - intros _. apply ch_eqb_eq in E. subst x. exists [], s. auto.
  - intros H. destruct (IH H) as [a [b [Es Ha]]].
    exists (x :: a), b. simpl. rewrite E, Ha. split; [congruence|reflexivity].
Qed.

(** The header pattern of [print_nodes] on a header line: it matches, with
    the groups of the line. *)
Lemma header_of_at_line (n1 : nat) (own P : str) (u : bool) (index t : str) :
  is_decimal own = true -> is_decimal index = true ->
  header_of_at P (repeat SP n1 ++ header_core own P u index ++ t)
  = let s := repeat SP n1 ++ header_core own P u index ++ t in
    let rest := opt_char NL (snd (span is_sp t)) in
    Some (mk_hmatch own P index (firstn (length s - length rest) s) rest).
Proof.
  intros Ho Hi. unfold header_of_at, header_core.
  repeat rewrite <- app_assoc.
  rewrite (header_front_line n1 own _ Ho), strip_prefix_app.
  rewrite (header_tail_line _ own P u index t Hi). reflexivity.
Qed.

Lemma header_line_open (n1 : nat) (own P : str) (u : bool) (index : str)
      (n2 : nat) (nl : bool) :
  header_line n1 own P u index n2 nl
  = header_open n1 own P u index
    ++ ")"%char :: repeat SP n2 ++ (if nl then [NL] else []).
Proof.
  unfold header_line, header_core, header_open.
  repeat rewrite <- app_assoc. reflexivity.
Qed.

Lemma header_open_core (n1 : nat) (own P : str) (u : bool) (index t : str) :
  header_open n1 own P u index ++ ")"%char :: t
  = repeat SP n1 ++ header_core own P u index ++ t.
Proof.
  unfold header_core, header_open. repeat rewrite <- app_assoc. reflexivity.
Qed.

Ltac lacks_pieces :=
  repeat rewrite lacks_app;
  repeat (apply andb_true_iff; split);
  first [ reflexivity
        | apply lacks_spaces; reflexivity
        | apply lacks_decimal; [assumption|reflexivity]
        | apply lacks_parent; [assumption|reflexivity|reflexivity]
        | destruct_bool_lit ]
with destruct_bool_lit :=
  match goal with
  | |- lacks _ (if ?u then _ else _) = true => destruct u; reflexivity
  end.

Lemma header_open_lacks_paren (n1 : nat) (own P : str) (u : bool)
      (index : str) :
  is_decimal own = true -> is_decimal index = true ->
  valid_parent P = true ->
  lacks ")"%char (header_open n1 own P u index) = true.
Proof. intros Ho Hi HP. unfold header_open. lacks_pieces. Qed.

Lemma header_open_sides (n1 : nat) (own P : str) (u : bool) (index : str) :
  header_open n1 own P u index
  = header_lhs n1 own ++ "="%char :: header_rhs P u index.
Proof.
  unfold header_open, header_lhs, header_rhs.
  repeat rewrite <- app_assoc. reflexivity.
Qed.

Lemma header_lhs_lacks_eq (n1 : nat) (own : str) :
  is_decimal own = true -> lacks "="%char (header_lhs n1 own) = true.
Proof. intros Ho. unfold header_lhs. lacks_pieces. Qed.

Lemma header_rhs_lacks_eq (P : str) (u : bool) (index : str) :
  is_decimal index = true -> valid_parent P = true ->
  lacks "="%char (header_rhs P u index) = true.
Proof. intros Hi HP. unfold header_rhs. lacks_pieces. Qed.

Lemma count_char_cons (c x : ascii) (s : str) :
  count_char c (x :: s)
  = (if ch_eqb c x then 1 else 0) + count_char c s.
Proof. unfold count_char. simpl. destruct (ch_eqb c x); reflexivity. Qed.

Lemma header_open_count_eq (n1 : nat) (own P : str) (u : bool)
      (index : str) :
  is_decimal own = true -> is_decimal index = true ->
  valid_parent P = true ->
  count_char "="%char (header_open n1 own P u index) = 1.
Proof.
  intros Ho Hi HP. rewrite header_open_sides, count_char_app, count_char_cons.
  rewrite (lacks_count _ _ (header_lhs_lacks_eq n1 own Ho)).
  rewrite (lacks_count _ _ (header_rhs_lacks_eq P u index Hi HP)).
  reflexivity.
Qed.

Lemma header_lhs_count_underscore (n1 : nat) (own : str) :
  is_decimal own = true -> count_char "_"%char (header_lhs n1 own) = 1.
Proof.
  intros Ho. unfold header_lhs.
  change (lit "_" ++ own ++ lit " ") with ("_"%char :: own ++ lit " ").
  rewrite count_char_app, count_char_cons, count_char_app.
  rewrite (lacks_count "_"%char (repeat SP n1))
    by (apply lacks_spaces; reflexivity).
  rewrite (lacks_count "_"%char own)
    by (apply lacks_decimal; [exact Ho|reflexivity]).
  reflexivity.
Qed.

Lemma forallb_sp_app_repeat (B : str) (n m : nat) :
  B ++ repeat SP n = repeat SP m -> forallb is_sp B = true.
Proof.
  intros E.
  assert (H : forallb is_sp (B ++ repeat SP n) = true).
  { rewrite E. apply forallb_repeat. reflexivity. }
  rewrite forallb_app in H. apply andb_true_iff in H. tauto.
Qed.

(** A text before a header line, in which the pattern does not match at
    the start, is made of spaces if the pattern matches at the start of
    the whole: a match cannot begin in the text and end in the header. *)
Lemma header_of_at_straddle (P B t : str) (n1 : nat) (own : str) (u : bool)
      (index : str) (n2 : nat) (nl : bool) (m : hmatch) :
  valid_parent P = true ->
  is_decimal own = true -> is_decimal index = true ->
  header_of_at P B = None ->
  header_of_at P (B ++ header_line n1 own P u index n2 nl ++ t) = Some m ->
  forallb is_sp B = true.
Proof.
  intros HP Ho Hi Hnone Hm.
  apply header_of_at_sound in Hm.
  destruct Hm as [m1 [u' [m2 [nl' [Ho' [Hi' [_ [Ht Hs]]]]]]]].
  rewrite Ht in Hs. rewrite !header_line_open in Hs.
  repeat rewrite <- app_assoc in Hs. simpl in Hs.
  pose proof (header_open_lacks_paren n1 own P u index Ho Hi HP) as LF.
  pose proof (header_open_lacks_paren m1 (h_own m) P u' (h_index m)
                Ho' Hi' HP) as LF'.
  destruct (lacks ")"%char B) eqn:LB.
  - rewrite app_assoc in Hs.
    apply split_at_first in Hs;
      [|rewrite lacks_app, LB, LF; reflexivity|exact LF'].
    destruct Hs as [E _].
    assert (LBe : lacks "="%char B = true).
    { apply count_lacks.
      apply (f_equal (count_char "="%char)) in E.
      rewrite count_char_app in E.
      rewrite !header_open_count_eq in E by assumption. lia. }
    rewrite !header_open_sides in E. rewrite app_assoc in E.
    apply split_at_first in E;
      [|rewrite lacks_app, LBe; apply header_lhs_lacks_eq; exact Ho
       |apply header_lhs_lacks_eq; exact Ho'].
    destruct E as [E _].
    assert (LBu : lacks "_"%char B = true).
    { apply count_lacks.
      apply (f_equal (count_char "_"%char)) in E.
      rewrite count_char_app in E.
      rewrite !header_lhs_count_underscore in E by assumption. lia. }
    unfold header_lhs in E.
    change (lit "_" ++ ?x) with ("_"%char :: x) in E.
    rewrite app_assoc in E.
    apply split_at_first in E;
      [|rewrite lacks_app, LBu; apply lacks_spaces; reflexivity
       |apply lacks_spaces; reflexivity].
    destruct E as [E _]. eapply forallb_sp_app_repeat. exact E.
  - exfalso. destruct (in_split_first _ _ LB) as [a [b [EB La]]].
    rewrite EB in Hs. rewrite <- app_assoc in Hs. simpl in Hs.
    apply split_at_first in Hs; [|exact La|exact LF'].
    destruct Hs as [E _]. subst a.
    rewrite EB, header_open_core in Hnone.
    rewrite (header_of_at_line m1 (h_own m) P u' (h_index m) b Ho' Hi')
      in Hnone.
    discriminate.
Qed.

Lemma span_snd_app (p : ascii -> bool) (a t : str) :
  forallb p a = true -> snd (span p (a ++ t)) = snd (span p t).
Proof.
  induction a as [|c a IH]; simpl; [reflexivity|].
  intros H. apply andb_true_iff in H. destruct H as [Hc Ha].
  rewrite Hc. specialize (IH Ha).
  destruct (span p (a ++ t)). simpl in *. exact IH.
Qed.

(** The pattern on a header line and what follows it. *)
Lemma header_of_at_header_line (P : str) (n1 : nat) (own : str) (u : bool)
      (index : str) (n2 : nat) (nl : bool) (t : str) :
  is_decimal own = true -> is_decimal index = true ->
  exists m,
    header_of_at P (header_line n1 own P u index n2 nl ++ t) = Some m
    /\ h_own m = own /\ h_index m = index
    /\ h_rest m = if nl then t else absorb t.
Proof.
  intros Ho Hi. unfold header_line. repeat rewrite <- app_assoc.
  rewrite (header_of_at_line n1 own P u index _ Ho Hi).
  eexists. split; [reflexivity|]. simpl. repeat split.
  destruct nl.
  - rewrite (span_app is_sp (repeat SP n2));
      [reflexivity|apply forallb_repeat; reflexivity|exact eq_refl].
  - simpl app. rewrite span_snd_app by (apply forallb_repeat; reflexivity).
    reflexivity.
Qed.

Lemma no_match_cons (P : str) (c : ascii) (b : str) :
  no_match P (c :: b) = true ->
  header_of_at P (c :: b) = None /\ no_match P b = true.
Proof.
  unfold no_match. rewrite (re_search_eq _ (c :: b)).
  destruct (header_of_at P (c :: b)); [discriminate|].
  destruct (re_search (header_of_at P) b) as [[pre m]|]; [discriminate|].
  auto.
Qed.

Lemma no_match_nil (P : str) : no_match P [] = true.
Proof. reflexivity. Qed.

Lemma header_line_spaces (k n1 : nat) (own P : str) (u : bool) (index : str)
      (n2 : nat) (nl : bool) :
  repeat SP k ++ header_line n1 own P u index n2 nl
  = header_line (k + n1) own P u index n2 nl.
Proof.
  unfold header_line. rewrite repeat_app, <- app_assoc. reflexivity.
Qed.

(** The leftmost match in a text without a match followed by a header
    line: it is that header, with the spaces before it. *)
Lemma search_sibling (P b : str) (n1 : nat) (own : str) (u : bool)
      (index : str) (n2 : nat) (nl : bool) (t : str) :
  valid_parent P = true ->
  is_decimal own = true -> is_decimal index = true ->
  no_match P b = true ->
  exists pre m,
    re_search (header_of_at P)
              (b ++ header_line n1 own P u index n2 nl ++ t)
    = Some (pre, m)
    /\ h_own m = own /\ h_index m = index
    /\ h_rest m = (if nl then t else absorb t)
    /\ (b = [] -> pre = []).
Proof.
  intros HP Ho Hi. induction b as [|c b IH]; intros Hb.
  - destruct (header_of_at_header_line P n1 own u index n2 nl t Ho Hi)
      as [m [E [H1 [H2 H3]]]].
    exists [], m. simpl app. rewrite re_search_eq, E. auto.
  - apply no_match_cons in Hb. destruct Hb as [Hc Hb].
    destruct (header_of_at P
                ((c :: b) ++ header_line n1 own P u index n2 nl ++ t))
      as [m|] eqn:E.
    + pose proof (header_of_at_straddle P (c :: b) t n1 own u index n2 nl m
                    HP Ho Hi Hc E) as Hsp.
      apply forallb_sp_repeat in Hsp.
      rewrite Hsp, app_assoc, header_line_spaces in E.
      destruct (header_of_at_header_line P (length (c :: b) + n1) own u
                  index n2 nl t Ho Hi) as [m' [E' [H1 [H2 H3]]]].
      rewrite E in E'. inversion E'; subst m'.
      exists [], m. rewrite re_search_eq.
      rewrite Hsp at 1. rewrite app_assoc, header_line_spaces, E.
      repeat split; assumption.
    + destruct (IH Hb) as [pre [m [Es [H1 [H2 [H3 _]]]]]].
      exists (c :: pre), m. rewrite re_search_eq, E.
      cbn [app]. cbv iota. rewrite Es.
      repeat split; try assumption. discriminate.
Qed.

Lemma header_line_head (n1 : nat) (own P : str) (u : bool) (index : str)
      (n2 : nat) (nl : bool) (c : ascii) (r : str) :
  header_line n1 own P u index n2 nl = c :: r ->
  (c = SP /\ exists k, n1 = S k
                       /\ r = header_line k own P u index n2 nl)
  \/ (c = "_"%char /\ n1 = 0).
Proof.
  unfold header_line. destruct n1 as [|k]; simpl.
  - unfold header_core. intros H. inversion H. right. auto.
  - intros H. inversion H. left. split; [reflexivity|]. exists k. auto.
Qed.

Lemma siblings_drop (P : str) (ids : list (str * str * str)) (c : ascii)
      (t : str) :
  c = SP \/ c = NL ->
  siblings P ids (c :: t) -> siblings P ids t.
Proof.
  intros Hc H. inversion H as [b Hb E1 E2|b n1 own u index n2 nl t0 ids0
                                 Hb Ho Hi Ht E1 E2]; subst.
  - apply siblings_nil. apply no_match_cons in Hb. tauto.
  - destruct b as [|x b].
    + simpl in E2.
      destruct (header_line n1 own P u index n2 nl) as [|y r] eqn:El.
      * exfalso. eapply header_line_nonempty. exact El.
      * simpl in E2. inversion E2; subst y t.
        apply header_line_head in El.
        destruct El as [[_ [k [_ Er]]]|[Eu _]].
        -- subst r.
           apply (siblings_cons P [] k own u index n2 nl t0 ids0);
             auto using no_match_nil.
        -- destruct Hc; subst c; discriminate.
    + simpl in E2. inversion E2; subst x t.
      apply no_match_cons in Hb. destruct Hb as [_ Hb].
      apply siblings_cons; assumption.
Qed.

Lemma siblings_skip_spaces (P : str) (ids : list (str * str * str))
      (t : str) :
  siblings P ids t -> siblings P ids (snd (span is_sp t)).
Proof.
  induction t as [|c t IH]; simpl; [auto|].
  destruct (is_sp c) eqn:E; [|auto].
  intros H. apply ch_eqb_eq in E. subst c.
  apply (siblings_drop P ids SP t (or_introl eq_refl)) in H.
  specialize (IH H). destruct (span is_sp t). exact IH.
Qed.

Lemma siblings_absorb (P : str) (ids : list (str * str * str)) (t : str) :
  siblings P ids t -> siblings P ids (absorb t).
Proof.
  intros H. apply siblings_skip_spaces in H. unfold absorb.
  destruct (opt_char_cases NL (snd (span is_sp t))) as [[r [E1 E2]]|[E _]].
  - rewrite E2. rewrite E1 in H.
    apply (siblings_drop P ids NL r (or_intror eq_refl)). exact H.
  - rewrite E. exact H.
Qed.

(** [parse_header] on a text that starts with a header line of a valid
    parent. *)
Lemma parse_header_line (n1 : nat) (own P : str) (u : bool) (index t : str) :
  is_decimal own = true -> valid_parent P = true ->
  is_decimal index = true ->
  parse_header (repeat SP n1 ++ header_core own P u index ++ t)
  = Some (own, P, index).
Proof.
  intros Ho HP Hi. unfold parse_header. rewrite re_search_eq.
  unfold valid_parent in HP. apply orb_true_iff in HP.
  destruct HP as [HP|HP].
  - destruct (header_any_at_line n1 own P u index t Ho HP Hi)
      as [text [rest E]].
    rewrite E. reflexivity.
  - apply str_eqb_eq in HP. subst P.
    unfold header_any_at, header_core. repeat rewrite <- app_assoc.
    rewrite (header_front_line n1 own _ Ho).
    change (digits1 (lit "name" ++ ?x)) with (@None (str * str)).
    rewrite strip_prefix_app.
    rewrite (header_tail_line _ own (lit "name") u index t Hi).
    reflexivity.
Qed.

Lemma parse_header_match (P : str) (s : str) (m : hmatch) :
  valid_parent P = true ->
  header_of_at P s = Some m ->
  parse_header (h_text m) = Some (h_own m, P, h_index m).
Proof.
  intros HP H. apply header_of_at_sound in H.
  destruct H as [n1 [u [n2 [nl [Ho [Hi [_ [Ht _]]]]]]]].
  rewrite Ht. unfold header_line. apply parse_header_line; assumption.
Qed.

Lemma pair_up_tl (h : str) (R : list str) :
  R <> [] -> pair_up (h :: R) = (h, hd [] R) :: pair_up (tl R).
Proof. destruct R; [congruence|reflexivity]. Qed.

(** The splitter on sibling headers: one statement record for each header,
    in the order of the text. *)
Lemma re_split_siblings (P : str) (ids : list (str * str * str)) :
  valid_parent P = true ->
  forall s n,
    siblings P ids s -> length s <= n ->
    map (fun hc => parse_header (fst hc))
        (pair_up (tl (re_split_fuel n (header_of_at P) s)))
    = map Some ids.
Proof.
  intros HP. induction ids as [|id ids IH]; intros s n Hs Hn.
  - inversion Hs as [b Hb E1 E2|]; subst. unfold no_match in Hb.
    destruct n; simpl; [reflexivity|].
    destruct (re_search (header_of_at P) s); [discriminate|reflexivity].
  - inversion Hs as [|b n1 own u index n2 nl t ids0 Hb Ho Hi Ht E1 E2];
      subst.
    destruct (search_sibling P b n1 own u index n2 nl t HP Ho Hi Hb)
      as [pre [m [E [H1 [H2 [H3 _]]]]]].
    destruct (re_search_sound _ _ _ _ (header_of_at_is_sound P) E)
      as [Hsplit Hm].
    pose proof (header_of_at_shorter P _ m Hm) as Hlen.
    assert (Hrest : siblings P ids (h_rest m)).
    { rewrite H3. destruct nl; [exact Ht|apply siblings_absorb; exact Ht]. }
    destruct n as [|n].
    { exfalso. rewrite Hsplit in Hn. rewrite !length_app in Hn.
      rewrite length_app in Hlen. lia. }
    simpl re_split_fuel. rewrite E. simpl tl.
    rewrite pair_up_tl by apply re_split_nonempty.
    simpl map. rewrite (parse_header_match P _ m HP Hm), H1, H2.
    f_equal. apply IH; [exact Hrest|].
    rewrite Hsplit in Hn. rewrite !length_app in Hn.
    rewrite length_app in Hlen. lia.
Qed.

(** When the text starts with a header, so does the first record. *)
Lemma re_split_siblings_first (P : str) (n1 : nat) (own : str) (u : bool)
      (index : str) (n2 : nat) (nl : bool) (t : str) (n : nat) :
  valid_parent P = true ->
  is_decimal own = true -> is_decimal index = true ->
  hd [] (re_split_fuel (S n) (header_of_at P)
           (header_line n1 own P u index n2 nl ++ t)) = [].
Proof.
  intros HP Ho Hi.
  destruct (search_sibling P [] n1 own u index n2 nl t HP Ho Hi
              (no_match_nil P)) as [pre [m [E [_ [_ [_ Hpre]]]]]].
  simpl app in E. simpl. rewrite E. simpl. apply Hpre. reflexivity.
Qed.

Lemma split1_prefix (a r first rest : str) :
  lacks NL a = true ->
  split1 [NL] (a ++ r) = Some (first, rest) ->
  exists t, first = a ++ t.
Proof.
  revert first. induction a as [|x a IH]; intros first La H.
  - exists first. reflexivity.
  - simpl in La. apply andb_true_iff in La. destruct La as [Hx La].
    apply negb_true_iff in Hx.
    assert (Ex : ch_eqb NL x = false).
    { apply ch_eqb_neq. apply ch_eqb_neq in Hx. congruence. }
    simpl in H. rewrite Ex in H.
    destruct (split1 [NL] (a ++ r)) as [[f r']|] eqn:E; [|discriminate].
    inversion H; subst. destruct (IH f La eq_refl) as [t Et].
    exists t. simpl. congruence.
Qed.

(** The first line of a text that starts with a header line parses to the
    ids of that header. *)
Lemma first_line_header (P : str) (n1 : nat) (own : str) (u : bool)
      (index : str) (n2 : nat) (nl : bool) (t first rest : str) :
  valid_parent P = true ->
  is_decimal own = true -> is_decimal index = true ->
  split1 [NL] (header_line n1 own P u index n2 nl ++ t)
  = Some (first, rest) ->
  parse_header first = Some (own, P, index).
Proof.
  intros HP Ho Hi H.
  assert (E : header_line n1 own P u index n2 nl ++ t
              = (repeat SP n1 ++ header_core own P u index)
                ++ repeat SP n2 ++ (if nl then [NL] else []) ++ t).
  { unfold header_line. repeat rewrite <- app_assoc. reflexivity. }
  rewrite E in H. clear E. apply split1_prefix in H.
  - destruct H as [t' E]. subst first. rewrite <- app_assoc.
    apply parse_header_line; assumption.
  - unfold header_core. lacks_pieces.
Qed.

Lemma siblings_flattened (P : str) (xs : list sibling) :
  forallb (sibling_ok P) xs = true ->
  forall b, no_match P b = true ->
            siblings P (map (fun x => (s_own x, P, s_index x)) xs)
                     (b ++ flattened P xs).
Proof.
  induction xs as [|x xs IH]; intros H b Hb.
  - unfold flattened. simpl. rewrite app_nil_r. apply siblings_nil. exact Hb.
  - simpl in H. apply andb_true_iff in H. destruct H as [Hx Hxs].
    unfold sibling_ok in Hx. apply andb_true_iff in Hx.
    destruct Hx as [Hx Ht]. apply andb_true_iff in Hx.
    destruct Hx as [Ho Hi].
    unfold flattened. simpl. rewrite <- app_assoc.
    apply siblings_cons; try assumption. apply IH; assumption.
Qed.

(** C1, the claim as stated fails: a body made of one header line and
    nothing else has one sibling, and the splitter returns no record. *)
Lemma block_splitter_single_line_counterexample :
  ~ (forall P xs,
        valid_parent P = true -> forallb (sibling_ok P) xs = true ->
        exists nodes,
          print_nodes_split (flattened P xs) = Ok nodes
          /\ length nodes = length xs).
Proof.
  intros H.
  destruct (H (lit "0") [mk_sibling 0 (lit "1") false (lit "0") 0 false []]
              eq_refl eq_refl) as [nodes [E Hl]].
  vm_compute in E. inversion E; subst nodes. discriminate.
Qed.

(** C1, amended: for a body built from sibling header lines that all name
    the parent [P], each followed by a text without such a header, the
    splitter returns no record when the body has a single line; when the
    body holds a line feed it returns one record for each sibling, in the
    order of the text whatever the ids, and the headers and bodies of the
    records, concatenated in that order, are the body. *)
Theorem block_splitter_siblings (P : str) (xs : list sibling) :
  valid_parent P = true ->
  forallb (sibling_ok P) xs = true ->
  (contains [NL] (flattened P xs) = false ->
   print_nodes_split (flattened P xs) = Ok [])
  /\ (contains [NL] (flattened P xs) = true ->
      exists nodes,
        print_nodes_split (flattened P xs) = Ok nodes
        /\ length nodes = length xs
        /\ map (fun hc => parse_header (fst hc)) nodes
           = map (fun x => Some (s_own x, P, s_index x)) xs
        /\ concat (map (fun hc => fst hc ++ snd hc) nodes)
           = flattened P xs).
Proof.
  intros HP Hok. split; intros Hc.
  - unfold print_nodes_split. unfold contains in Hc.
    destruct (split1 [NL] (flattened P xs)) as [[a b]|];
      [discriminate|reflexivity].
  - destruct xs as [|x xs]; [discriminate|].
    pose proof (siblings_flattened P (x :: xs) Hok [] (no_match_nil P))
      as Hsib.
    simpl app in Hsib.
    simpl in Hok. apply andb_true_iff in Hok. destruct Hok as [Hx _].
    unfold sibling_ok in Hx. apply andb_true_iff in Hx.
    destruct Hx as [Hx _]. apply andb_true_iff in Hx.
    destruct Hx as [Ho Hi].
    assert (Ef : flattened P (x :: xs)
                 = sibling_header P x ++ s_text x ++ flattened P xs).
    { unfold flattened. simpl. rewrite <- app_assoc. reflexivity. }
    unfold print_nodes_split. unfold contains in Hc.
    destruct (split1 [NL] (flattened P (x :: xs))) as [[first rest]|] eqn:Es;
      [|discriminate].
    rewrite Ef in Es.
    rewrite (first_line_header P _ _ _ _ _ _ _ first rest HP Ho Hi Es).
    eexists. split; [reflexivity|].
    pose proof (re_split_siblings P _ HP (flattened P (x :: xs))
                  (length (flattened P (x :: xs))) Hsib (le_n _)) as Hids.
    unfold re_split. rewrite map_map in Hids.
    split; [|split].
    + apply (f_equal (@length _)) in Hids. rewrite !length_map in Hids.
      exact Hids.
    + exact Hids.
    + pose proof (re_split_pieces (header_of_at P)
                    (length (flattened P (x :: xs)))
                    (flattened P (x :: xs)) (header_of_at_is_sound P)) as Hp.
      assert (Hhd : hd [] (re_split_fuel (length (flattened P (x :: xs)))
                             (header_of_at P) (flattened P (x :: xs))) = []).
      { rewrite Ef.
        destruct (length (sibling_header P x ++ s_text x ++ flattened P xs))
          as [|n] eqn:El.
        - exfalso. apply length_zero_iff_nil in El.
          apply app_eq_nil in El. destruct El as [El _].
          eapply header_line_nonempty. exact El.
        - apply re_split_siblings_first; assumption. }
      rewrite Hhd in Hp. simpl in Hp. symmetry. exact Hp.
Qed.

Lemma block_splitter_siblings_witness :
  let xs := [ mk_sibling 0 (lit "3") false (lit "0") 0 true
                         (lit "ui.text(a)  " ++ [NL] ++ lit "  ");
              mk_sibling 2 (lit "2") true (lit "1") 1 false (lit "x = 1") ] in
  exists nodes,
    print_nodes_split (flattened (lit "0") xs) = Ok nodes
    /\ map (fun hc => parse_header (fst hc)) nodes
       = [ Some (lit "3", lit "0", lit "0");
           Some (lit "2", lit "0", lit "1") ]
    /\ concat (map (fun hc => fst hc ++ snd hc) nodes)
       = flattened (lit "0") xs.
Proof.
  intros xs.
  destruct (block_splitter_siblings (lit "0") xs eq_refl eq_refl) as [_ H].
  destruct (H eq_refl) as [nodes [E [_ [Hids Hcat]]]].
  exists nodes. split; [exact E|]. split; [exact Hids|exact Hcat].
Defined.


(** ** Further properties of the printers *)

(** Every printer returns with the indentation depth it was entered with,
    for every input and at every depth of the recursion: [print_nodes]
    itself, [print_node] and the printers it dispatches to, [print_if],
    [print_for], [print_ui], [print_use], [print_default], [print_hotspot]
    and [print_python], and [print_block] and [print_arguments], which
    these call. *)
Theorem printers_balanced :
  forall (guard : str -> str) (cfg : config) (fuel : nat) (header code : str)
         (extra : Z) (block args : list str) (kwargs : list (str * str))
         (multiline : bool),
    balanced (print_nodes guard cfg fuel code extra)
    /\ balanced (print_node guard cfg (print_nodes guard cfg fuel)
                            header code)
    /\ balanced (print_block cfg (print_nodes guard cfg fuel) block)
    /\ balanced (print_if cfg (print_nodes guard cfg fuel) header code)
    /\ balanced (print_for cfg (print_nodes guard cfg fuel) header code)
    /\ balanced (print_ui guard cfg (print_nodes guard cfg fuel)
                          header code)
    /\ balanced (print_use cfg header code)
    /\ balanced (print_default cfg header code)
    /\ balanced (print_hotspot guard cfg header code)
    /\ balanced (print_arguments guard cfg args kwargs multiline)
    /\ balanced (print_python cfg header code).
Proof.
  intros.
  assert (Hrec : forall c e, balanced (print_nodes guard cfg fuel c e))
    by (intros; apply balanced_print_nodes).
  repeat split.
  - apply Hrec.
  - apply balanced_print_node; exact Hrec.
  - apply balanced_print_block; exact Hrec.
  - apply balanced_print_if; exact Hrec.
  - apply balanced_print_for; exact Hrec.
  - apply balanced_print_ui; exact Hrec.
  - apply balanced_print_use.
  - apply balanced_print_default.
  - apply balanced_print_hotspot.
  - apply balanced_print_arguments.
  - apply balanced_print_python.
Qed.

(** [print_screen] returns with the depth it was entered with when it
    decompiles the code of the screen, and one deeper when it does not. *)
Theorem print_screen_depth :
  forall (guard : str -> str) (paraminfo source : Type)
         (reconstruct : paraminfo -> str) (wc : list (list str) -> str)
         (to_source : source -> str -> str) (cfg : config) (fuel : nat)
         (ast : screen paraminfo source),
    shifts (if decompile_python cfg then 0 else 1)
           (print_screen guard paraminfo source reconstruct wc to_source
                         cfg fuel ast).
Proof. intros. apply print_screen_shifts. Qed.

(** [print_python] returns on every body. *)
Lemma print_python_returns (cfg : config) (header code : str) (w : wstate) :
  exists w', print_python cfg header code w = Ok (tt, w').
Proof.
  unfold print_python.
  destruct (contains [NL] (strip code)) eqn:Hc.
  - destruct (first_nonblank_exists code Hc) as [first Hf].
    fold nonblank. rewrite Hf.
    destruct (indent_write_wrote cfg (lit "python:") w) as [w1 [E1 [_ S1]]].
    destruct (print_python_lines cfg (length first - length (lstrip first))
                (splitlines code)
                (mk_wstate (indent_level w1 + 1) (linenumber w1)
                           (skip_indent_until_write w1) (out_file w1)) S1)
      as [w3 [E3 _]].
    unfold bind in *. destruct (indent cfg w) as [[u w0]|e]; [|discriminate].
    rewrite E1. unfold add_indent at 1. rewrite E3. eexists. reflexivity.
  - destruct (indent_write_wrote cfg (lit "$ " ++ strip code) w)
      as [w1 [E1 _]].
    exists w1. exact E1.
Qed.

(** A body whose second line is not a header goes from [print_if] and
    [print_for] to [print_python], which returns. *)
Theorem failed_probe_falls_back (cfg : config) (rec : str -> Z -> M unit)
        (header code line1 : str) (w : wstate) :
  nth_error (splitlines code) 1 = Some line1 ->
  parse_header line1 = None ->
  print_if cfg rec header code = print_python cfg header code
  /\ print_for cfg rec header code = print_python cfg header code
  /\ exists w', print_python cfg header code w = Ok (tt, w').
Proof.
  intros H1 Hp. unfold print_if, print_for, is_header. rewrite H1, Hp.
  split; [reflexivity|]. split; [reflexivity|].
  apply print_python_returns.
Qed.

Lemma failed_probe_falls_back_witness :
  let cfg := mk_config (lit "    ") true true true false in
  let code := lit "if x:" ++ [NL] ++ lit "    y = 1" in
  print_if cfg (fun _ _ => ret tt) [] code = print_python cfg [] code
  /\ print_for cfg (fun _ _ => ret tt) [] code = print_python cfg [] code.
Proof.
  intros cfg code.
  destruct (failed_probe_falls_back cfg (fun _ _ => ret tt) [] code
              (lit "    y = 1") (mk_wstate 0 1 false []) eq_refl eq_refl)
    as [H1 [H2 _]].
  split; [exact H1|exact H2].
Defined.

(** ** The header of a statement *)

(** A match of the pattern of [parse_header] is a header line, and the
    text splits into the match and the rest. *)
Lemma header_any_at_sound (s : str) (m : hmatch) :
  header_any_at s = Some m ->
  exists (n1 : nat) (u : bool) (n2 : nat) (nl : bool),
    is_decimal (h_own m) = true /\ valid_parent (h_parent m) = true
    /\ is_decimal (h_index m) = true
    /\ h_text m
       = header_line n1 (h_own m) (h_parent m) u (h_index m) n2 nl
    /\ s = h_text m ++ h_rest m.
Proof.
  unfold header_any_at. intros H.
  destruct (header_front s) as [[own s3]|] eqn:E1; [|discriminate].
  apply header_front_sound in E1. destruct E1 as [n1 [E1 Ho]].
  assert (Hpar : exists par s4,
             s3 = par ++ s4 /\ valid_parent par = true
             /\ header_tail s own par s4 = Some m).
  { destruct (digits1 s3) as [[par s4]|] eqn:E2.
    - apply digits1_spec in E2. destruct E2 as [E2 [Hd _]].
      exists par, s4. unfold valid_parent. rewrite Hd. auto.
    - destruct (strip_prefix (lit "name") s3) as [s4|] eqn:E3;
        [|discriminate].
      apply strip_prefix_spec in E3. exists (lit "name"), s4. auto. }
  destruct Hpar as [par [s4 [E2 [HP Ht]]]].
  assert (Es : s = (repeat SP n1 ++ lit "_" ++ own ++ lit " = (_" ++ par)
                   ++ s4).
  { rewrite E1, E2. repeat rewrite <- app_assoc. reflexivity. }
  rewrite Es in Ht. apply header_tail_sound in Ht.
  destruct Ht as [u [n2 [nl [Hi [Hown [Hpar [Htx Hw]]]]]]].
  exists n1, u, n2, nl. rewrite Hown, Hpar. repeat split; try assumption.
  - rewrite Htx. unfold header_line, header_core.
    repeat rewrite <- app_assoc. reflexivity.
  - rewrite Es. exact Hw.
Qed.

Lemma header_any_at_is_sound : sound header_any_at.
Proof.
  intros s m H. apply header_any_at_sound in H.
  destruct H as [n1 [u [n2 [nl [_ [_ [_ [_ H]]]]]]]]. exact H.
Qed.

(** What [parse_header] returns stands in the text. *)
Lemma parse_header_shape (header own parent index : str) :
  parse_header header = Some (own, parent, index) ->
  is_decimal own = true /\ valid_parent parent = true
  /\ is_decimal index = true
  /\ exists pre n1 u n2 nl rest,
       header = pre ++ header_line n1 own parent u index n2 nl ++ rest.
Proof.
  unfold parse_header. intros H.
  destruct (re_search header_any_at header) as [[pre m]|] eqn:E;
    [|discriminate].
  inversion H; subst own parent index; clear H.
  destruct (re_search_sound _ _ _ _ header_any_at_is_sound E) as [Hs Hm].
  apply header_any_at_sound in Hm.
  destruct Hm as [n1 [u [n2 [nl [Ho [HP [Hi [Ht _]]]]]]]].
  repeat split; try assumption.
  exists pre, n1, u, n2, nl, (h_rest m). rewrite <- Ht. exact Hs.
Qed.

(** [re.search] returns the leftmost match. *)
Lemma re_search_leftmost (pat : str -> option hmatch) (s pre : str)
      (m : hmatch) :
  re_search pat s = Some (pre, m) ->
  forall a c b, pre = a ++ c :: b ->
                pat (c :: b ++ skipn (length pre) s) = None.
Proof.
  revert pre. induction s as [|x s IH]; intros pre H;
    rewrite re_search_eq in H.
  - destruct (pat []); [|discriminate]. inversion H; subst.
    intros a c b E. destruct a; discriminate.
  - destruct (pat (x :: s)) as [m'|] eqn:Ep.
    + inversion H; subst. intros a c b E. destruct a; discriminate.
    + destruct (re_search pat s) as [[pre' m']|] eqn:Er; [|discriminate].
      inversion H; subst pre m'. clear H. intros a c b E.
      destruct a as [|y a]; simpl in E; inversion E; subst.
      * simpl.
        assert (Es : b ++ skipn (length b) s = s).
        { clear - Er. revert b Er. induction s as [|z s IHs]; intros b Er;
            rewrite re_search_eq in Er.
          - destruct (pat []); [|discriminate]. inversion Er; subst.
            reflexivity.
          - destruct (pat (z :: s)).
            + inversion Er; subst. reflexivity.
            + destruct (re_search pat s) as [[p q]|]; [|discriminate].
              inversion Er; subst. simpl. f_equal. apply IHs. reflexivity. }
        rewrite Es. exact Ep.
      * simpl. apply (IH _ eq_refl a c b). reflexivity.
Qed.

Lemma re_search_rest (pat : str -> option hmatch) (s pre : str)
      (m : hmatch) :
  sound pat -> re_search pat s = Some (pre, m) ->
  skipn (length pre) s = h_text m ++ h_rest m.
Proof.
  intros Hp H. destruct (re_search_sound pat s pre m Hp H) as [Hs _].
  rewrite Hs at 1. rewrite skipn_app, Nat.sub_diag, skipn_all. reflexivity.
Qed.

(** The ids [parse_header] returns are those of a header that stands in
    the text, and of the leftmost one: the own id and the index are decimal
    strings, the parent id is a decimal string or [name], the text holds the
    header line built from them, and the pattern matches nowhere before
    it. *)
Theorem parse_header_sound (header own parent index : str) :
  parse_header header = Some (own, parent, index) ->
  is_decimal own = true /\ valid_parent parent = true
  /\ is_decimal index = true
  /\ exists pre n1 u n2 nl rest,
       header = pre ++ header_line n1 own parent u index n2 nl ++ rest
       /\ forall a c b,
            pre = a ++ c :: b ->
            header_any_at
              (c :: b ++ header_line n1 own parent u index n2 nl ++ rest)
            = None.
Proof.
  unfold parse_header. intros H.
  destruct (re_search header_any_at header) as [[pre m]|] eqn:E;
    [|discriminate].
  inversion H; subst own parent index; clear H.
  destruct (re_search_sound _ _ _ _ header_any_at_is_sound E) as [Hs Hm].
  pose proof (re_search_rest _ _ _ _ header_any_at_is_sound E) as Hr.
  pose proof (re_search_leftmost _ _ _ _ E) as Hl.
  apply header_any_at_sound in Hm.
  destruct Hm as [n1 [u [n2 [nl [Ho [HP [Hi [Ht _]]]]]]]].
  repeat split; try assumption.
  exists pre, n1, u, n2, nl, (h_rest m). rewrite <- Ht.
  split; [exact Hs|].
  intros a c b Ep. rewrite <- Hr. apply (Hl a c b Ep).
Qed.

Lemma parse_header_sound_witness :
  is_decimal (lit "12") = true /\ valid_parent (lit "name") = true
  /\ is_decimal (lit "4") = true
  /\ exists pre n1 u n2 nl rest,
       lit "x  _12 = (_name, _4) y"
       = pre ++ header_line n1 (lit "12") (lit "name") u (lit "4") n2 nl
             ++ rest
       /\ forall a c b,
            pre = a ++ c :: b ->
            header_any_at
              (c :: b ++ header_line n1 (lit "12") (lit "name") u (lit "4")
                                     n2 nl ++ rest)
            = None.
Proof.
  exact (parse_header_sound (lit "x  _12 = (_name, _4) y")
           (lit "12") (lit "name") (lit "4") eq_refl).
Defined.

(** ** The records of a block *)

(** A match of the pattern of [print_nodes] stays a match when the text
    goes on. *)
Lemma header_of_at_extend (P a b : str) (m : hmatch) :
  header_of_at P a = Some m ->
  exists m', header_of_at P (a ++ b) = Some m'.
Proof.
  intros H. apply header_of_at_sound in H.
  destruct H as [n1 [u [n2 [nl [Ho [Hi [_ [Ht Hs]]]]]]]].
  rewrite Hs, Ht, <- app_assoc.
  destruct (header_of_at_header_line P n1 (h_own m) u (h_index m) n2 nl
              (h_rest m ++ b) Ho Hi) as [m' [E _]].
  exists m'. exact E.
Qed.

(** The text before the leftmost match holds no match. *)
Lemma re_search_pre_no_match (P s pre : str) (m : hmatch) :
  re_search (header_of_at P) s = Some (pre, m) -> no_match P pre = true.
Proof.
  intros H. unfold no_match.
  destruct (re_search (header_of_at P) pre) as [[a m']|] eqn:E;
    [|reflexivity].
  exfalso.
  destruct (re_search_sound _ _ _ _ (header_of_at_is_sound P) E) as [Hs Hm].
  destruct (header_of_at_extend P _ (skipn (length pre) s) m' Hm)
    as [m'' Hx].
  destruct (h_text m' ++ h_rest m') as [|c b] eqn:Eb.
  - apply header_of_at_shorter in Hm. simpl in Hm. lia.
  - pose proof (re_search_leftmost _ _ _ _ H a c b Hs) as Hl.
    simpl in Hx. congruence.
Qed.

(** Every header of a record is a match of the pattern. *)
Lemma re_split_headers (pat : str -> option hmatch) (n : nat) (s h c : str) :
  sound pat ->
  In (h, c) (pair_up (tl (re_split_fuel n pat s))) ->
  exists s' m, pat s' = Some m /\ h = h_text m.
Proof.
  intros Hp. revert s. induction n as [|n IH]; intros s; simpl.
  - contradiction.
  - destruct (re_search pat s) as [[pre m]|] eqn:E; simpl; [|contradiction].
    destruct (re_search_sound pat s pre m Hp E) as [_ Hm].
    specialize (IH (h_rest m)).
    destruct (re_split_fuel n pat (h_rest m)) as [|b R]; simpl in *;
      [contradiction|].
    intros [Hin|Hin].
    + inversion Hin; subst h c. eauto.
    + apply IH. exact Hin.
Qed.

(** No piece between two headers, and no piece after the last one, holds
    a match of the pattern. *)
Lemma re_split_bodies (P : str) (n : nat) (s h c : str) :
  length s <= n ->
  In (h, c) (pair_up (tl (re_split_fuel n (header_of_at P) s))) ->
  no_match P c = true.
Proof.
  revert s. induction n as [|n IH]; intros s Hn; simpl.
  - contradiction.
  - destruct (re_search (header_of_at P) s) as [[pre m]|] eqn:E; simpl;
      [|contradiction].
    destruct (re_search_sound _ _ _ _ (header_of_at_is_sound P) E)
      as [Hs Hm].
    pose proof (header_of_at_shorter P _ m Hm) as Hlen.
    assert (Hl : length (h_rest m) <= n).
    { apply (f_equal (@length ascii)) in Hs.
      rewrite !length_app in Hs. rewrite length_app in Hlen. lia. }
    specialize (IH (h_rest m) Hl).
    destruct n as [|n'].
    + simpl. intros [Hin|[]]. inversion Hin; subst.
      destruct (h_rest m); [reflexivity|simpl in Hl; lia].
    + simpl in *.
      destruct (re_search (header_of_at P) (h_rest m)) as [[pre' m']|] eqn:E';
        simpl in *.
      * intros [Hin|Hin].
        -- inversion Hin; subst.
           apply (re_search_pre_no_match P (h_rest m) c m'). exact E'.
        -- apply IH. exact Hin.
      * intros [Hin|[]]. inversion Hin; subst. unfold no_match.
        rewrite E'. reflexivity.
Qed.

(** [s.split(sep, 1)] cuts the text around an occurrence of [sep]. *)
Lemma split1_sound (sep s a b : str) :
  split1 sep s = Some (a, b) -> s = a ++ sep ++ b.
Proof.
  revert a. induction s as [|c s IH]; intros a H.
  - simpl in H. destruct (strip_prefix sep []) as [r|] eqn:E; [|discriminate].
    inversion H; subst. apply strip_prefix_spec in E. exact E.
  - simpl in H. destruct (strip_prefix sep (c :: s)) as [r|] eqn:E.
    + inversion H; subst. apply strip_prefix_spec in E. exact E.
    + destruct (split1 sep s) as [[a' b']|]; [|discriminate].
      inversion H; subst. simpl. f_equal. apply IH. reflexivity.
Qed.

(** The pattern of [print_nodes], made from the parent id of the first
    line, matches in a text whose first line is a header. *)
Lemma first_header_found (code first rest own P index : str) :
  split1 [NL] code = Some (first, rest) ->
  parse_header first = Some (own, P, index) ->
  exists pre m, re_search (header_of_at P) code = Some (pre, m).
Proof.
  intros Hs Hp. apply parse_header_shape in Hp.
  destruct Hp as [Ho [HP [Hi [pre [n1 [u [n2 [nl [r E]]]]]]]]].
  assert (Hc : exists tail, code = first ++ tail).
  { exists ([NL] ++ rest). apply split1_sound. exact Hs. }
  destruct Hc as [tail Hc].
  destruct (re_search (header_of_at P) code) as [[p m]|] eqn:Er; [eauto|].
  exfalso.
  pose proof (proj1 (re_search_none _ _) Er pre
                (header_line n1 own P u index n2 nl ++ r ++ tail)) as Hn.
  destruct (header_of_at_header_line P n1 own u index n2 nl (r ++ tail)
              Ho Hi) as [m [Em _]].
  rewrite Hn in Em; [discriminate|].
  rewrite Hc, E. repeat rewrite <- app_assoc. reflexivity.
Qed.

(** [print_nodes] loses no text between its records: the text is what
    stands before the first header, which is not printed, followed by the
    headers and the bodies of the records in their order.  Only a text of
    one line has no record.  With a record, the first line of the text
    holds a header, the first record starts with the leftmost header of
    the parent named there, and what stands before the records is the text
    before that header: the pattern matches nowhere in it. *)
Theorem print_nodes_split_partition (code : str) (nodes : list (str * str)) :
  print_nodes_split code = Ok nodes ->
  exists garbage,
    code = garbage ++ concat (map (fun hc => fst hc ++ snd hc) nodes)
    /\ (nodes = [] -> garbage = code /\ contains [NL] code = false)
    /\ (forall h b more,
           nodes = (h, b) :: more ->
           exists first rest own P index m,
             split1 [NL] code = Some (first, rest)
             /\ parse_header first = Some (own, P, index)
             /\ header_of_at P
                  (concat (map (fun hc => fst hc ++ snd hc) nodes))
                = Some m
             /\ h_text m = h
             /\ no_match P garbage = true
             /\ forall a c t,
                 garbage = a ++ c :: t ->
                 header_of_at P
                   (c :: t
                    ++ concat (map (fun hc => fst hc ++ snd hc) nodes))
                 = None).
Proof.
  unfold print_nodes_split, contains. intros H.
  destruct (split1 [NL] code) as [[first rest]|] eqn:Es.
  - destruct (parse_header first) as [[[own P] index]|] eqn:Ep;
      [|discriminate].
    inversion H; subst nodes. clear H.
    destruct (first_header_found code first rest own P index Es Ep)
      as [pre [m E]].
    pose proof (re_split_pieces (header_of_at P) (length code) code
                  (header_of_at_is_sound P)) as Hpieces.
    unfold re_split in *.
    destruct (length code) as [|n] eqn:El.
    { apply length_zero_iff_nil in El. subst code. discriminate. }
    simpl re_split_fuel in *. rewrite E in *. cbn [hd tl] in *.
    rewrite pair_up_tl in * by apply re_split_nonempty.
    exists pre. split; [exact Hpieces|]. split; [discriminate|].
    intros h b more Hn. inversion Hn; subst h b more. clear Hn.
    destruct (re_search_sound _ _ _ _ (header_of_at_is_sound P) E)
      as [Hs Hm].
    assert (Hrest : concat (map (fun hc => fst hc ++ snd hc)
                       ((h_text m,
                         hd [] (re_split_fuel n (header_of_at P) (h_rest m)))
                        :: pair_up (tl (re_split_fuel n (header_of_at P)
                                          (h_rest m)))))
                    = h_text m ++ h_rest m).
    { rewrite Hs in Hpieces at 1. apply app_inv_head in Hpieces.
      symmetry. exact Hpieces. }
    exists first, rest, own, P, index, m.
    split; [reflexivity|]. split; [exact Ep|].
    rewrite Hrest. split; [exact Hm|]. split; [reflexivity|].
    split; [exact (re_search_pre_no_match P code pre m E)|].
    intros a c t Ea.
    pose proof (re_search_leftmost _ _ _ _ E a c t Ea) as Hl.
    rewrite (re_search_rest _ _ _ _ (header_of_at_is_sound P) E) in Hl.
    exact Hl.
  - inversion H; subst nodes. exists code. simpl. rewrite app_nil_r.
    split; [reflexivity|]. split; [auto|]. intros h b more Hn. discriminate.
Qed.

Lemma print_nodes_split_partition_witness :
  let code := lit "x _1 = (_0, 0)" ++ [NL] ++ lit "a" ++ [NL]
              ++ lit "_2 = (_0, 1)" ++ [NL] ++ lit "b" in
  let nodes := [ (lit " _1 = (_0, 0)" ++ [NL], lit "a" ++ [NL]);
                 (lit "_2 = (_0, 1)" ++ [NL], lit "b") ] in
  exists garbage,
    code = garbage ++ concat (map (fun hc => fst hc ++ snd hc) nodes)
    /\ exists P, no_match P garbage = true.
Proof.
  intros code nodes.
  destruct (print_nodes_split_partition code nodes eq_refl)
    as [garbage [E [_ H]]].
  exists garbage. split; [exact E|].
  destruct (H _ _ _ eq_refl)
    as [first [rest [own [P [index [m [_ [_ [_ [_ [Hn _]]]]]]]]]]].
  exists P. exact Hn.
Defined.

(** A text of two lines or more whose first line holds a header has a
    record: [print_nodes] calls [print_node] at least once on it. *)
Theorem print_nodes_split_children (code first rest own P index : str) :
  split1 [NL] code = Some (first, rest) ->
  parse_header first = Some (own, P, index) ->
  exists node nodes, print_nodes_split code = Ok (node :: nodes).
Proof.
  intros Hs Hp. unfold print_nodes_split. rewrite Hs, Hp.
  destruct (first_header_found code first rest own P index Hs Hp)
    as [pre [m E]].
  unfold re_split. destruct (length code) as [|n] eqn:El.
  - apply length_zero_iff_nil in El. subst code. discriminate.
  - simpl re_split_fuel. rewrite E. simpl tl.
    rewrite pair_up_tl by apply re_split_nonempty. eauto.
Qed.

Lemma print_nodes_split_children_witness :
  exists node nodes,
    print_nodes_split (lit "x _1 = (_7, 0) y" ++ [NL] ++ lit "a")
    = Ok (node :: nodes).
Proof.
  exact (print_nodes_split_children
           (lit "x _1 = (_7, 0) y" ++ [NL] ++ lit "a")
           (lit "x _1 = (_7, 0) y") (lit "a")
           (lit "1") (lit "7") (lit "0") eq_refl eq_refl).
Defined.

(** The header of every record names the parent id of the first line of
    the text: [parse_header] reads it back from the header. *)
Theorem print_nodes_split_headers (code first rest own P index : str)
        (nodes : list (str * str)) :
  split1 [NL] code = Some (first, rest) ->
  parse_header first = Some (own, P, index) ->
  print_nodes_split code = Ok nodes ->
  forall h c, In (h, c) nodes ->
              exists o i, parse_header h = Some (o, P, i).
Proof.
  intros Hs Hp H h c Hin. unfold print_nodes_split in H.
  rewrite Hs, Hp in H. inversion H; subst nodes. clear H.
  apply parse_header_shape in Hp. destruct Hp as [_ [HP _]].
  apply re_split_headers in Hin; [|apply header_of_at_is_sound].
  destruct Hin as [s' [m [Hm Eh]]]. subst h.
  exists (h_own m), (h_index m). apply (parse_header_match P s' m HP Hm).
Qed.

Lemma print_nodes_split_headers_witness :
  exists o i,
    parse_header (lit "  _2 = (_0, _1)  " ++ [NL]) = Some (o, lit "0", i).
Proof.
  exact (print_nodes_split_headers
           (lit "_1 = (_0, 0)" ++ [NL] ++ lit "a" ++ [NL]
            ++ lit "  _2 = (_0, _1)  " ++ [NL] ++ lit "b")
           (lit "_1 = (_0, 0)")
           (lit "a" ++ [NL] ++ lit "  _2 = (_0, _1)  " ++ [NL] ++ lit "b")
           (lit "1") (lit "0") (lit "0")
           [ (lit "_1 = (_0, 0)" ++ [NL], lit "a" ++ [NL]);
             (lit "  _2 = (_0, _1)  " ++ [NL], lit "b") ]
           eq_refl eq_refl eq_refl
           (lit "  _2 = (_0, _1)  " ++ [NL]) (lit "b")
           (or_intror (or_introl eq_refl))).
Defined.

(** The text is cut at every header of the parent: in the body of a
    record the pattern of [print_nodes] matches nowhere. *)
Theorem print_nodes_split_maximal (code first rest own P index : str)
        (nodes : list (str * str)) :
  split1 [NL] code = Some (first, rest) ->
  parse_header first = Some (own, P, index) ->
  print_nodes_split code = Ok nodes ->
  forall h c, In (h, c) nodes -> no_match P c = true.
Proof.
  intros Hs Hp H h c Hin. unfold print_nodes_split in H.
  rewrite Hs, Hp in H. inversion H; subst nodes. clear H.
  apply (re_split_bodies P (length code) code h c (le_n _) Hin).
Qed.

Lemma print_nodes_split_maximal_witness :
  no_match (lit "0") (lit "_3 = (_1, 0)" ++ [NL]) = true.
Proof.
  exact (print_nodes_split_maximal
           (lit "_1 = (_0, 0)" ++ [NL] ++ lit "_3 = (_1, 0)" ++ [NL]
            ++ lit "_2 = (_0, 1)" ++ [NL] ++ lit "b")
           (lit "_1 = (_0, 0)")
           (lit "_3 = (_1, 0)" ++ [NL] ++ lit "_2 = (_0, 1)" ++ [NL]
            ++ lit "b")
           (lit "1") (lit "0") (lit "0")
           [ (lit "_1 = (_0, 0)" ++ [NL], lit "_3 = (_1, 0)" ++ [NL]);
             (lit "_2 = (_0, 1)" ++ [NL], lit "b") ]
           eq_refl eq_refl eq_refl
           (lit "_1 = (_0, 0)" ++ [NL]) (lit "_3 = (_1, 0)" ++ [NL])
           (or_introl eq_refl)).
Defined.

(** ** The depth of the recursion *)

Create HintDb agreement.

Lemma agree_bind {A B : Type} (m1 m2 : M A) (k1 k2 : A -> M B) :
  agree m1 m2 -> (forall a, agree (k1 a) (k2 a)) ->
  agree (bind m1 k1) (bind m2 k2).
Proof.
  intros Hm Hk w. unfold bind. destruct (Hm w) as [E Hn]. rewrite <- E.
  destruct (m1 w) as [[a w1]|e].
  - apply Hk.
  - split; [reflexivity|]. intros H. apply Hn. congruence.
Qed.

Lemma agree_bind_ok {A B : Type} (m1 m2 : M A) (k1 k2 : A -> M B) :
  agree m1 m2 ->
  (forall a w w', m1 w = Ok (a, w') -> agree (k1 a) (k2 a)) ->
  agree (bind m1 k1) (bind m2 k2).
Proof.
  intros Hm Hk w. unfold bind. destruct (Hm w) as [E Hn]. rewrite <- E.
  destruct (m1 w) as [[a w1]|e] eqn:E1.
  - apply (Hk a w w1 E1).
  - split; [reflexivity|]. intros H. apply Hn. congruence.
Qed.

Lemma agree_ret {A : Type} (a : A) : agree (ret a) (ret a).
Proof. intros w. split; [reflexivity|discriminate]. Qed.

Lemma agree_raise {A : Type} (e : exn) :
  e <> OutOfFuel -> agree (@raise A e) (raise e).
Proof. intros H w. split; [reflexivity|]. unfold raise. congruence. Qed.

Lemma agree_lift {A : Type} (r : result A) :
  r <> Raise OutOfFuel -> agree (lift r) (lift r).
Proof.
  intros H w. split; [reflexivity|]. unfold lift.
  destruct r; [discriminate|congruence].
Qed.

Lemma agree_write (s : str) : agree (write s) (write s).
Proof. intros w. split; [reflexivity|discriminate]. Qed.

Lemma agree_indent (cfg : config) : agree (indent cfg) (indent cfg).
Proof.
  intros w. split; [reflexivity|]. unfold indent.
  destruct (skip_indent_until_write w); discriminate.
Qed.

Lemma agree_add_indent (d : Z) : agree (add_indent d) (add_indent d).
Proof. intros w. split; [reflexivity|discriminate]. Qed.

Lemma agree_for_each {A : Type} (l : list A) (b1 b2 : A -> M unit) :
  (forall a, In a l -> agree (b1 a) (b2 a)) ->
  agree (for_each l b1) (for_each l b2).
Proof.
  induction l as [|a l IH]; intros H; simpl.
  - apply agree_ret.
  - apply agree_bind; [apply H; left; reflexivity|].
    intros _. apply IH. intros x Hx. apply H. right. exact Hx.
Qed.

(** The scanning loop of [parse_args] raises nothing but [IndexError]. *)
Lemma scan_chars_raises (s : str) (st : scan) (e : exn) :
  scan_chars st s = Raise e -> e = IndexError.
Proof.
  revert st. induction s as [|c s IH]; intros st H; simpl in H.
  - discriminate.
  - destruct (scan_step st c) as [st'|e'] eqn:E.
    + apply (IH st'). exact H.
    + inversion H; subst e'. clear H. unfold scan_step in E.
      destruct (scan_stack st c) as [stk|e''] eqn:E2.
      * destruct ((length stk =? 1) && ch_eqb c ","%char); discriminate.
      * inversion E; subst e''. unfold scan_stack in E2.
        destruct (stack st) as [|top below]; [congruence|].
        repeat match type of E2 with
               | (if ?b then _ else _) = _ => destruct b
               end; discriminate.
Qed.

Lemma parse_args_raises (s : str) (e : exn) :
  parse_args s = Raise e -> e = IndexError.
Proof.
  unfold parse_args, split_arguments. intros H.
  destruct (scan_chars (mk_scan [Bottom] [] []) (isolate_arguments s))
    as [st|e'] eqn:E; [discriminate|].
  inversion H; subst e'. apply (scan_chars_raises _ _ _ E).
Qed.

Lemma parse_args_fuel (s : str) : parse_args s <> Raise OutOfFuel.
Proof. intros H. apply parse_args_raises in H. discriminate. Qed.
#[local] Hint Resolve parse_args_fuel : agreement.

Lemma print_nodes_split_raises (code : str) (e : exn) :
  print_nodes_split code = Raise e -> e = TypeError.
Proof.
  unfold print_nodes_split. intros H.
  destruct (split1 [NL] code) as [[first rest]|]; [|discriminate].
  destruct (parse_header first) as [[[a b] c]|]; [discriminate|].
  congruence.
Qed.

Lemma print_nodes_split_fuel (code : str) :
  print_nodes_split code <> Raise OutOfFuel.
Proof. intros H. apply print_nodes_split_raises in H. discriminate. Qed.
#[local] Hint Resolve print_nodes_split_fuel : agreement.

Ltac same :=
  lazymatch goal with
  | |- agree (bind _ _) (bind _ _) =>
      apply agree_bind; [same|intros ?; same]
  | |- agree (ret _) (ret _) => apply agree_ret
  | |- agree (raise _) (raise _) => apply agree_raise; discriminate
  | |- agree (lift _) (lift _) =>
      apply agree_lift; solve [eauto with agreement]
  | |- agree (write _) (write _) => apply agree_write
  | |- agree (indent _) (indent _) => apply agree_indent
  | |- agree (add_indent _) (add_indent _) => apply agree_add_indent
  | |- agree (for_each _ _) (for_each _ _) =>
      apply agree_for_each; intros ? ?; same
  | |- agree (if ?b then _ else _) (if ?b then _ else _) =>
      destruct b eqn:?; same
  | |- agree (match ?x with Some _ => _ | None => _ end)
             (match ?x with Some _ => _ | None => _ end) =>
      destruct x eqn:?; same
  | |- agree (match ?x with [] => _ | _ :: _ => _ end)
             (match ?x with [] => _ | _ :: _ => _ end) =>
      destruct x eqn:?; same
  | |- agree (let (_, _) := ?x in _) (let (_, _) := ?x in _) =>
      destruct x eqn:?; same
  | |- agree (let _ := _ in _) (let _ := _ in _) => cbv zeta; same
  | |- _ => try solve [eauto with agreement]
  end.

Lemma agree_print_python (cfg : config) (header code : str) :
  agree (print_python cfg header code) (print_python cfg header code).
Proof.
  unfold print_python. apply agree_bind; [apply agree_indent|]. intros _.
  destruct (contains [NL] (strip code)) eqn:E; [|apply agree_write].
  destruct (first_nonblank_exists code E) as [first Ef].
  unfold nonblank in Ef.
  change (find (fun line => negb (str_eqb (strip line) [])) (splitlines code)
          = Some first) in Ef.
  rewrite Ef. same.
Qed.
#[local] Hint Resolve agree_print_python : agreement.

Lemma agree_print_arguments (guard : str -> str) (cfg : config)
      (args : list str) (kwargs : list (str * str)) (multiline : bool) :
  agree (print_arguments guard cfg args kwargs multiline)
        (print_arguments guard cfg args kwargs multiline).
Proof. unfold print_arguments. same. Qed.
#[local] Hint Resolve agree_print_arguments : agreement.

Lemma agree_print_condition (statement line : str) :
  agree (print_condition statement line) (print_condition statement line).
Proof. unfold print_condition. same. Qed.
#[local] Hint Resolve agree_print_condition : agreement.

Lemma agree_print_use (cfg : config) (header code : str) :
  agree (print_use cfg header code) (print_use cfg header code).
Proof. unfold print_use. same. Qed.
#[local] Hint Resolve agree_print_use : agreement.

Lemma agree_print_default (cfg : config) (header code : str) :
  agree (print_default cfg header code) (print_default cfg header code).
Proof. unfold print_default. same. Qed.
#[local] Hint Resolve agree_print_default : agreement.

Lemma agree_print_hotspot (guard : str -> str) (cfg : config)
      (header code : str) :
  agree (print_hotspot guard cfg header code)
        (print_hotspot guard cfg header code).
Proof. unfold print_hotspot. same. Qed.
#[local] Hint Resolve agree_print_hotspot : agreement.

(** The length of a joined text. *)
Lemma total_app (a b : list str) : total (a ++ b) = total a + total b.
Proof. unfold total. rewrite concat_app, length_app. reflexivity. Qed.

Lemma total_cons (x : str) (l : list str) :
  total (x :: l) = length x + total l.
Proof. unfold total. simpl. rewrite length_app. reflexivity. Qed.

Lemma join_length (sep : str) (l : list str) :
  length (join sep l) = total l + length sep * pred (length l).
Proof.
  induction l as [|x l IH].
  - simpl. unfold total. simpl. lia.
  - destruct l as [|y l].
    + simpl. rewrite total_cons. unfold total. simpl. lia.
    + change (join sep (x :: y :: l)) with (x ++ sep ++ join sep (y :: l)).
      rewrite !length_app, IH, !total_cons. simpl length. simpl pred.
      rewrite Nat.mul_succ_r. lia.
Qed.

Lemma join_nl_length (l : list str) :
  length (join [NL] l) = total l + pred (length l).
Proof. rewrite join_length. simpl. lia. Qed.

Lemma splitlines_join_length (s : str) :
  length (join [NL] (splitlines s)) <= length s.
Proof.
  rewrite join_nl_length. induction s as [|c s IH]; simpl.
  - unfold total. simpl. lia.
  - destruct (ch_eqb c CR && startswith s [NL]); [lia|].
    destruct (is_linebreak c).
    + rewrite total_cons. simpl. lia.
    + destruct (splitlines s) as [|l ls].
      * unfold total. simpl. lia.
      * rewrite !total_cons in *. simpl in *. lia.
Qed.

Lemma total_removelast (l : list str) : total (removelast l) <= total l.
Proof.
  induction l as [|x l IH]; [simpl; lia|].
  destruct l as [|y l]; [simpl; rewrite total_cons; unfold total; simpl; lia|].
  change (removelast (x :: y :: l)) with (x :: removelast (y :: l)).
  rewrite !total_cons in *. lia.
Qed.

Lemma length_removelast (l : list str) :
  length (removelast l) = pred (length l).
Proof.
  induction l as [|x l IH]; [reflexivity|].
  destruct l as [|y l]; [reflexivity|].
  change (removelast (x :: y :: l)) with (x :: removelast (y :: l)).
  simpl length in *. rewrite IH. reflexivity.
Qed.

Section Agreement.

Variable guard : str -> str.
Variable cfg : config.
Variables rec1 rec2 : str -> Z -> M unit.
Variable n : nat.
Hypothesis rec_agree :
  forall code extra, length code <= n -> agree (rec1 code extra) (rec2 code extra).

Lemma agree_print_block (block : list str) :
  length (join [NL] block) <= n ->
  agree (print_block cfg rec1 block) (print_block cfg rec2 block).
Proof.
  intros H. unfold print_block. same.
  apply rec_agree. rewrite join_nl_length in *.
  destruct block as [|x block]; simpl in *; [lia|].
  rewrite total_cons in H. lia.
Qed.

Lemma agree_print_if_lines (if_indent last : nat) (lines : list str) :
  forall (i : nat) (block : list str),
    length (join [NL] (block ++ lines)) <= n ->
    agree (print_if_lines cfg rec1 if_indent last i lines block)
          (print_if_lines cfg rec2 if_indent last i lines block).
Proof.
  induction lines as [|line lines IH]; intros i block H; simpl.
  - apply agree_ret.
  - rewrite join_nl_length, total_app, length_app, total_cons in H.
    simpl in H.
    assert (Hb : length (join [NL] block) <= n).
    { rewrite join_nl_length. lia. }
    assert (Hl : length (join [NL] ([] ++ lines)) <= n).
    { rewrite join_nl_length. simpl. lia. }
    assert (Hbl : length (join [NL] (block ++ lines)) <= n).
    { rewrite join_nl_length, total_app, length_app. lia. }
    assert (Hb1 : length (join [NL] (block ++ [line])) <= n).
    { rewrite join_nl_length, total_app, length_app, total_cons.
      unfold total at 2. simpl. lia. }
    assert (Hb2 : length (join [NL] ((block ++ [line]) ++ lines)) <= n).
    { rewrite <- app_assoc. simpl.
      rewrite join_nl_length, total_app, length_app, total_cons.
      simpl. lia. }
    destruct (i =? 0).
    { apply agree_bind; [apply agree_print_condition|]. intros _.
      apply IH. exact Hbl. }
    destruct (startswith (slice_from if_indent line) (lit "elif")).
    { apply agree_bind; [apply agree_print_block; exact Hb|]. intros _.
      apply agree_bind; [apply agree_indent|]. intros _.
      apply agree_bind; [apply agree_print_condition|]. intros _.
      apply IH. exact Hl. }
    destruct (startswith (slice_from if_indent line) (lit "else")).
    { apply agree_bind; [apply agree_print_block; exact Hb|]. intros _.
      apply agree_bind; [apply agree_indent|]. intros _.
      apply agree_bind; [apply agree_write|]. intros _.
      apply IH. exact Hl. }
    destruct (i =? last).
    { apply agree_bind; [apply agree_print_block; exact Hb1|]. intros _.
      apply IH. exact Hb2. }
    apply IH. exact Hb2.
Qed.

Lemma agree_print_if (header code : str) :
  length code <= n ->
  agree (print_if cfg rec1 header code) (print_if cfg rec2 header code).
Proof.
  intros H. unfold print_if. same.
  apply agree_print_if_lines. simpl.
  pose proof (splitlines_join_length code). lia.
Qed.

Lemma agree_print_for (header code : str) :
  length code <= n ->
  agree (print_for cfg rec1 header code) (print_for cfg rec2 header code).
Proof.
  intros H. unfold print_for. same.
  apply agree_print_block.
  pose proof (splitlines_join_length code) as Hj.
  rewrite join_nl_length in *. rewrite length_removelast.
  pose proof (total_removelast (tl (splitlines code))) as Ht.
  destruct (splitlines code) as [|x l]; simpl in *; [lia|].
  rewrite total_cons in Hj. lia.
Qed.

Lemma agree_print_ui (header code : str) :
  length code <= n ->
  agree (print_ui guard cfg rec1 header code)
        (print_ui guard cfg rec2 header code).
Proof.
  intros H. unfold print_ui.
  assert (Hb : forall line block,
             match split1 [NL] code with
             | Some (l, b) => (l, b)
             | None => (code, [])
             end = (line, block) -> length block <= n).
  { intros line block E.
    destruct (split1 [NL] code) as [[l b]|] eqn:Es.
    - inversion E; subst. apply split1_sound in Es.
      apply (f_equal (@length ascii)) in Es.
      rewrite !length_app in Es. lia.
    - inversion E; subst. simpl. lia. }
  destruct (match split1 [NL] code with
            | Some (l, b) => (l, b)
            | None => (code, [])
            end) as [line block] eqn:E.
  specialize (Hb line block eq_refl).
  same. apply rec_agree.
  destruct (split1 [NL] block) as [[b0 b1]|] eqn:Es.
  - destruct (contains (lit "ui.child_or_fixed()") b0); [|exact Hb].
    apply split1_sound in Es. apply (f_equal (@length ascii)) in Es.
    rewrite !length_app in Es. lia.
  - destruct (contains (lit "ui.child_or_fixed()") block);
      [simpl; lia|exact Hb].
Qed.

Lemma agree_print_node (header code : str) :
  length code <= n ->
  agree (print_node guard cfg rec1 header code)
        (print_node guard cfg rec2 header code).
Proof.
  intros H. unfold print_node.
  apply agree_bind_ok; [same|].
  intros c w w' E.
  assert (Hc : length c <= n).
  { destruct (is_loop_marker code).
    - destruct (split1 [NL] code) as [[a b]|] eqn:Es; [|discriminate].
      inversion E; subst. apply split1_sound in Es.
      apply (f_equal (@length ascii)) in Es.
      rewrite !length_app in Es. lia.
    - inversion E; subst. exact H. }
  destruct (select_handler dispatch c) as [func|].
  - destruct func; simpl.
    + apply agree_print_if. exact Hc.
    + apply agree_print_for. exact Hc.
    + apply agree_print_use.
    + apply agree_print_default.
    + apply agree_print_hotspot.
    + apply agree_print_ui. exact Hc.
  - apply agree_print_python.
Qed.

Lemma agree_print_nodes_body (code : str) (extra : Z) :
  length code <= S n ->
  agree (print_nodes_body guard cfg rec1 code extra)
        (print_nodes_body guard cfg rec2 code extra).
Proof.
  intros H. unfold print_nodes_body.
  destruct (split1 [NL] code) as [[first rest]|] eqn:Es; [|apply agree_ret].
  apply agree_bind_ok; [same|].
  intros nodes w w' En. unfold lift in En.
  destruct (print_nodes_split code) as [nodes'|e] eqn:En'; [|discriminate].
  inversion En; subst nodes' w'. clear En. rename En' into En.
  apply agree_bind; [apply agree_add_indent|]. intros _.
  apply agree_bind; [|intros _; apply agree_add_indent].
  apply agree_for_each. intros [h c] Hin. simpl.
  apply agree_print_node.
  unfold print_nodes_split in En. rewrite Es in En.
  destruct (parse_header first) as [[[own P] index]|]; [|discriminate].
  inversion En; subst nodes. clear En. unfold re_split in Hin.
  destruct (re_split_slices _ _ _ _ _ (header_of_at_is_sound P) Hin)
    as [pre [post E]].
  destruct (re_split_headers _ _ _ _ _ (header_of_at_is_sound P) Hin)
    as [s' [m [Hm Eh]]].
  apply header_of_at_sound in Hm.
  destruct Hm as [n1 [u [n2 [nl [_ [_ [_ [Ht _]]]]]]]].
  pose proof (header_line_nonempty n1 (h_own m) P u (h_index m) n2 nl)
    as Hne.
  rewrite <- Ht, <- Eh in Hne.
  apply (f_equal (@length ascii)) in E. rewrite !length_app in E.
  destruct h; [congruence|simpl in E; lia].
Qed.

End Agreement.

Lemma print_nodes_agree (guard : str -> str) (cfg : config) (f1 : nat) :
  forall (f2 : nat) (code : str) (extra : Z),
    length code < f1 -> length code < f2 ->
    agree (print_nodes guard cfg f1 code extra)
          (print_nodes guard cfg f2 code extra).
Proof.
  induction f1 as [|f1 IH]; intros f2 code extra H1 H2; [lia|].
  destruct f2 as [|f2]; [lia|]. simpl.
  destruct code as [|c0 code]; [apply agree_ret|].
  apply (agree_print_nodes_body guard cfg _ _ (length code)).
  - intros c e Hc. simpl in H1, H2. apply IH; lia.
  - simpl. lia.
Qed.

(** The recursion of [print_nodes] through [print_node], [print_ui],
    [print_if], [print_for] and [print_block] ends on every text: each
    nested call of [print_nodes] is on a text shorter than the text of the
    call around it, so the calls never nest deeper than the length of the
    text plus one.  With that much fuel the model does not run out, and
    more fuel changes nothing. *)
Theorem print_nodes_terminates (guard : str -> str) (cfg : config)
        (code : str) (extra : Z) (w : wstate) (n : nat) :
  print_nodes guard cfg (S (length code) + n) code extra w
  = print_nodes guard cfg (S (length code)) code extra w
  /\ print_nodes guard cfg (S (length code)) code extra w
     <> Raise OutOfFuel.
Proof.
  destruct (print_nodes_agree guard cfg (S (length code))
              (S (length code) + n) code extra
              (Nat.lt_succ_diag_r _) ltac:(lia) w) as [E H].
  split; [symmetry; exact E|exact H].
Qed.

(** ** The exceptions of the printers *)

Create HintDb failures.

Section Failures.

Variable P : exn -> Prop.

Lemma raises_bind {A B : Type} (m : M A) (k : A -> M B) :
  raises_only P m -> (forall a, raises_only P (k a)) ->
  raises_only P (bind m k).
Proof.
  intros Hm Hk w e H. unfold bind in H.
  destruct (m w) as [[a w1]|e1] eqn:E.
  - apply (Hk a w1 e H).
  - inversion H; subst. apply (Hm w e E).
Qed.

Lemma raises_ret {A : Type} (a : A) : raises_only P (ret a).
Proof. intros w e H. discriminate. Qed.

Lemma raises_raise {A : Type} (e : exn) : P e -> raises_only P (@raise A e).
Proof. intros He w e' H. inversion H; subst. exact He. Qed.

Lemma raises_lift {A : Type} (r : result A) :
  (forall e, r = Raise e -> P e) -> raises_only P (lift r).
Proof.
  intros Hr w e H. unfold lift in H. destruct r; [discriminate|].
  inversion H; subst. apply Hr. reflexivity.
Qed.

Lemma raises_write (s : str) : raises_only P (write s).
Proof. intros w e H. discriminate. Qed.

Lemma raises_indent (cfg : config) : raises_only P (indent cfg).
Proof.
  intros w e H. unfold indent in H.
  destruct (skip_indent_until_write w); discriminate.
Qed.

Lemma raises_add_indent (d : Z) : raises_only P (add_indent d).
Proof. intros w e H. discriminate. Qed.

Lemma raises_for_each {A : Type} (l : list A) (body : A -> M unit) :
  (forall a, raises_only P (body a)) -> raises_only P (for_each l body).
Proof.
  intros H. induction l as [|a l IH]; simpl.
  - apply raises_ret.
  - apply raises_bind; [apply H|intros _; exact IH].
Qed.

End Failures.

Ltac fails :=
  lazymatch goal with
  | |- raises_only _ (bind _ _) =>
      apply raises_bind; [fails|intros ?; fails]
  | |- raises_only _ (ret _) => apply raises_ret
  | |- raises_only _ (raise _) =>
      apply raises_raise; unfold input_error; tauto
  | |- raises_only _ (lift _) =>
      apply raises_lift; solve [eauto with failures]
  | |- raises_only _ (write _) => apply raises_write
  | |- raises_only _ (indent _) => apply raises_indent
  | |- raises_only _ (add_indent _) => apply raises_add_indent
  | |- raises_only _ (for_each _ _) =>
      apply raises_for_each; intros ?; fails
  | |- raises_only _ (if ?b then _ else _) => destruct b eqn:?; fails
  | |- raises_only _ (match ?x with Some _ => _ | None => _ end) =>
      destruct x eqn:?; fails
  | |- raises_only _ (match ?x with [] => _ | _ :: _ => _ end) =>
      destruct x eqn:?; fails
  | |- raises_only _ (let (_, _) := ?x in _) => destruct x eqn:?; fails
  | |- raises_only _ (let _ := _ in _) => cbv zeta; fails
  | |- _ => try solve [eauto with failures]
  end.

Lemma parse_args_input_error (s : str) (e : exn) :
  parse_args s = Raise e -> input_error e.
Proof.
  intros H. apply parse_args_raises in H. subst e. right. left. reflexivity.
Qed.
#[local] Hint Resolve parse_args_input_error : failures.

Lemma print_nodes_split_input_error (code : str) (e : exn) :
  print_nodes_split code = Raise e -> input_error e.
Proof.
  intros H. apply print_nodes_split_raises in H. subst e. left. reflexivity.
Qed.
#[local] Hint Resolve print_nodes_split_input_error : failures.

Lemma fails_print_python (cfg : config) (header code : str) :
  raises_only input_error (print_python cfg header code).
Proof.
  unfold print_python. apply raises_bind; [apply raises_indent|]. intros _.
  destruct (contains [NL] (strip code)) eqn:E; [|apply raises_write].
  destruct (first_nonblank_exists code E) as [first Ef].
  unfold nonblank in Ef.
  change (find (fun line => negb (str_eqb (strip line) [])) (splitlines code)
          = Some first) in Ef.
  rewrite Ef. fails.
Qed.
#[local] Hint Resolve fails_print_python : failures.

Lemma fails_print_arguments (guard : str -> str) (cfg : config)
      (args : list str) (kwargs : list (str * str)) (multiline : bool) :
  raises_only input_error (print_arguments guard cfg args kwargs multiline).
Proof. unfold print_arguments. fails. Qed.
#[local] Hint Resolve fails_print_arguments : failures.

Lemma fails_print_condition (statement line : str) :
  raises_only input_error (print_condition statement line).
Proof. unfold print_condition. fails. Qed.
#[local] Hint Resolve fails_print_condition : failures.

Lemma fails_print_use (cfg : config) (header code : str) :
  raises_only input_error (print_use cfg header code).
Proof. unfold print_use. fails. Qed.
#[local] Hint Resolve fails_print_use : failures.

Lemma fails_print_default (cfg : config) (header code : str) :
  raises_only input_error (print_default cfg header code).
Proof. unfold print_default. fails. Qed.
#[local] Hint Resolve fails_print_default : failures.

Lemma fails_print_hotspot (guard : str -> str) (cfg : config)
      (header code : str) :
  raises_only input_error (print_hotspot guard cfg header code).
Proof. unfold print_hotspot. fails. Qed.
#[local] Hint Resolve fails_print_hotspot : failures.

Section Recursion.

Variable guard : str -> str.
Variable cfg : config.
Variable rec : str -> Z -> M unit.
Variable P : exn -> Prop.
Hypothesis P_input : forall e, input_error e -> P e.
Hypothesis rec_fails : forall code extra, raises_only P (rec code extra).

Lemma raises_weaken {A : Type} (m : M A) :
  raises_only input_error m -> raises_only P m.
Proof. intros H w e E. apply P_input. apply (H w e E). Qed.

Lemma fails_print_block (block : list str) :
  raises_only P (print_block cfg rec block).
Proof.
  unfold print_block.
  repeat match goal with
         | |- raises_only _ (if ?b then _ else _) => destruct b
         end; try apply rec_fails.
  apply raises_weaken. fails.
Qed.

Lemma fails_print_if_lines (if_indent last : nat) (lines : list str) :
  forall i block,
    raises_only P (print_if_lines cfg rec if_indent last i lines block).
Proof.
  induction lines as [|line lines IH]; intros i block; simpl.
  - apply raises_ret.
  - repeat match goal with
           | |- raises_only _ (if ?b then _ else _) => destruct b
           | |- raises_only _ (bind _ _) => apply raises_bind; [|intros _]
           | |- raises_only _ (print_block _ _ _) => apply fails_print_block
           | |- raises_only _ (print_if_lines _ _ _ _ _ _ _) => apply IH
           | |- raises_only _ (print_condition _ _) =>
               apply raises_weaken; apply fails_print_condition
           | |- raises_only _ (indent _) => apply raises_indent
           | |- raises_only _ (write _) => apply raises_write
           end.
Qed.

Lemma fails_print_if (header code : str) :
  raises_only P (print_if cfg rec header code).
Proof.
  unfold print_if. destruct (nth_error (splitlines code) 1).
  - destruct (negb (is_header s)).
    + apply raises_weaken. apply fails_print_python.
    + apply raises_bind; [apply raises_indent|intros _].
      apply fails_print_if_lines.
  - apply raises_raise. apply P_input. right. left. reflexivity.
Qed.

Lemma fails_print_for (header code : str) :
  raises_only P (print_for cfg rec header code).
Proof.
  unfold print_for. destruct (nth_error (splitlines code) 1).
  - destruct (negb (is_header s)).
    + apply raises_weaken. apply fails_print_python.
    + apply raises_bind; [apply raises_indent|intros _].
      apply raises_bind;
        [apply raises_weaken; apply fails_print_condition|intros _].
      apply fails_print_block.
  - apply raises_raise. apply P_input. right. left. reflexivity.
Qed.

Lemma fails_print_ui (header code : str) :
  raises_only P (print_ui guard cfg rec header code).
Proof.
  unfold print_ui.
  destruct (match split1 [NL] code with
            | Some (l, b) => (l, b)
            | None => (code, [])
            end) as [line block].
  destruct (split1 (lit "ui.") line) as [[pre after]|].
  - apply raises_bind; [apply raises_indent|intros _].
    apply raises_bind; [apply raises_write|intros _].
    apply raises_bind.
    + apply raises_lift. intros e H. apply P_input.
      apply (parse_args_input_error _ _ H).
    + intros a. apply raises_bind; [|intros _; apply rec_fails].
      apply raises_weaken. apply fails_print_arguments.
  - apply raises_raise. apply P_input. right. left. reflexivity.
Qed.

Lemma fails_print_node (header code : str) :
  raises_only P (print_node guard cfg rec header code).
Proof.
  unfold print_node. apply raises_bind.
  - destruct (is_loop_marker code); [|apply raises_ret].
    destruct (split1 [NL] code) as [[a b]|]; [apply raises_ret|].
    apply raises_raise. apply P_input. right. right. reflexivity.
  - intros c. destruct (select_handler dispatch c) as [func|].
    + destruct func; simpl.
      * apply fails_print_if.
      * apply fails_print_for.
      * apply raises_weaken. apply fails_print_use.
      * apply raises_weaken. apply fails_print_default.
      * apply raises_weaken. apply fails_print_hotspot.
      * apply fails_print_ui.
    + apply raises_weaken. apply fails_print_python.
Qed.

Lemma fails_print_nodes_body (code : str) (extra : Z) :
  raises_only P (print_nodes_body guard cfg rec code extra).
Proof.
  unfold print_nodes_body.
  destruct (split1 [NL] code); [|apply raises_ret].
  apply raises_bind.
  - apply raises_lift. intros e H. apply P_input.
    apply (print_nodes_split_input_error _ _ H).
  - intros nodes.
    apply raises_bind; [apply raises_add_indent|intros _].
    apply raises_bind; [|intros _; apply raises_add_indent].
    apply raises_for_each. intros hc. apply fails_print_node.
Qed.

End Recursion.

Lemma fails_print_nodes (guard : str -> str) (cfg : config) (fuel : nat) :
  forall code extra,
    raises_only (fun e => input_error e \/ e = OutOfFuel)
                (print_nodes guard cfg fuel code extra).
Proof.
  induction fuel as [|fuel IH]; intros code extra; simpl.
  - apply raises_raise. right. reflexivity.
  - apply fails_print_nodes_body; [intros e H; left; exact H|exact IH].
Qed.

(** [print_nodes] returns or raises one of three exceptions, whatever the
    text: [TypeError] (a first line that is not a header), [IndexError]
    (a missing line, argument or name) or [ValueError] (a failed
    unpacking).  The generator of [print_python] always finds its line, so
    [StopIteration] never escapes. *)
Theorem print_nodes_exceptions (guard : str -> str) (cfg : config)
        (code : str) (extra : Z) (w : wstate) :
  (exists w', print_nodes guard cfg (S (length code)) code extra w
              = Ok (tt, w'))
  \/ print_nodes guard cfg (S (length code)) code extra w = Raise TypeError
  \/ print_nodes guard cfg (S (length code)) code extra w = Raise IndexError
  \/ print_nodes guard cfg (S (length code)) code extra w = Raise ValueError.
Proof.
  destruct (print_nodes_agree guard cfg (S (length code)) (S (length code))
              code extra (Nat.lt_succ_diag_r _) (Nat.lt_succ_diag_r _) w)
    as [_ Hf].
  pose proof (fails_print_nodes guard cfg (S (length code)) code extra w)
    as He.
  destruct (print_nodes guard cfg (S (length code)) code extra w)
    as [[[] w']|e].
  - left. eauto.
  - right. destruct (He e eq_refl) as [[H|[H|H]]|H]; subst e; auto.
    congruence.
Qed.

(** ** Lists of arguments *)

(** *** Steps of the scanning loop *)

Lemma opener_not_quote (c : ascii) : is_opener c = true -> is_quote c = false.
Proof.
  unfold is_opener. intros H.
  repeat (apply orb_true_iff in H; destruct H as [H|H]);
    apply ch_eqb_eq in H; subst c; reflexivity.
Qed.

Lemma closer_not_quote (c : ascii) : is_closer c = true -> is_quote c = false.
Proof.
  unfold is_closer. intros H.
  repeat (apply orb_true_iff in H; destruct H as [H|H]);
    apply ch_eqb_eq in H; subst c; reflexivity.
Qed.

Lemma closer_not_opener (c : ascii) :
  is_closer c = true -> is_opener c = false.
Proof.
  unfold is_closer. intros H.
  repeat (apply orb_true_iff in H; destruct H as [H|H]);
    apply ch_eqb_eq in H; subst c; reflexivity.
Qed.

Lemma closer_not_comma (c : ascii) :
  is_closer c = true -> ch_eqb c ","%char = false.
Proof.
  unfold is_closer. intros H.
  repeat (apply orb_true_iff in H; destruct H as [H|H]);
    apply ch_eqb_eq in H; subst c; reflexivity.
Qed.

Lemma quote_not_comma (c : ascii) :
  is_quote c = true -> ch_eqb c ","%char = false.
Proof.
  unfold is_quote. intros H.
  repeat (apply orb_true_iff in H; destruct H as [H|H]);
    apply ch_eqb_eq in H; subst c; reflexivity.
Qed.

Lemma quote_not_backslash (c : ascii) :
  is_quote c = true -> ch_eqb c BSL = false.
Proof.
  unfold is_quote. intros H.
  repeat (apply orb_true_iff in H; destruct H as [H|H]);
    apply ch_eqb_eq in H; subst c; reflexivity.
Qed.

Lemma plain_parts (c : ascii) :
  plain c = true ->
  is_quote c = false /\ is_opener c = false /\ is_closer c = false.
Proof.
  unfold plain. intros H. apply negb_true_iff in H.
  apply orb_false_iff in H. destruct H as [H Hc].
  apply orb_false_iff in H. destruct H as [Hq Ho]. auto.
Qed.

(** A plain character is kept; the stack stays. *)
Lemma scan_step_plain (c : ascii) (top : frame) (below : list frame)
      (cur : str) (args : list str) :
  plain c = true -> frame_is_quote top = false ->
  (length (top :: below) =? 1) && ch_eqb c ","%char = false ->
  scan_step (mk_scan (top :: below) cur args) c
  = Ok (mk_scan (top :: below) (cur ++ [c]) args).
Proof.
  intros Hp Ht Hs. destruct (plain_parts c Hp) as [Hq [Ho Hc]].
  unfold scan_step, scan_stack. cbn [stack current_parse arguments].
  rewrite Hq, Ht, Ho, Hc. cbn [negb]. rewrite Hs. reflexivity.
Qed.

(** Outside a string, a quote or an opening character is pushed. *)
Lemma scan_step_push (c : ascii) (top : frame) (below : list frame)
      (cur : str) (args : list str) :
  is_quote c = true \/ is_opener c = true -> frame_is_quote top = false ->
  scan_step (mk_scan (top :: below) cur args) c
  = Ok (mk_scan (Open c :: top :: below) (cur ++ [c]) args).
Proof.
  intros Hc Ht. unfold scan_step, scan_stack.
  cbn [stack current_parse arguments]. rewrite Ht. cbn [negb].
  destruct Hc as [Hc|Hc].
  - rewrite Hc. reflexivity.
  - rewrite (opener_not_quote c Hc), Hc. reflexivity.
Qed.

(** Outside a string, a closing character pops the stack. *)
Lemma scan_step_pop (c : ascii) (top : frame) (below : list frame)
      (cur : str) (args : list str) :
  is_closer c = true -> frame_is_quote top = false ->
  scan_step (mk_scan (top :: below) cur args) c
  = Ok (mk_scan below (cur ++ [c]) args).
Proof.
  intros Hc Ht. unfold scan_step, scan_stack.
  cbn [stack current_parse arguments]. rewrite Ht. cbn [negb].
  rewrite (closer_not_quote c Hc), (closer_not_opener c Hc), Hc.
  rewrite (closer_not_comma c Hc), andb_false_r. reflexivity.
Qed.

(** Inside a string every character but its quote is kept. *)
Lemma scan_chars_string (q : ascii) (inner : str) (below : list frame)
      (args : list str) :
  is_quote q = true -> lacks q inner = true -> below <> [] ->
  forall cur,
    scan_chars (mk_scan (Open q :: below) cur args) inner
    = Ok (mk_scan (Open q :: below) (cur ++ inner) args).
Proof.
  intros Hq Hl Hb. induction inner as [|c inner IH]; intros cur.
  - simpl. rewrite app_nil_r. reflexivity.
  - unfold lacks in Hl. simpl in Hl. apply andb_true_iff in Hl.
    destruct Hl as [Hc Hl]. apply negb_true_iff in Hc.
    assert (E : scan_step (mk_scan (Open q :: below) cur args) c
                = Ok (mk_scan (Open q :: below) (cur ++ [c]) args)).
    { assert (Ef : ch_eqb q c = false).
      { apply ch_eqb_neq. apply ch_eqb_neq in Hc. congruence. }
      unfold scan_step, scan_stack. cbn [stack current_parse arguments].
      cbn [frame_is_quote frame_is]. rewrite Hq, Ef. cbn [negb andb].
      destruct below as [|b below]; [congruence|].
      destruct (is_quote c); reflexivity. }
    simpl scan_chars. rewrite E. rewrite (IH Hl (cur ++ [c])).
    rewrite <- app_assoc. reflexivity.
Qed.

(** After a string body without a backslash, the quote closes the
    string. *)
Lemma scan_step_unquote (q : ascii) (inner pre : str) (below : list frame)
      (args : list str) :
  is_quote q = true -> lacks BSL inner = true ->
  scan_step (mk_scan (Open q :: below) ((pre ++ [q]) ++ inner) args) q
  = Ok (mk_scan below (((pre ++ [q]) ++ inner) ++ [q]) args).
Proof.
  intros Hq Hb.
  assert (Ec : Nat.even (count_trailing_slashes ((pre ++ [q]) ++ inner))
               = true).
  { destruct inner as [|x inner _] using rev_ind.
    - rewrite app_nil_r, count_trailing_slashes_none; [reflexivity|].
      apply quote_not_backslash. exact Hq.
    - rewrite app_assoc, count_trailing_slashes_none; [reflexivity|].
      unfold lacks in Hb. rewrite forallb_app in Hb.
      apply andb_true_iff in Hb. destruct Hb as [_ Hb]. simpl in Hb.
      rewrite andb_true_r in Hb. apply negb_true_iff in Hb. exact Hb. }
  unfold scan_step, scan_stack. cbn [stack current_parse arguments].
  cbn [frame_is_quote frame_is]. rewrite Hq, ch_eqb_refl, Ec.
  cbn [negb andb]. rewrite (quote_not_comma q Hq), andb_false_r.
  reflexivity.
Qed.

(** A string, from its opening quote to its closing quote. *)
Lemma scan_chars_quoted (q : ascii) (inner : str) (top : frame)
      (below : list frame) (cur : str) (args : list str) :
  is_quote q = true -> lacks q inner = true -> lacks BSL inner = true ->
  frame_is_quote top = false ->
  scan_chars (mk_scan (top :: below) cur args) (q :: inner ++ [q])
  = Ok (mk_scan (top :: below) (cur ++ q :: inner ++ [q]) args).
Proof.
  intros Hq Hl Hb Ht. simpl scan_chars.
  rewrite (scan_step_push q top below cur args (or_introl Hq) Ht).
  rewrite (scan_chars_app _ _ _ _
             (scan_chars_string q inner (top :: below) args Hq Hl
                ltac:(discriminate) (cur ++ [q]))).
  simpl scan_chars. rewrite (scan_step_unquote q inner cur _ args Hq Hb).
  repeat rewrite <- app_assoc. reflexivity.
Qed.

(** Closed text inside a container is kept whole, commas included. *)
Lemma scan_chars_closed (s : str) :
  closed_text s ->
  forall top below cur args,
    frame_is_quote top = false -> below <> [] ->
    scan_chars (mk_scan (top :: below) cur args) s
    = Ok (mk_scan (top :: below) (cur ++ s) args).
Proof.
  induction 1 as [|c s Hp Hs IH|q inner s Hq Hl Hb Hs IH
                  |o c inner s Ho Hc Hin IHin Hs IH];
    intros top below cur args Ht Hne.
  - simpl. rewrite app_nil_r. reflexivity.
  - simpl scan_chars. rewrite scan_step_plain; [|exact Hp|exact Ht|].
    + rewrite IH by assumption. rewrite <- app_assoc. reflexivity.
    + destruct below; [congruence|reflexivity].
  - replace (q :: inner ++ q :: s) with ((q :: inner ++ [q]) ++ s)
      by (simpl; rewrite <- app_assoc; reflexivity).
    rewrite (scan_chars_app _ _ _ _
               (scan_chars_quoted q inner top below cur args Hq Hl Hb Ht)).
    rewrite IH by assumption. rewrite <- app_assoc. reflexivity.
  - simpl scan_chars.
    rewrite (scan_step_push o top below cur args (or_intror Ho) Ht).
    rewrite (scan_chars_app _ _ _ _
               (IHin (Open o) (top :: below) (cur ++ [o]) args
                  (opener_not_quote o Ho) ltac:(discriminate))).
    simpl scan_chars.
    rewrite (scan_step_pop c (Open o) (top :: below) _ args Hc
               (opener_not_quote o Ho)).
    rewrite IH by assumption. repeat rewrite <- app_assoc. reflexivity.
Qed.

(** The text of an argument is kept whole at top level. *)
Lemma scan_chars_argument (s : str) :
  argument_text s ->
  forall cur args,
    scan_chars (mk_scan [Bottom] cur args) s
    = Ok (mk_scan [Bottom] (cur ++ s) args).
Proof.
  induction 1 as [|c s Hp Hk Hs IH|q inner s Hq Hl Hb Hs IH
                  |o c inner s Ho Hc Hin Hs IH];
    intros cur args.
  - simpl. rewrite app_nil_r. reflexivity.
  - simpl scan_chars. rewrite scan_step_plain; [|exact Hp|reflexivity|].
    + rewrite IH. rewrite <- app_assoc. reflexivity.
    + rewrite Hk. apply andb_false_r.
  - replace (q :: inner ++ q :: s) with ((q :: inner ++ [q]) ++ s)
      by (simpl; rewrite <- app_assoc; reflexivity).
    rewrite (scan_chars_app _ _ _ _
               (scan_chars_quoted q inner Bottom [] cur args Hq Hl Hb
                  eq_refl)).
    rewrite IH. rewrite <- app_assoc. reflexivity.
  - simpl scan_chars.
    rewrite (scan_step_push o Bottom [] cur args (or_intror Ho) eq_refl).
    rewrite (scan_chars_app _ _ _ _
               (scan_chars_closed inner Hin (Open o) [Bottom] (cur ++ [o])
                  args (opener_not_quote o Ho) ltac:(discriminate))).
    simpl scan_chars.
    rewrite (scan_step_pop c (Open o) [Bottom] _ args Hc
               (opener_not_quote o Ho)).
    rewrite IH. repeat rewrite <- app_assoc. reflexivity.
Qed.

(** Arguments joined by commas are split at these commas. *)
Lemma scan_chars_join (rest : list str) :
  Forall argument_text rest ->
  forall a cur acc,
    argument_text a ->
    exists st,
      scan_chars (mk_scan [Bottom] cur acc) (join (lit ",") (a :: rest))
      = Ok st
      /\ arguments st ++ [strip (current_parse st)]
         = acc ++ strip (cur ++ a) :: map strip rest.
Proof.
  induction 1 as [|b rest Hb Hrest IH]; intros a cur acc Ha.
  - simpl join. rewrite (scan_chars_argument a Ha). eexists.
    split; reflexivity.
  - change (join (lit ",") (a :: b :: rest))
      with (a ++ ","%char :: join (lit ",") (b :: rest)).
    rewrite (scan_chars_app _ _ _ _ (scan_chars_argument a Ha cur acc)).
    simpl scan_chars.
    change (scan_step (mk_scan [Bottom] (cur ++ a) acc) ","%char)
      with (Ok (mk_scan [Bottom] [] (acc ++ [strip (cur ++ a)]))).
    destruct (IH b [] (acc ++ [strip (cur ++ a)]) Hb) as [st [E H]].
    exists st. split; [exact E|]. rewrite H. rewrite <- app_assoc.
    reflexivity.
Qed.

Lemma split_arguments_join (a : str) (rest : list str) :
  Forall argument_text (a :: rest) ->
  split_arguments (join (lit ",") (a :: rest)) = Ok (map strip (a :: rest)).
Proof.
  intros H. inversion H as [|x l Ha Hrest]; subst.
  destruct (scan_chars_join rest Hrest a [] [] Ha) as [st [E Hst]].
  unfold split_arguments. rewrite E. rewrite Hst. reflexivity.
Qed.

(** A text of plain characters is closed, and an argument when it holds
    no comma. *)
Lemma closed_text_plain (s : str) : forallb plain s = true -> closed_text s.
Proof.
  induction s as [|c s IH]; intros H; [constructor|].
  simpl in H. apply andb_true_iff in H. destruct H as [Hc H].
  apply closed_plain; auto.
Qed.

Lemma argument_text_plain (s : str) :
  forallb (fun c => plain c && negb (ch_eqb c ","%char)) s = true ->
  argument_text s.
Proof.
  induction s as [|c s IH]; intros H; [constructor|].
  simpl in H. apply andb_true_iff in H. destruct H as [Hc H].
  apply andb_true_iff in Hc. destruct Hc as [Hp Hk].
  apply negb_true_iff in Hk. apply argument_plain; auto.
Qed.

(** *** Cutting a text at a character *)

Lemma ch_eqb_sym (a b : ascii) : ch_eqb a b = ch_eqb b a.
Proof.
  destruct (ch_eqb a b) eqn:E.
  - apply ch_eqb_eq in E. subst. symmetry. apply ch_eqb_refl.
  - symmetry. apply ch_eqb_neq. apply ch_eqb_neq in E. congruence.
Qed.

(** [s.split(c, 1)] cuts at the first occurrence of the character. *)
Lemma split1_char (c : ascii) (a b : str) :
  lacks c a = true -> split1 [c] (a ++ c :: b) = Some (a, b).
Proof.
  induction a as [|x a IH]; intros H.
  - simpl. rewrite ch_eqb_refl. destruct b; reflexivity.
  - unfold lacks in H. simpl in H. apply andb_true_iff in H.
    destruct H as [Hx H]. apply negb_true_iff in Hx.
    rewrite ch_eqb_sym in Hx.
    simpl. rewrite Hx. rewrite (IH H). reflexivity.
Qed.

Lemma split1_char_none (c : ascii) (a : str) :
  lacks c a = true -> split1 [c] a = None.
Proof.
  induction a as [|x a IH]; intros H.
  - reflexivity.
  - unfold lacks in H. simpl in H. apply andb_true_iff in H.
    destruct H as [Hx H]. apply negb_true_iff in Hx.
    rewrite ch_eqb_sym in Hx.
    simpl. rewrite Hx. rewrite (IH H). reflexivity.
Qed.

Lemma lacks_rev (c : ascii) (s : str) : lacks c (rev s) = lacks c s.
Proof. apply forallb_rev. Qed.

(** [s.rsplit(c, 1)] cuts at the last occurrence of the character. *)
Lemma rsplit1_char (c : ascii) (a b : str) :
  lacks c b = true -> rsplit1 [c] (a ++ c :: b) = Some (a, b).
Proof.
  intros H. unfold rsplit1. simpl rev at 1.
  rewrite rev_app_distr. simpl rev at 1. rewrite <- app_assoc. simpl app.
  rewrite split1_char by (rewrite lacks_rev; exact H).
  rewrite !rev_involutive. reflexivity.
Qed.

(** The argument text of a call on one line: what stands between the
    first opening parenthesis and the last closing one. *)
Lemma isolate_arguments_call (name inner : str) :
  lacks "("%char name = true -> lacks NL name = true ->
  lacks NL inner = true ->
  isolate_arguments (name ++ lit "(" ++ inner ++ lit ")") = inner.
Proof.
  intros Hp Hn Hi. unfold isolate_arguments.
  change (lit "(") with ["("%char]. change (lit ")") with [")"%char].
  assert (Hl : lacks NL (name ++ ["("%char] ++ inner ++ [")"%char]) = true).
  { rewrite !lacks_app, Hn, Hi. reflexivity. }
  rewrite (span_all _ _ Hl). simpl fst. simpl app.
  rewrite (split1_char "("%char name _ Hp).
  rewrite (rsplit1_char ")"%char inner [] eq_refl). reflexivity.
Qed.

(** A text without parentheses is taken whole. *)
Lemma isolate_arguments_plain (s : str) :
  lacks "("%char s = true -> isolate_arguments s = s.
Proof.
  intros H. unfold isolate_arguments.
  destruct (span_spec (fun c => negb (ch_eqb c NL)) s) as [Es _].
  assert (Hl : lacks "("%char (fst (span (fun c => negb (ch_eqb c NL)) s))
               = true).
  { rewrite Es, lacks_app in H. apply andb_true_iff in H. apply H. }
  change (lit "(") with ["("%char]. rewrite (split1_char_none _ _ Hl).
  reflexivity.
Qed.

(** A call on one line whose arguments are closed texts separated by
    commas parses to these arguments, stripped and classified in their
    order: the commas between them are the only places where the text is
    cut, whatever commas, quotes and brackets the arguments hold inside
    their strings and containers. *)
Theorem parse_args_call (name a : str) (rest : list str) :
  lacks "("%char name = true -> lacks NL name = true ->
  Forall argument_text (a :: rest) ->
  lacks NL (join (lit ",") (a :: rest)) = true ->
  parse_args (call_line name (a :: rest))
  = Ok (fold_left classify (map strip (a :: rest))
                  (mk_args [] [] None None)).
Proof.
  intros Hp Hn Ha Hl. unfold parse_args, call_line.
  rewrite (isolate_arguments_call name _ Hp Hn Hl).
  rewrite (split_arguments_join a rest Ha). reflexivity.
Qed.

Lemma parse_args_call_witness :
  parse_args (lit "ui.text(u'a, b', [1, 2], x=3)")
  = Ok (mk_args [lit "u'a, b'"; lit "[1, 2]"] [(lit "x", lit "3")]
                None None).
Proof.
  exact (parse_args_call (lit "ui.text") (lit "u'a, b'")
           [lit " [1, 2]"; lit " x=3"]
           eq_refl eq_refl
           (Forall_cons _
              (argument_plain "u" _ eq_refl eq_refl
                 (argument_string SQ (lit "a, b") [] eq_refl eq_refl eq_refl
                    argument_nil))
              (Forall_cons _
                 (argument_plain " " _ eq_refl eq_refl
                    (argument_group "[" "]" (lit "1, 2") [] eq_refl eq_refl
                       (closed_text_plain (lit "1, 2") eq_refl)
                       argument_nil))
                 (Forall_cons _
                    (argument_text_plain (lit " x=3") eq_refl)
                    (Forall_nil _))))
           eq_refl).
Defined.

(** A call without arguments parses to one positional argument, the
    empty string: the list of arguments is never empty. *)
Theorem parse_args_empty_call (name : str) :
  lacks "("%char name = true -> lacks NL name = true ->
  parse_args (name ++ lit "()") = Ok (mk_args [[]] [] None None).
Proof.
  intros Hp Hn. unfold parse_args.
  change (name ++ lit "()") with (name ++ lit "(" ++ [] ++ lit ")").
  rewrite (isolate_arguments_call name [] Hp Hn eq_refl). reflexivity.
Qed.

Lemma parse_args_empty_call_witness :
  parse_args (lit "ui.null()") = Ok (mk_args [[]] [] None None).
Proof. exact (parse_args_empty_call (lit "ui.null") eq_refl eq_refl). Defined.

(** ** Commas at top level (C5) *)

Lemma count_trailing_slashes_snoc (s : str) (c : ascii) :
  count_trailing_slashes (s ++ [c])
  = if ch_eqb c BSL then S (count_trailing_slashes s) else 0.
Proof.
  unfold count_trailing_slashes. rewrite rev_app_distr. reflexivity.
Qed.

(** The parity of the backslashes before the place reached, after one
    more character. *)
Lemma even_trailing_snoc (s : str) (c : ascii) :
  Nat.even (count_trailing_slashes (s ++ [c]))
  = if ch_eqb c BSL then negb (Nat.even (count_trailing_slashes s))
    else true.
Proof.
  rewrite count_trailing_slashes_snoc. destruct (ch_eqb c BSL).
  - rewrite Nat.even_succ, <- Nat.negb_even. reflexivity.
  - reflexivity.
Qed.

(** Inside a string the stack is kept: a quote of the other kind, a quote
    after an odd count of backslashes and every other character are part
    of the string. *)
Lemma scan_chars_inside (q : ascii) (below : list frame) (args : list str)
      (inner : str) :
  is_quote q = true -> below <> [] ->
  forall cur,
    string_inside_from q (Nat.even (count_trailing_slashes cur)) inner
    = true ->
    scan_chars (mk_scan (Open q :: below) cur args) inner
    = Ok (mk_scan (Open q :: below) (cur ++ inner) args)
    /\ Nat.even (count_trailing_slashes (cur ++ inner)) = true.
Proof.
  intros Hq Hb. induction inner as [|c inner IH]; intros cur H.
  - simpl in H. simpl scan_chars. rewrite app_nil_r. split; [reflexivity|exact H].
  - simpl in H. apply andb_true_iff in H. destruct H as [Hc H].
    apply negb_true_iff in Hc.
    assert (E : scan_step (mk_scan (Open q :: below) cur args) c
                = Ok (mk_scan (Open q :: below) (cur ++ [c]) args)).
    { unfold scan_step, scan_stack. cbn [stack current_parse arguments].
      cbn [frame_is_quote frame_is]. rewrite Hq. cbn [negb].
      rewrite (ch_eqb_sym q c), Hc.
      destruct below as [|b below]; [congruence|].
      destruct (is_quote c); reflexivity. }
    rewrite <- even_trailing_snoc in H.
    destruct (IH (cur ++ [c]) H) as [E' Hev].
    simpl scan_chars. rewrite E, E'. rewrite <- app_assoc in *.
    split; [reflexivity|exact Hev].
Qed.

(** A string, from the quote that opens it to the quote that closes it. *)
Lemma scan_chars_literal (q : ascii) (inner : str) (top : frame)
      (below : list frame) (cur : str) (args : list str) :
  is_quote q = true -> string_inside q inner = true ->
  frame_is_quote top = false ->
  scan_chars (mk_scan (top :: below) cur args) (q :: inner ++ [q])
  = Ok (mk_scan (top :: below) (cur ++ q :: inner ++ [q]) args).
Proof.
  intros Hq Hl Ht. simpl scan_chars.
  rewrite (scan_step_push q top below cur args (or_introl Hq) Ht).
  assert (Hs : string_inside_from q
                 (Nat.even (count_trailing_slashes (cur ++ [q]))) inner
               = true).
  { rewrite even_trailing_snoc, (quote_not_backslash q Hq). exact Hl. }
  destruct (scan_chars_inside q (top :: below) args inner Hq
              ltac:(discriminate) (cur ++ [q]) Hs) as [E Hev].
  rewrite (scan_chars_app _ _ _ _ E). simpl scan_chars.
  unfold scan_step, scan_stack. cbn [stack current_parse arguments].
  cbn [frame_is_quote frame_is]. rewrite Hq, ch_eqb_refl, Hev.
  cbn [negb andb]. rewrite (quote_not_comma q Hq), andb_false_r.
  repeat rewrite <- app_assoc. reflexivity.
Qed.

(** Closed text inside a container is kept whole, commas included. *)
Lemma scan_chars_nested (s : str) :
  nested_text s ->
  forall top below cur args,
    frame_is_quote top = false -> below <> [] ->
    scan_chars (mk_scan (top :: below) cur args) s
    = Ok (mk_scan (top :: below) (cur ++ s) args).
Proof.
  induction 1 as [|c s Hp Hs IH|q inner s Hq Hl Hs IH
                  |o c inner s Ho Hc Hin IHin Hs IH];
    intros top below cur args Ht Hne.
  - simpl. rewrite app_nil_r. reflexivity.
  - simpl scan_chars. rewrite scan_step_plain; [|exact Hp|exact Ht|].
    + rewrite IH by assumption. rewrite <- app_assoc. reflexivity.
    + destruct below; [congruence|reflexivity].
  - replace (q :: inner ++ q :: s) with ((q :: inner ++ [q]) ++ s)
      by (simpl; rewrite <- app_assoc; reflexivity).
    rewrite (scan_chars_app _ _ _ _
               (scan_chars_literal q inner top below cur args Hq Hl Ht)).
    rewrite IH by assumption. rewrite <- app_assoc. reflexivity.
  - simpl scan_chars.
    rewrite (scan_step_push o top below cur args (or_intror Ho) Ht).
    rewrite (scan_chars_app _ _ _ _
               (IHin (Open o) (top :: below) (cur ++ [o]) args
                  (opener_not_quote o Ho) ltac:(discriminate))).
    simpl scan_chars.
    rewrite (scan_step_pop c (Open o) (top :: below) _ args Hc
               (opener_not_quote o Ho)).
    rewrite IH by assumption. repeat rewrite <- app_assoc. reflexivity.
Qed.

(** The text of one argument is kept whole at top level. *)
Lemma scan_chars_top_level (s : str) :
  top_level_text s ->
  forall cur args,
    scan_chars (mk_scan [Bottom] cur args) s
    = Ok (mk_scan [Bottom] (cur ++ s) args).
Proof.
  induction 1 as [|c s Hp Hk Hs IH|q inner s Hq Hl Hs IH
                  |o c inner s Ho Hc Hin Hs IH];
    intros cur args.
  - simpl. rewrite app_nil_r. reflexivity.
  - simpl scan_chars. rewrite scan_step_plain; [|exact Hp|reflexivity|].
    + rewrite IH. rewrite <- app_assoc. reflexivity.
    + rewrite Hk. apply andb_false_r.
  - replace (q :: inner ++ q :: s) with ((q :: inner ++ [q]) ++ s)
      by (simpl; rewrite <- app_assoc; reflexivity).
    rewrite (scan_chars_app _ _ _ _
               (scan_chars_literal q inner Bottom [] cur args Hq Hl
                  eq_refl)).
    rewrite IH. rewrite <- app_assoc. reflexivity.
  - simpl scan_chars.
    rewrite (scan_step_push o Bottom [] cur args (or_intror Ho) eq_refl).
    rewrite (scan_chars_app _ _ _ _
               (scan_chars_nested inner Hin (Open o) [Bottom] (cur ++ [o])
                  args (opener_not_quote o Ho) ltac:(discriminate))).
    simpl scan_chars.
    rewrite (scan_step_pop c (Open o) [Bottom] _ args Hc
               (opener_not_quote o Ho)).
    rewrite IH. repeat rewrite <- app_assoc. reflexivity.
Qed.

(** Arguments joined by commas are cut at these commas and nowhere
    else. *)
Lemma scan_chars_commas (rest : list str) :
  Forall top_level_text rest ->
  forall a cur acc,
    top_level_text a ->
    exists st,
      scan_chars (mk_scan [Bottom] cur acc) (join (lit ",") (a :: rest))
      = Ok st
      /\ arguments st ++ [strip (current_parse st)]
         = acc ++ strip (cur ++ a) :: map strip rest.
Proof.
  induction 1 as [|b rest Hb Hrest IH]; intros a cur acc Ha.
  - simpl join. rewrite (scan_chars_top_level a Ha). eexists.
    split; reflexivity.
  - change (join (lit ",") (a :: b :: rest))
      with (a ++ ","%char :: join (lit ",") (b :: rest)).
    rewrite (scan_chars_app _ _ _ _ (scan_chars_top_level a Ha cur acc)).
    simpl scan_chars.
    change (scan_step (mk_scan [Bottom] (cur ++ a) acc) ","%char)
      with (Ok (mk_scan [Bottom] [] (acc ++ [strip (cur ++ a)]))).
    destruct (IH b [] (acc ++ [strip (cur ++ a)]) Hb) as [st [E H]].
    exists st. split; [exact E|]. rewrite H. rewrite <- app_assoc.
    reflexivity.
Qed.

(** C5: [parse_args] cuts the argument text at the commas at top level and
    at no other comma.  For arguments that hold no comma at top level,
    whatever commas stand inside their strings in single or double quotes
    (where a quote after an odd count of backslashes does not close the
    string) and inside their parentheses, brackets and braces, nested to
    any depth, the call with these arguments joined by commas is split
    into exactly these arguments, which are then classified in their
    order.  So [f("a,b", x=1)] has one positional argument and one keyword
    argument, and [f([1,2,3], y={'a':1})] has one of each rather than
    five arguments; neither has a variadic capture. *)
Theorem parse_args_top_level_commas :
  (forall (a : str) (rest : list str),
      Forall top_level_text (a :: rest) ->
      split_arguments (join (lit ",") (a :: rest))
      = Ok (map strip (a :: rest)))
  /\ (forall (name a : str) (rest : list str),
         lacks "("%char name = true -> lacks NL name = true ->
         Forall top_level_text (a :: rest) ->
         lacks NL (join (lit ",") (a :: rest)) = true ->
         parse_args (call_line name (a :: rest))
         = Ok (fold_left classify (map strip (a :: rest))
                         (mk_args [] [] None None)))
  /\ parse_args (lit "f(" ++ [DQ] ++ lit "a,b" ++ [DQ] ++ lit ", x=1)")
     = Ok (mk_args [[DQ] ++ lit "a,b" ++ [DQ]] [(lit "x", lit "1")]
                   None None)
  /\ parse_args (lit "f([1,2,3], y={'a':1})")
     = Ok (mk_args [lit "[1,2,3]"] [(lit "y", lit "{'a':1}")] None None).
Proof.
  assert (Hsplit : forall (a : str) (rest : list str),
             Forall top_level_text (a :: rest) ->
             split_arguments (join (lit ",") (a :: rest))
             = Ok (map strip (a :: rest))).
  { intros a rest H. inversion H as [|x l Ha Hrest]; subst.
    destruct (scan_chars_commas rest Hrest a [] [] Ha) as [st [E Hst]].
    unfold split_arguments. rewrite E, Hst. reflexivity. }
  split; [exact Hsplit|]. split; [|split; reflexivity].
  intros name a rest Hp Hn Ha Hl. unfold parse_args, call_line.
  rewrite (isolate_arguments_call name _ Hp Hn Hl).
  rewrite (Hsplit a rest Ha). reflexivity.
Qed.

Lemma parse_args_top_level_commas_witness :
  parse_args
    (lit "f(" ++ SQ :: (lit "a," ++ [BSL; SQ] ++ lit "b") ++ SQ
       :: lit ", (1,[2,{3:4}]), x=" ++ DQ :: (lit "p,q" ++ [BSL; BSL])
       ++ DQ :: lit ", **k)")
  = Ok (mk_args [ SQ :: (lit "a," ++ [BSL; SQ] ++ lit "b") ++ [SQ];
                  lit "(1,[2,{3:4}])" ]
                [ (lit "x", DQ :: (lit "p,q" ++ [BSL; BSL]) ++ [DQ]) ]
                None (Some (lit "k"))).
Proof.
  destruct parse_args_top_level_commas as [_ [H _]].
  exact (H (lit "f")
           (SQ :: (lit "a," ++ [BSL; SQ] ++ lit "b") ++ SQ :: [])
           [ " "%char :: "("%char
               :: (lit "1," ++ "["%char
                     :: (lit "2," ++ "{"%char :: lit "3:4" ++ "}"%char :: [])
                     ++ "]"%char :: [])
               ++ ")"%char :: [];
             " "%char :: "x"%char :: "="%char
               :: DQ :: (lit "p,q" ++ [BSL; BSL]) ++ DQ :: [];
             lit " **k" ]
           eq_refl eq_refl
           (Forall_cons _
              (top_level_string SQ (lit "a," ++ [BSL; SQ] ++ lit "b") []
                 eq_refl eq_refl top_level_nil)
              (Forall_cons _
                 (top_level_plain " " _ eq_refl eq_refl
                    (top_level_group "(" ")"
                       (lit "1," ++ "["%char
                          :: (lit "2," ++ "{"%char :: lit "3:4"
                                ++ "}"%char :: [])
                          ++ "]"%char :: [])
                       [] eq_refl eq_refl
                       (nested_plain "1" _ eq_refl
                          (nested_plain "," _ eq_refl
                             (nested_group "[" "]"
                                (lit "2," ++ "{"%char :: lit "3:4"
                                   ++ "}"%char :: [])
                                [] eq_refl eq_refl
                                (nested_plain "2" _ eq_refl
                                   (nested_plain "," _ eq_refl
                                      (nested_group "{" "}" (lit "3:4") []
                                         eq_refl eq_refl
                                         (nested_plain "3" _ eq_refl
                                            (nested_plain ":" _ eq_refl
                                               (nested_plain "4" _ eq_refl
                                                  nested_nil)))
                                         nested_nil)))
                                nested_nil)))
                       top_level_nil))
                 (Forall_cons _
                    (top_level_plain " " _ eq_refl eq_refl
                       (top_level_plain "x" _ eq_refl eq_refl
                          (top_level_plain "=" _ eq_refl eq_refl
                             (top_level_string DQ (lit "p,q" ++ [BSL; BSL]) []
                                eq_refl eq_refl top_level_nil))))
                    (Forall_cons _
                       (top_level_plain " " _ eq_refl eq_refl
                          (top_level_plain "*" _ eq_refl eq_refl
                             (top_level_plain "*" _ eq_refl eq_refl
                                (top_level_plain "k" _ eq_refl eq_refl
                                   top_level_nil))))
                       (Forall_nil _)))))
           eq_refl).
Defined.

(** *** Stripped texts *)

Lemma word_not_space (c : ascii) : is_word c = true -> isspace c = false.
Proof.
  destruct c as [[] [] [] [] [] [] [] []]; intros H;
    first [reflexivity|discriminate H].
Qed.

Lemma word_not_equals (c : ascii) :
  is_word c = true -> ch_eqb c "="%char = false.
Proof.
  destruct c as [[] [] [] [] [] [] [] []]; intros H;
    first [reflexivity|discriminate H].
Qed.

Lemma word_not_star (c : ascii) :
  is_word c = true -> ch_eqb "*"%char c = false.
Proof.
  destruct c as [[] [] [] [] [] [] [] []]; intros H;
    first [reflexivity|discriminate H].
Qed.

Lemma lstrip_idem (s : str) : lstrip (lstrip s) = lstrip s.
Proof.
  destruct (lstrip s) as [|c r] eqn:E; [reflexivity|].
  apply lstrip_fixed. apply (lstrip_head s c r E).
Qed.

Lemma rstrip_idem (s : str) : rstrip (rstrip s) = rstrip s.
Proof. unfold rstrip. rewrite rev_involutive, lstrip_idem. reflexivity. Qed.

(** A text that is its own [rstrip] ends with a character that is not
    white space. *)
Lemma rstrip_last (s : str) (c : ascii) :
  rstrip (s ++ [c]) = s ++ [c] -> isspace c = false.
Proof.
  unfold rstrip. rewrite rev_app_distr. simpl app. intros H.
  apply (f_equal (@rev ascii)) in H. rewrite rev_involutive in H.
  rewrite rev_app_distr in H. simpl in H.
  apply (lstrip_head _ c (rev s) H).
Qed.

Lemma lstrip_spaces (ws s : str) :
  forallb isspace ws = true -> lstrip (ws ++ s) = lstrip s.
Proof.
  intros H. unfold lstrip. induction ws as [|c ws IH]; [reflexivity|].
  simpl in H. apply andb_true_iff in H. destruct H as [Hc H].
  simpl. rewrite Hc. specialize (IH H).
  destruct (span isspace (ws ++ s)). exact IH.
Qed.

Lemma rstrip_spaces (s ws : str) :
  forallb isspace ws = true -> rstrip (s ++ ws) = rstrip s.
Proof.
  intros H. unfold rstrip. rewrite rev_app_distr.
  rewrite lstrip_spaces by (rewrite forallb_rev; exact H). reflexivity.
Qed.

(** The suffix of [lstrip]. *)
Lemma lstrip_keeps_end (s : str) (c : ascii) :
  isspace c = false -> lstrip (s ++ [c]) = lstrip s ++ [c].
Proof.
  intros H. induction s as [|x s IH].
  - simpl. rewrite (lstrip_fixed c [] H). reflexivity.
  - simpl app. destruct (isspace x) eqn:Ex.
    + change (x :: s ++ [c]) with ([x] ++ (s ++ [c])).
      change (x :: s) with ([x] ++ s).
      rewrite (lstrip_spaces [x] (s ++ [c]))
        by (simpl; rewrite Ex; reflexivity).
      rewrite (lstrip_spaces [x] s) by (simpl; rewrite Ex; reflexivity).
      exact IH.
    + rewrite !(lstrip_fixed x _ Ex). reflexivity.
Qed.

Lemma rstrip_lstrip (s : str) : rstrip s = s -> rstrip (lstrip s) = lstrip s.
Proof.
  intros H. destruct s as [|c s _] using rev_ind; [reflexivity|].
  pose proof (rstrip_last s c H) as Hc.
  rewrite (lstrip_keeps_end s c Hc). apply rstrip_fixed. exact Hc.
Qed.

Lemma strip_idem (s : str) : strip (strip s) = strip s.
Proof.
  unfold strip.
  rewrite (rstrip_lstrip (rstrip s) (rstrip_idem s)). apply lstrip_idem.
Qed.

Lemma rstrip_strip (s : str) : rstrip (strip s) = strip s.
Proof. unfold strip. apply rstrip_lstrip. apply rstrip_idem. Qed.

(** A word followed by spaces strips to the word. *)
Lemma strip_word_spaces (k : str) (n : nat) :
  forallb is_word k = true -> strip (k ++ repeat SP n) = k.
Proof.
  intros H. unfold strip.
  rewrite rstrip_spaces by (apply forallb_repeat; reflexivity).
  destruct k as [|c k _] using rev_ind; [reflexivity|].
  rewrite forallb_app in H. apply andb_true_iff in H.
  destruct H as [Hk Hc]. simpl in Hc. rewrite andb_true_r in Hc.
  rewrite (rstrip_fixed c k (word_not_space c Hc)).
  destruct k as [|x k].
  - apply lstrip_fixed. apply word_not_space. exact Hc.
  - simpl in Hk. apply andb_true_iff in Hk. destruct Hk as [Hx _].
    apply lstrip_fixed. apply word_not_space. exact Hx.
Qed.

(** *** Keyword arguments *)

Lemma is_keyword_argument_sound (a : str) :
  is_keyword_argument a = true ->
  exists k n c v,
    a = k ++ repeat SP n ++ "="%char :: c :: v
    /\ k <> [] /\ forallb is_word k = true /\ ch_eqb c "="%char = false.
Proof.
  unfold is_keyword_argument. intros H.
  destruct (span_spec is_word a) as [Ea [Hk _]].
  destruct (span is_word a) as [k r]. simpl in Ea, Hk.
  destruct k as [|x k]; [discriminate|].
  destruct (span_spec is_sp r) as [Er [Hs _]].
  destruct (snd (span is_sp r)) as [|e [|c v]]; try discriminate.
  apply andb_true_iff in H. destruct H as [He Hc].
  apply ch_eqb_eq in He. subst e. apply negb_true_iff in Hc.
  exists (x :: k), (length (fst (span is_sp r))), c, v.
  rewrite <- (forallb_sp_repeat _ Hs). rewrite <- Er.
  repeat split; try assumption. discriminate.
Qed.

Lemma is_keyword_argument_shape (k : str) (n : nat) (c : ascii) (v : str) :
  k <> [] -> forallb is_word k = true -> ch_eqb c "="%char = false ->
  is_keyword_argument (k ++ repeat SP n ++ "="%char :: c :: v) = true.
Proof.
  intros Hne Hk Hc. unfold is_keyword_argument.
  rewrite (span_app is_word k _ Hk).
  - destruct k as [|x k]; [congruence|].
    rewrite (span_app is_sp (repeat SP n) ("="%char :: c :: v)
               (forallb_repeat is_sp SP n eq_refl) eq_refl).
    simpl. rewrite Hc. reflexivity.
  - destruct n; reflexivity.
Qed.

Lemma comparison_not_keyword (k : str) (n : nat) (v : str) :
  forallb is_word k = true ->
  is_keyword_argument (k ++ repeat SP n ++ lit "==" ++ v) = false.
Proof.
  intros Hk. unfold is_keyword_argument.
  rewrite (span_app is_word k _ Hk).
  - destruct k as [|x k]; [reflexivity|].
    rewrite (span_app is_sp (repeat SP n) (lit "==" ++ v)
               (forallb_repeat is_sp SP n eq_refl) eq_refl).
    reflexivity.
  - destruct n; reflexivity.
Qed.

Lemma split1_keyword (k : str) (n : nat) (v : str) :
  forallb is_word k = true ->
  split1 (lit "=") (k ++ repeat SP n ++ "="%char :: v)
  = Some (k ++ repeat SP n, v).
Proof.
  intros Hk. rewrite app_assoc. apply split1_char.
  rewrite lacks_app, lacks_spaces by reflexivity. rewrite andb_true_r.
  unfold lacks. apply forallb_forall. intros x Hx.
  rewrite forallb_forall in Hk. rewrite (word_not_equals x (Hk x Hx)).
  reflexivity.
Qed.

(** How [parse_args] sorts an argument: a word, spaces and one equals
    sign that another character than the equals sign follows make a
    keyword argument, with the word as its name and the stripped rest as
    its value; a word followed by two equals signs is a comparison and
    stays positional; two stars make the keyword catch-all and one star the
    positional catch-all. *)
Theorem classify_cases (acc : argtuple) :
  (forall k n c v,
      k <> [] -> forallb is_word k = true -> ch_eqb c "="%char = false ->
      classify acc (k ++ repeat SP n ++ "="%char :: c :: v)
      = mk_args (a_args acc) (a_kwargs acc ++ [(k, strip (c :: v))])
                (a_exargs acc) (a_exkwargs acc))
  /\ (forall k n v,
         k <> [] -> forallb is_word k = true ->
         classify acc (k ++ repeat SP n ++ lit "==" ++ v)
         = mk_args (a_args acc ++ [k ++ repeat SP n ++ lit "==" ++ v])
                   (a_kwargs acc) (a_exargs acc) (a_exkwargs acc))
  /\ (forall r,
         classify acc (lit "**" ++ r)
         = mk_args (a_args acc) (a_kwargs acc) (a_exargs acc) (Some r))
  /\ (forall r,
         startswith r (lit "*") = false ->
         classify acc (lit "*" ++ r)
         = mk_args (a_args acc) (a_kwargs acc) (Some r) (a_exkwargs acc)).
Proof.
  split; [|split; [|split]].
  - intros k n c v Hne Hk Hc. unfold classify.
    rewrite (is_keyword_argument_shape k n c v Hne Hk Hc).
    rewrite (split1_keyword k n (c :: v) Hk).
    rewrite (strip_word_spaces k n Hk). reflexivity.
  - intros k n v Hne Hk. unfold classify.
    rewrite (comparison_not_keyword k n v Hk).
    destruct k as [|x k]; [congruence|].
    simpl in Hk. apply andb_true_iff in Hk. destruct Hk as [Hx _].
    unfold startswith. simpl. rewrite (word_not_star x Hx). reflexivity.
  - intros r. reflexivity.
  - intros r Hr. unfold classify.
    change (is_keyword_argument (lit "*" ++ r)) with false. cbv iota.
    unfold startswith in *. simpl.
    destruct r as [|x r]; [reflexivity|]. simpl in Hr.
    destruct (ch_eqb "*"%char x); [discriminate|reflexivity].
Qed.

Lemma classify_cases_witness :
  let acc := mk_args [] [] None None in
  classify acc (lit "size  = 3") = mk_args [] [(lit "size", lit "3")] None None
  /\ classify acc (lit "a == b") = mk_args [lit "a == b"] [] None None
  /\ classify acc (lit "*rest") = mk_args [] [] (Some (lit "rest")) None.
Proof.
  intros acc. destruct (classify_cases acc) as [H1 [H2 [_ H4]]].
  split; [|split].
  - exact (H1 (lit "size") 2 " "%char (lit "3") ltac:(discriminate)
              eq_refl eq_refl).
  - exact (H2 (lit "a") 1 (lit " b") ltac:(discriminate) eq_refl).
  - exact (H4 (lit "rest") eq_refl).
Defined.

Lemma scan_chars_stripped (s : str) :
  forall st st',
    Forall (fun x => exists y, x = strip y) (arguments st) ->
    scan_chars st s = Ok st' ->
    Forall (fun x => exists y, x = strip y) (arguments st').
Proof.
  induction s as [|c s IH]; intros st st' H E; simpl in E.
  - inversion E; subst. exact H.
  - destruct (scan_step st c) as [st1|e] eqn:E1; [|discriminate].
    apply (IH st1 st'); [|exact E].
    unfold scan_step in E1.
    destruct (scan_stack st c) as [stk|e]; [|discriminate].
    destruct ((length stk =? 1) && ch_eqb c ","%char);
      inversion E1; subst; simpl; [|exact H].
    apply Forall_app. split; [exact H|]. constructor; [eauto|constructor].
Qed.

Lemma split_arguments_stripped (s : str) (l : list str) :
  split_arguments s = Ok l -> Forall (fun x => exists y, x = strip y) l.
Proof.
  unfold split_arguments. intros H.
  destruct (scan_chars (mk_scan [Bottom] [] []) s) as [st|e] eqn:E;
    [|discriminate].
  inversion H; subst. apply Forall_app. split.
  - apply (scan_chars_stripped s (mk_scan [Bottom] [] []) st
             (Forall_nil _) E).
  - constructor; [eauto|constructor].
Qed.

(** The value of a keyword argument of a stripped text is not blank. *)
Lemma strip_value_nonempty (y pre : str) (c : ascii) (v : str) :
  strip y = pre ++ c :: v -> strip (c :: v) <> [].
Proof.
  intros E.
  destruct (exists_last (l := c :: v) ltac:(discriminate)) as [z [l Ez]].
  rewrite Ez in *. clear Ez.
  assert (Hl : isspace l = false).
  { apply (rstrip_last (pre ++ z)). rewrite <- app_assoc, <- E.
    apply rstrip_strip. }
  unfold strip. rewrite (rstrip_fixed l z Hl), (lstrip_keeps_end z l Hl).
  intros H. apply app_eq_nil in H. destruct H as [_ H]. discriminate.
Qed.

Lemma classify_normal (acc : argtuple) (x : str) :
  normal acc -> (exists y, x = strip y) -> normal (classify acc x).
Proof.
  intros [Ha [Hk Hs]] [y Ey]. unfold classify.
  destruct (is_keyword_argument x) eqn:Ek.
  - destruct (is_keyword_argument_sound x Ek)
      as [k [n [c [v [Ex [Hne [Hw Hc]]]]]]].
    rewrite Ex, (split1_keyword k n (c :: v) Hw).
    rewrite (strip_word_spaces k n Hw).
    split; [exact Ha|]. split; [|exact Hs].
    simpl. intros k' v' Hin. apply in_app_or in Hin.
    destruct Hin as [Hin|[Hin|[]]]; [apply Hk; exact Hin|].
    inversion Hin; subst k' v'. repeat split; try assumption.
    + apply (strip_value_nonempty y (k ++ repeat SP n ++ ["="%char]) c v).
      rewrite <- Ey, Ex. repeat rewrite <- app_assoc. reflexivity.
    + apply strip_idem.
  - destruct (startswith x (lit "**")) eqn:E2.
    + split; [exact Ha|]. split; [exact Hk|exact Hs].
    + destruct (startswith x (lit "*")) eqn:E1.
      * split; [exact Ha|]. split; [exact Hk|]. simpl.
        intros r Hr. inversion Hr; subst r. clear Hr.
        unfold startswith in *. destruct x as [|x0 x]; [discriminate|].
        simpl in *. destruct (ch_eqb "*"%char x0); [|discriminate].
        destruct x as [|x1 x]; [reflexivity|]. simpl in *.
        destruct (ch_eqb "*"%char x1); [discriminate|reflexivity].
      * split; [|split; [exact Hk|exact Hs]]. simpl.
        intros x' Hin. apply in_app_or in Hin.
        destruct Hin as [Hin|[Hin|[]]]; [apply Ha; exact Hin|].
        subst x'. rewrite Ey. apply strip_idem.
Qed.

(** What [parse_args] returns is normal, whatever the text: positional
    arguments are stripped; the name of a keyword argument is a word that
    is not empty, and its value is stripped and not empty; what follows the
    star of the positional catch-all does not start with a star. *)
Theorem parse_args_normal (s : str) (a : argtuple) :
  parse_args s = Ok a ->
  (forall x, In x (a_args a) -> strip x = x)
  /\ (forall k v, In (k, v) (a_kwargs a) ->
                  k <> [] /\ forallb is_word k = true
                  /\ v <> [] /\ strip v = v)
  /\ (forall r, a_exargs a = Some r -> startswith r (lit "*") = false).
Proof.
  unfold parse_args. intros H.
  destruct (split_arguments (isolate_arguments s)) as [l|e] eqn:E;
    [|discriminate].
  inversion H; subst a. clear H.
  apply split_arguments_stripped in E.
  change (normal (fold_left classify l (mk_args [] [] None None))).
  assert (H0 : normal (mk_args [] [] None None)).
  { split; [|split]; simpl; intros; try contradiction; discriminate. }
  revert H0. generalize (mk_args [] [] None None).
  induction E as [|x l Hx Hl IH]; intros acc Hacc; simpl.
  - exact Hacc.
  - apply IH. apply classify_normal; assumption.
Qed.

Lemma parse_args_normal_witness :
  lit "x" <> [] /\ forallb is_word (lit "x") = true
  /\ lit "1" <> [] /\ strip (lit "1") = lit "1".
Proof.
  exact (proj1 (proj2 (parse_args_normal
                         (lit "f( a , x = 1 ,style='a=b' )")
                         (mk_args [lit "a"]
                                  [(lit "x", lit "1");
                                   (lit "style", lit "'a=b'")] None None)
                         eq_refl))
           (lit "x") (lit "1") (or_introl eq_refl)).
Defined.

(** ** Conditions and loop heads *)

(** *** More on stripping *)

Lemma rstrip_suffix (s : str) :
  exists b, s = rstrip s ++ b /\ forallb isspace b = true.
Proof.
  unfold rstrip. destruct (lstrip_suffix (rev s)) as [a [E H]].
  exists (rev a). split; [|rewrite forallb_rev; exact H].
  rewrite <- rev_app_distr, <- E, rev_involutive. reflexivity.
Qed.

Lemma rstrip_nil (s : str) : rstrip s = [] -> forallb isspace s = true.
Proof.
  intros H. destruct (rstrip_suffix s) as [b [E Hb]].
  rewrite H in E. simpl in E. subst b. exact Hb.
Qed.

(** Stripping the two ends in either order gives the same text. *)
Lemma strip_comm (s : str) : lstrip (rstrip s) = rstrip (lstrip s).
Proof.
  destruct (lstrip_suffix s) as [a [Ea Ha]].
  destruct (lstrip s) as [|c r] eqn:Et.
  - rewrite app_nil_r in Ea. subst a.
    assert (E : rstrip s = []).
    { rewrite <- (app_nil_l s). rewrite (rstrip_spaces [] s Ha).
      reflexivity. }
    rewrite E. reflexivity.
  - pose proof (lstrip_head s c r Et) as Hc.
    destruct (rstrip_suffix (c :: r)) as [b [Eb Hb]].
    destruct (rstrip (c :: r)) as [|c' r'] eqn:Er.
    + simpl in Eb. subst b. simpl in Hb. rewrite Hc in Hb. discriminate.
    + simpl in Eb. injection Eb as Ec Erb. subst c'.
      assert (Hfix : rstrip (c :: r') = c :: r').
      { rewrite <- Er. apply rstrip_idem. }
      assert (Es : rstrip s = a ++ c :: r').
      { rewrite Ea, Erb.
        replace (a ++ c :: r' ++ b) with ((a ++ c :: r') ++ b)
          by (rewrite <- app_assoc; reflexivity).
        rewrite (rstrip_spaces _ b Hb).
        destruct (exists_last (l := c :: r') ltac:(discriminate))
          as [z [l Ez]].
        rewrite Ez in *. rewrite app_assoc. apply rstrip_fixed.
        apply (rstrip_last z l Hfix). }
      rewrite Es, (lstrip_spaces a _ Ha). apply lstrip_fixed. exact Hc.
Qed.

Lemma strip_spaces (ws s : str) :
  forallb isspace ws = true -> strip (ws ++ s) = strip s.
Proof.
  intros H. unfold strip. rewrite !strip_comm, (lstrip_spaces ws s H).
  reflexivity.
Qed.

(** *** The first occurrence of a statement *)

Lemma split1_after_spaces (c : ascii) (statement r : str) (k : nat) :
  ch_eqb c SP = false ->
  split1 (c :: statement) (repeat SP k ++ (c :: statement) ++ r)
  = Some (repeat SP k, r).
Proof.
  intros Hc. induction k as [|k IH].
  - simpl repeat. simpl app.
    assert (E : strip_prefix (c :: statement) (c :: statement ++ r) = Some r).
    { apply (strip_prefix_app (c :: statement) r). }
    destruct (statement ++ r) eqn:Er; simpl split1; simpl in E;
      rewrite E; reflexivity.
  - simpl repeat. simpl app. simpl split1. rewrite Hc. simpl in IH.
    rewrite IH. reflexivity.
Qed.

Lemma rsplit1_colon (s : str) :
  rsplit1 (lit ":") (s ++ lit ":") = Some (s, []).
Proof. apply (rsplit1_char ":"%char s [] eq_refl). Qed.

Lemma unwrapped_parenthesised (x : str) :
  unwrapped ("("%char :: x ++ [")"%char]) = x.
Proof.
  unfold unwrapped, endswith, slice_from_to_last.
  change ("("%char :: x ++ [")"%char]) with (("("%char :: x) ++ [")"%char]).
  rewrite rev_app_distr, removelast_last. reflexivity.
Qed.

(** The condition of an [if] or [elif] line: what stands between the
    statement and the last colon of the line is stripped and written back
    after the statement; when it starts with an opening parenthesis and ends
    with a closing one, its first and last characters are dropped, whether
    or not the two parentheses belong together. *)
Theorem print_condition_if (statement cond : str) (k : nat) :
  statement = lit "if" \/ statement = lit "elif" ->
  print_condition statement
    (repeat SP k ++ statement ++ lit " " ++ cond ++ lit ":")
  = write (statement ++ lit " " ++ unwrapped (strip cond) ++ lit ":")
  /\ forall x, unwrapped (lit "(" ++ x ++ lit ")") = x.
Proof.
  intros Hs. split; [|intros x; apply unwrapped_parenthesised].
  unfold print_condition.
  replace (repeat SP k ++ statement ++ lit " " ++ cond ++ lit ":")
    with ((repeat SP k ++ statement ++ lit " " ++ cond) ++ lit ":")
    by (repeat rewrite <- app_assoc; reflexivity).
  rewrite rsplit1_colon.
  assert (E : split1 statement (repeat SP k ++ statement ++ lit " " ++ cond)
              = Some (repeat SP k, lit " " ++ cond)).
  { destruct Hs as [Hs|Hs]; subst statement;
      apply split1_after_spaces; reflexivity. }
  rewrite E.
  assert (Ef : str_eqb statement (lit "for") = false).
  { destruct Hs as [Hs|Hs]; subst statement; reflexivity. }
  rewrite Ef.
  rewrite (strip_spaces (lit " ") cond eq_refl), strip_idem. reflexivity.
Qed.

Lemma print_condition_if_witness :
  print_condition (lit "if") (lit "    if  (a) or (b) :")
  = write (lit "if a) or (b:").
Proof.
  exact (proj1 (print_condition_if (lit "if") (lit " (a) or (b) ") 4
                  (or_introl eq_refl))).
Defined.

Lemma strip_prefix_none_app (p u v : str) :
  strip_prefix p u = None -> length p <= length u ->
  strip_prefix p (u ++ v) = None.
Proof.
  revert u. induction p as [|x p IH]; intros u H Hl.
  - discriminate.
  - destruct u as [|y u]; [simpl in Hl; lia|].
    simpl in *. destruct (ch_eqb x y); [|reflexivity].
    apply IH; [exact H|lia].
Qed.

(** [s.split(sep, 1)] cuts at [sep] when [sep] does not start before. *)
Lemma split1_at (sep a b : str) :
  sep <> [] ->
  contains sep (a ++ removelast sep) = false ->
  split1 sep (a ++ sep ++ b) = Some (a, b).
Proof.
  intros Hne. induction a as [|x a IH]; intros H.
  - simpl app. pose proof (strip_prefix_app sep b) as E.
    destruct (sep ++ b) eqn:Eb; simpl; rewrite E; reflexivity.
  - unfold contains in H. simpl app in H. simpl split1 in H.
    destruct (strip_prefix sep (x :: a ++ removelast sep)) eqn:E1;
      [discriminate|].
    destruct (split1 sep (a ++ removelast sep)) as [[u v]|] eqn:E2;
      [discriminate|].
    assert (Es : sep = removelast sep ++ [last sep SP]).
    { apply app_removelast_last. exact Hne. }
    assert (E : strip_prefix sep (x :: a ++ sep ++ b) = None).
    { replace (sep ++ b) with (removelast sep ++ [last sep SP] ++ b)
        by (rewrite app_assoc, <- Es; reflexivity).
      replace (x :: a ++ removelast sep ++ [last sep SP] ++ b)
        with ((x :: a ++ removelast sep) ++ [last sep SP] ++ b)
        by (simpl; rewrite <- app_assoc; reflexivity).
      apply strip_prefix_none_app; [exact E1|].
      simpl. rewrite length_app.
      rewrite Es at 1. rewrite length_app. simpl. lia. }
    simpl app. simpl split1. rewrite E. rewrite IH; [reflexivity|].
    unfold contains. rewrite E2. reflexivity.
Qed.

Lemma contains_app_l (sep a b : str) :
  contains sep (a ++ b) = false -> contains sep a = false.
Proof.
  unfold contains. induction a as [|x a IH]; intros H.
  - simpl in *. destruct sep as [|y sep]; [|reflexivity].
    simpl in H. destruct b; discriminate.
  - simpl app in H. simpl split1 in *.
    destruct (strip_prefix sep (x :: a ++ b)) eqn:E1; [discriminate|].
    destruct (split1 sep (a ++ b)) as [[u v]|] eqn:E2; [discriminate|].
    destruct (strip_prefix sep (x :: a)) as [r|] eqn:E3.
    + apply strip_prefix_spec in E3.
      assert (E4 : strip_prefix sep (x :: a ++ b) = Some (r ++ b)).
      { apply strip_prefix_spec. rewrite app_comm_cons, E3.
        rewrite <- app_assoc. reflexivity. }
      congruence.
    + specialize (IH eq_refl).
      destruct (split1 sep a) as [[u v]|]; [discriminate|reflexivity].
Qed.

Lemma contains_app_r (sep a b : str) :
  contains sep (a ++ b) = false -> contains sep b = false.
Proof.
  unfold contains. induction a as [|x a IH]; intros H; [exact H|].
  simpl app in H. simpl split1 in H.
  destruct (strip_prefix sep (x :: a ++ b)); [discriminate|].
  destruct (split1 sep (a ++ b)) as [[u v]|] eqn:E2; [discriminate|].
  apply IH. reflexivity.
Qed.

(** A stripped text starts and ends with characters that are not white
    space. *)
Lemma stripped_ends (s : str) :
  strip s = s -> s <> [] ->
  exists c1 mid c2,
    (s = [c1] /\ c2 = c1 \/ s = c1 :: mid ++ [c2])
    /\ isspace c1 = false /\ isspace c2 = false.
Proof.
  intros H Hne.
  assert (Hl : lstrip s = s).
  { rewrite <- H at 1. unfold strip. rewrite lstrip_idem. exact H. }
  assert (Hr : rstrip s = s).
  { rewrite <- H at 1. rewrite rstrip_strip. exact H. }
  destruct s as [|c1 s]; [congruence|].
  pose proof (lstrip_head _ c1 s Hl) as H1.
  destruct s as [|x s].
  - exists c1, [], c1. auto.
  - destruct (exists_last (l := x :: s) ltac:(discriminate)) as [mid [c2 E]].
    rewrite E in *. exists c1, mid, c2. split; [right; reflexivity|].
    split; [exact H1|]. apply (rstrip_last (c1 :: mid) c2). exact Hr.
Qed.

Lemma lstrip_fixed_head (s t : str) :
  lstrip s = s -> s <> [] -> lstrip (s ++ t) = s ++ t.
Proof.
  intros H Hne. destruct s as [|c s]; [congruence|].
  simpl app. apply lstrip_fixed. apply (lstrip_head _ c s H).
Qed.

Lemma rstrip_fixed_last (s t : str) :
  rstrip t = t -> t <> [] -> rstrip (s ++ t) = s ++ t.
Proof.
  intros H Hne.
  destruct (exists_last Hne) as [z [l E]]. subst t.
  rewrite app_assoc. apply rstrip_fixed. apply (rstrip_last z l H).
Qed.

(** The head of a loop: the variables before the first [ in ] of the
    line lose the parentheses the compiler put around them, and the
    expression after it is written back as it is. *)
Theorem print_condition_for (vars expr : str) (k : nat) :
  strip vars = vars -> vars <> [] ->
  rstrip expr = expr -> expr <> [] ->
  contains (lit " in ") (vars ++ lit " in") = false ->
  print_condition (lit "for")
    (repeat SP k ++ lit "for " ++ vars ++ lit " in " ++ expr ++ lit ":")
  = write (lit "for " ++ unwrapped vars ++ lit " in " ++ expr ++ lit ":").
Proof.
  intros Hv Hvn He Hen Hc. unfold print_condition.
  replace (repeat SP k ++ lit "for " ++ vars ++ lit " in " ++ expr ++ lit ":")
    with ((repeat SP k ++ lit "for"
           ++ lit " " ++ vars ++ lit " in " ++ expr) ++ lit ":")
    by (repeat rewrite <- app_assoc; reflexivity).
  rewrite rsplit1_colon.
  rewrite (split1_after_spaces "f"%char (lit "or") _ k eq_refl).
  change (str_eqb (lit "for") (lit "for")) with true. cbv iota.
  rewrite (strip_spaces (lit " ") _ eq_refl).
  assert (Hl : lstrip vars = vars).
  { rewrite <- Hv at 1. unfold strip. rewrite lstrip_idem. exact Hv. }
  assert (Es : strip (vars ++ lit " in " ++ expr)
               = vars ++ lit " in " ++ expr).
  { unfold strip.
    replace (vars ++ lit " in " ++ expr) with ((vars ++ lit " in ") ++ expr)
      by (rewrite <- app_assoc; reflexivity).
    rewrite (rstrip_fixed_last _ expr He Hen). rewrite <- app_assoc.
    apply lstrip_fixed_head; assumption. }
  rewrite Es. rewrite (split1_at (lit " in ") vars expr ltac:(discriminate) Hc).
  rewrite Hv. unfold unwrapped. f_equal. rewrite <- app_assoc. reflexivity.
Qed.

Lemma print_condition_for_witness :
  print_condition (lit "for") (lit "  for (i, index) in enumerate(xs):")
  = write (lit "for i, index in enumerate(xs):").
Proof.
  exact (print_condition_for (lit "(i, index)") (lit "enumerate(xs)") 2
           eq_refl ltac:(discriminate) eq_refl ltac:(discriminate) eq_refl).
Defined.

(** A [for] line without [ in ] between the statement and its last colon
    makes [print_condition] raise [ValueError]: the unpacking of the split
    fails. *)
Theorem print_condition_for_without_in (rest : str) (k : nat) (w : wstate) :
  contains (lit " in ") rest = false ->
  print_condition (lit "for") (repeat SP k ++ lit "for" ++ rest ++ lit ":") w
  = Raise ValueError.
Proof.
  intros Hc. unfold print_condition.
  replace (repeat SP k ++ lit "for" ++ rest ++ lit ":")
    with ((repeat SP k ++ lit "for" ++ rest) ++ lit ":")
    by (repeat rewrite <- app_assoc; reflexivity).
  rewrite rsplit1_colon.
  rewrite (split1_after_spaces "f"%char (lit "or") _ k eq_refl).
  change (str_eqb (lit "for") (lit "for")) with true. cbv iota.
  assert (E : contains (lit " in ") (strip rest) = false).
  { destruct (lstrip_suffix (rstrip rest)) as [a [Ea _]].
    destruct (rstrip_suffix rest) as [b [Eb _]].
    fold (strip rest) in Ea. rewrite Ea in Eb. rewrite Eb in Hc.
    rewrite <- app_assoc in Hc.
    apply contains_app_r in Hc. apply contains_app_l in Hc. exact Hc. }
  unfold contains in E.
  destruct (split1 (lit " in ") (strip rest)) as [[u v]|]; [discriminate|].
  reflexivity.
Qed.

Lemma print_condition_for_without_in_witness :
  print_condition (lit "for") (lit "for x:") (mk_wstate 0 1 false [])
  = Raise ValueError.
Proof.
  exact (print_condition_for_without_in (lit " x") 0
           (mk_wstate 0 1 false []) eq_refl).
Defined.

(** ** Statements of one line *)

Lemma is_loop_marker_line (k : nat) (d junk r : str) :
  is_decimal d = true -> is_loop_marker (loop_marker k d junk ++ r) = true.
Proof.
  intros Hd. unfold is_loop_marker, loop_marker.
  repeat rewrite <- app_assoc.
  rewrite (span_app is_sp (repeat SP k)
             (lit "_" ++ d ++ lit " = 0" ++ junk ++ r)
             (forallb_repeat is_sp SP k eq_refl) eq_refl).
  cbn [snd]. rewrite strip_prefix_app.
  rewrite (digits1_app d (lit " = 0" ++ junk ++ r) Hd eq_refl).
  unfold startswith. rewrite strip_prefix_app. reflexivity.
Qed.

(** The line that counts the rounds of a loop is swallowed by
    [print_node]: the statement is printed from the next line on.  When
    nothing follows that line, not even a line feed, [print_node] raises
    [ValueError]. *)
Theorem print_node_loop_marker (guard : str -> str) (cfg : config)
        (rec : str -> Z -> M unit) (header : str) (k : nat)
        (d junk code : str) :
  is_decimal d = true -> lacks NL (loop_marker k d junk) = true ->
  (is_loop_marker code = false ->
   print_node guard cfg rec header (loop_marker k d junk ++ NL :: code)
   = print_node guard cfg rec header code)
  /\ (forall w,
         print_node guard cfg rec header (loop_marker k d junk) w
         = Raise ValueError).
Proof.
  intros Hd Hl. split.
  - intros Hc. unfold print_node.
    rewrite (is_loop_marker_line k d junk (NL :: code) Hd).
    rewrite (split1_char NL _ code Hl). rewrite Hc. reflexivity.
  - intros w. unfold print_node.
    pose proof (is_loop_marker_line k d junk [] Hd) as E.
    rewrite app_nil_r in E. rewrite E.
    rewrite (split1_char_none NL _ Hl). reflexivity.
Qed.

Lemma print_node_loop_marker_witness :
  let cfg := mk_config (lit "    ") true true true false in
  print_node (fun e => e) cfg (fun _ _ => ret tt) []
             (lit "  _2 = 0" ++ [NL] ++ lit "x = 1")
  = print_node (fun e => e) cfg (fun _ _ => ret tt) [] (lit "x = 1")
  /\ print_node (fun e => e) cfg (fun _ _ => ret tt) [] (lit "  _2 = 0")
                (mk_wstate 0 1 false [])
     = Raise ValueError.
Proof.
  intros cfg.
  destruct (print_node_loop_marker (fun e => e) cfg (fun _ _ => ret tt) []
              2 (lit "2") [] (lit "x = 1") eq_refl eq_refl) as [H1 H2].
  split; [exact (H1 eq_refl)|exact (H2 (mk_wstate 0 1 false []))].
Defined.


(** After the spaces of a blank line comes white space. *)
Lemma first_after_spaces (l r : str) :
  forallb isspace l = true ->
  forall a c t,
    l ++ NL :: r = a ++ c :: t -> forallb is_sp a = true ->
    isspace c = true.
Proof.
  induction l as [|x l IH]; intros H a c t Es Ha.
  - destruct a as [|y a]; simpl in Es; inversion Es; subst.
    + reflexivity.
    + simpl in Ha. discriminate.
  - simpl in H. apply andb_true_iff in H. destruct H as [Hx H].
    destruct a as [|y a]; simpl in Es; inversion Es; subst.
    + exact Hx.
    + simpl in Ha. apply andb_true_iff in Ha.
      apply (IH H a c t); [assumption|apply Ha].
Qed.

(** A line of white space is no loop marker. *)
Lemma blank_not_marker (l r : str) :
  forallb isspace l = true -> is_loop_marker (l ++ NL :: r) = false.
Proof.
  intros H. unfold is_loop_marker.
  destruct (span_spec is_sp (l ++ NL :: r)) as [Es [Ha _]].
  destruct (snd (span is_sp (l ++ NL :: r))) as [|c t] eqn:E.
  - reflexivity.
  - pose proof (first_after_spaces l r H _ c t Es Ha) as Hc.
    simpl. destruct (ch_eqb "_"%char c) eqn:Eu; [|reflexivity].
    apply ch_eqb_eq in Eu. subst c. discriminate.
Qed.

(** The table is searched with the stripped code only. *)
Lemma select_handler_lstrip (registry : list (str * handler))
      (c1 c2 : str) :
  lstrip c1 = lstrip c2 ->
  select_handler registry c1 = select_handler registry c2.
Proof.
  intros H. induction registry as [|[p h] registry IH]; simpl.
  - reflexivity.
  - rewrite H, IH. reflexivity.
Qed.

(** A blank line before a [ui] statement makes [print_node] raise
    [IndexError]: the table is searched with the stripped code, so the
    statement is found, but [print_ui] looks for [ui.] in the first line
    only. *)
Theorem print_node_blank_first_line (guard : str -> str) (cfg : config)
        (rec : str -> Z -> M unit) (header blank code : str) (w : wstate) :
  forallb isspace blank = true -> lacks NL blank = true ->
  select_handler dispatch code = Some H_ui ->
  print_node guard cfg rec header (blank ++ NL :: code) w = Raise IndexError.
Proof.
  intros Hb Hl Hs. unfold print_node.
  rewrite (blank_not_marker blank code Hb).
  assert (E : select_handler dispatch (blank ++ NL :: code) = Some H_ui).
  { rewrite <- Hs. apply select_handler_lstrip.
    replace (blank ++ NL :: code) with ((blank ++ [NL]) ++ code)
      by (rewrite <- app_assoc; reflexivity).
    apply lstrip_spaces. rewrite forallb_app, Hb. reflexivity. }
  unfold bind, ret. rewrite E. simpl call_handler. unfold print_ui.
  rewrite (split1_char NL blank code Hl).
  assert (En : split1 (lit "ui.") blank = None).
  { assert (Hu : lacks "u"%char blank = true).
    { apply (lacks_forall isspace); [exact Hb|reflexivity]. }
    clear - Hu. induction blank as [|x blank IH]; [reflexivity|].
    unfold lacks in Hu. simpl in Hu. apply andb_true_iff in Hu.
    destruct Hu as [Hx Hu]. apply negb_true_iff in Hx.
    rewrite ch_eqb_sym in Hx. simpl. rewrite Hx. rewrite (IH Hu).
    reflexivity. }
  rewrite En. reflexivity.
Qed.

Lemma print_node_blank_first_line_witness :
  print_node (fun e => e) (mk_config (lit "    ") true true true false)
             (fun _ _ => ret tt) []
             (lit "  " ++ [NL] ++ lit "ui.text(a)") (mk_wstate 0 1 false [])
  = Raise IndexError.
Proof.
  exact (print_node_blank_first_line (fun e => e)
           (mk_config (lit "    ") true true true false)
           (fun _ _ => ret tt) [] (lit "  ") (lit "ui.text(a)")
           (mk_wstate 0 1 false []) eq_refl eq_refl eq_refl).
Defined.


(** [count_trailing_slashes] counts the backslashes the text ends with:
    the text is a front that does not end with a backslash, followed by as
    many backslashes as the count. *)
Theorem count_trailing_slashes_spec (split : str) :
  exists front,
    split = front ++ repeat BSL (count_trailing_slashes split)
    /\ (forall p c, front = p ++ [c] -> c <> BSL).
Proof.
  unfold count_trailing_slashes.
  assert (H : forall r, exists f,
               r = repeat BSL (count_backslashes r) ++ f
               /\ (forall c p, f = c :: p -> c <> BSL)).
  { induction r as [|x r IH]; simpl.
    - exists []. split; [reflexivity|]. intros c p E. discriminate.
    - destruct (ch_eqb x BSL) eqn:E.
      + apply ch_eqb_eq in E. subst x. destruct IH as [f [E1 E2]].
        exists f. split; [simpl; congruence|exact E2].
      + exists (x :: r). split; [reflexivity|].
        intros c p Ec. inversion Ec; subst. apply ch_eqb_neq. exact E. }
  destruct (H (rev split)) as [f [E1 E2]].
  exists (rev f). split.
  - apply (f_equal (@rev ascii)) in E1. rewrite rev_involutive in E1.
    rewrite E1 at 1. rewrite rev_app_distr, rev_repeat. reflexivity.
  - intros p c E. apply (E2 c (rev p)).
    apply (f_equal (@rev ascii)) in E. rewrite rev_involutive in E.
    rewrite E, rev_app_distr. reflexivity.
Qed.


(** [print_hotspot] prints from the first line of the code only: what
    follows it, the children of the hotspot included, is dropped. *)
Theorem print_hotspot_first_line (guard : str -> str) (cfg : config)
        (header line rest : str) :
  lacks NL line = true ->
  print_hotspot guard cfg header (line ++ NL :: rest)
  = print_hotspot guard cfg header line.
Proof.
  intros H. unfold print_hotspot.
  rewrite (split1_char NL line rest H), (split1_char_none NL line H).
  reflexivity.
Qed.

Lemma print_hotspot_first_line_witness :
  let cfg := mk_config (lit "    ") true true true false in
  print_hotspot (fun e => e) cfg []
                (lit "ui.hotspot_with_child((1, 2, 3, 4))" ++ [NL]
                 ++ lit "ui.text(a)")
  = print_hotspot (fun e => e) cfg []
                  (lit "ui.hotspot_with_child((1, 2, 3, 4))").
Proof.
  intros cfg.
  exact (print_hotspot_first_line (fun e => e) cfg []
           (lit "ui.hotspot_with_child((1, 2, 3, 4))") (lit "ui.text(a)")
           eq_refl).
Defined.

Lemma classify_positional (acc : argtuple) (x : str) :
  positional x = true ->
  classify acc x
  = mk_args (a_args acc ++ [x]) (a_kwargs acc) (a_exargs acc)
            (a_exkwargs acc).
Proof.
  unfold positional. intros H. apply andb_true_iff in H.
  destruct H as [Hk Hs]. apply negb_true_iff in Hk, Hs.
  unfold classify. rewrite Hk.
  assert (H2 : startswith x (lit "**") = false).
  { unfold startswith in *. destruct x as [|c x]; [reflexivity|].
    simpl in *. destruct (ch_eqb "*"%char c); [discriminate|reflexivity]. }
  rewrite H2, Hs. reflexivity.
Qed.

Lemma argument_text_app (a b : str) :
  argument_text a -> argument_text b -> argument_text (a ++ b).
Proof.
  induction 1 as [|c s Hp Hk Hs IH|q inner s Hq Hl Hb Hs IH
                  |o c inner s Ho Hc Hin Hs IH]; intros Hb'.
  - exact Hb'.
  - simpl. apply argument_plain; auto.
  - simpl. rewrite <- app_assoc. simpl.
    apply argument_string; auto.
  - simpl. rewrite <- app_assoc. simpl.
    apply argument_group; auto.
Qed.

(** [parse_args] on a call on one line. *)
Lemma parse_args_call_line (name a : str) (rest : list str) :
  lacks "("%char name = true -> lacks NL name = true ->
  Forall argument_text (a :: rest) ->
  lacks NL (join (lit ",") (a :: rest)) = true ->
  split_arguments (isolate_arguments (call_line name (a :: rest)))
  = Ok (map strip (a :: rest)).
Proof.
  intros Hp Hn Ha Hl. unfold call_line.
  rewrite (isolate_arguments_call name _ Hp Hn Hl).
  apply (split_arguments_join a rest Ha).
Qed.

(** A [default] statement: from the call the compiler made of it,
    [print_default] writes [default], the name of the variable without its
    quotes, an equals sign and the stripped default value, on a line of its
    own. *)
Theorem print_default_spec (cfg : config) (header : str) (u : bool)
        (key value : str) (w : wstate) :
  lacks SQ key = true -> lacks BSL key = true -> lacks NL key = true ->
  argument_text value -> lacks NL value = true ->
  positional (strip value) = true ->
  exists w',
    print_default cfg header (default_call u key value) w = Ok (tt, w')
    /\ wrote w w' 0
         (line_start cfg w ++ lit "default " ++ key ++ lit " = "
          ++ strip value).
Proof.
  intros Hq Hb Hn Hv Hvn Hp.
  set (first := (if u then lit "u" else []) ++ SQ :: key ++ [SQ]).
  assert (Ecode : default_call u key value
                  = lit "_scope.setdefault" ++ lit "("
                    ++ join (lit ",") [first; SP :: value] ++ lit ")").
  { unfold default_call, first. simpl join.
    destruct u; simpl; repeat rewrite <- app_assoc; reflexivity. }
  assert (Estrip : strip (default_call u key value)
                   = default_call u key value).
  { rewrite Ecode.
    change (lit "_scope.setdefault" ++ lit "("
            ++ join (lit ",") [first; SP :: value] ++ lit ")")
      with ("_"%char :: (lit "scope.setdefault" ++ lit "("
                         ++ join (lit ",") [first; SP :: value])
                        ++ [")"%char]) at 1.
    - rewrite (strip_fixed "_"%char ")"%char _ eq_refl eq_refl).
      simpl. repeat rewrite <- app_assoc. reflexivity. }
  assert (Hfirst : argument_text first).
  { unfold first. apply argument_text_app.
    - destruct u; [|constructor].
      apply argument_plain; [reflexivity|reflexivity|constructor].
    - change (SQ :: key ++ [SQ]) with (SQ :: key ++ SQ :: []).
      apply argument_string; [reflexivity|exact Hq|exact Hb|constructor]. }
  assert (Hparse : parse_args (default_call u key value)
                   = Ok (mk_args [first; strip value] [] None None)).
  { rewrite Ecode. unfold parse_args.
    change (lit "_scope.setdefault" ++ lit "("
            ++ join (lit ",") [first; SP :: value] ++ lit ")")
      with (call_line (lit "_scope.setdefault") [first; SP :: value]).
    rewrite parse_args_call_line.
    - simpl map. simpl fold_left.
      assert (E1 : strip first = first).
      { unfold first. destruct u.
        - change (lit "u" ++ SQ :: key ++ [SQ])
            with ("u"%char :: (SQ :: key) ++ [SQ]).
          apply strip_fixed; reflexivity.
        - apply (strip_fixed SQ SQ key); reflexivity. }
      assert (E2 : positional first = true).
      { unfold first, positional, is_keyword_argument, startswith.
        destruct u; destruct key; reflexivity. }
      rewrite E1. rewrite (classify_positional _ first E2).
      change (SP :: value) with ([SP] ++ value).
      rewrite (strip_spaces [SP] value eq_refl).
      rewrite (classify_positional _ (strip value) Hp). reflexivity.
    - reflexivity.
    - reflexivity.
    - constructor; [exact Hfirst|]. constructor; [|constructor].
      apply argument_plain; [reflexivity|reflexivity|exact Hv].
    - simpl join. unfold first.
      rewrite !lacks_app. simpl. rewrite !lacks_app. simpl.
      rewrite Hn, Hvn. destruct u; reflexivity. }
  unfold print_default. rewrite Estrip. unfold bind at 1. unfold lift.
  rewrite Hparse. cbn [a_args].
  assert (Ek : split1 [SQ] first
               = Some ((if u then lit "u" else []), key ++ [SQ])).
  { unfold first. apply split1_char. destruct u; reflexivity. }
  rewrite Ek. rewrite (rsplit1_char SQ key [] eq_refl).
  destruct (indent_write_wrote cfg
              (lit "default " ++ key ++ lit " = " ++ strip value) w)
    as [w' [E [H _]]].
  exists w'. split; [exact E|exact H].
Qed.

Lemma print_default_spec_witness :
  exists w',
    print_default (mk_config (lit "    ") true true true false) []
      (lit "_scope.setdefault(u'page', [1, 2])") (mk_wstate 1 1 false [])
    = Ok (tt, w')
    /\ wrote (mk_wstate 1 1 false []) w' 0
         ([NL] ++ lit "    default page = [1, 2]").
Proof.
  exact (print_default_spec (mk_config (lit "    ") true true true false) []
           true (lit "page") (lit "[1, 2]") (mk_wstate 1 1 false [])
           eq_refl eq_refl eq_refl
           (argument_group "[" "]" (lit "1, 2") [] eq_refl eq_refl
              (closed_text_plain (lit "1, 2") eq_refl) argument_nil)
           eq_refl eq_refl).
Defined.

(** A [ui] statement of one line: [print_ui] writes the name of the
    function without [ui.] on a line of its own, then the arguments of the
    call as [print_arguments] prints them, without the colon of a block;
    the call of [print_nodes] on the empty block prints nothing. *)
Theorem print_ui_single_line (guard : str -> str) (cfg : config)
        (fuel : nat) (header name a : str) (rest : list str) (w : wstate) :
  lacks "("%char name = true -> lacks NL name = true ->
  Forall argument_text (a :: rest) ->
  lacks NL (join (lit ",") (a :: rest)) = true ->
  let parsed := fold_left classify (map strip (a :: rest))
                          (mk_args [] [] None None) in
  print_ui guard cfg (print_nodes guard cfg (S fuel)) header
           (call_line (lit "ui." ++ name) (a :: rest)) w
  = (indent cfg ;;
     write name ;;
     print_arguments guard cfg (a_args parsed) (a_kwargs parsed) false) w.
Proof.
  intros Hp Hn Ha Hl parsed. unfold print_ui, call_line.
  assert (Hcode : lacks NL ((lit "ui." ++ name) ++ lit "("
                            ++ join (lit ",") (a :: rest) ++ lit ")")
                  = true).
  { rewrite !lacks_app, Hn, Hl. reflexivity. }
  rewrite (split1_char_none NL _ Hcode).
  assert (E1 : split1 (lit "ui.")
                 ((lit "ui." ++ name) ++ lit "("
                  ++ join (lit ",") (a :: rest) ++ lit ")")
               = Some ([], name ++ lit "("
                           ++ join (lit ",") (a :: rest) ++ lit ")")).
  { rewrite <- app_assoc. reflexivity. }
  rewrite E1.
  change (name ++ lit "(" ++ join (lit ",") (a :: rest) ++ lit ")")
    with (name ++ "("%char :: join (lit ",") (a :: rest) ++ lit ")").
  rewrite (split1_char "("%char name _ Hp).
  assert (E2 : parse_args ((lit "ui." ++ name) ++ lit "("
                           ++ join (lit ",") (a :: rest) ++ lit ")")
               = Ok parsed).
  { unfold parse_args.
    change ((lit "ui." ++ name) ++ lit "("
            ++ join (lit ",") (a :: rest) ++ lit ")")
      with (call_line (lit "ui." ++ name) (a :: rest)).
    rewrite parse_args_call_line;
      first [reflexivity
            |assumption
            |rewrite lacks_app, Hp; reflexivity
            |rewrite lacks_app, Hn; reflexivity]. }
  rewrite E2.
  change (split1 [NL] []) with (@None (str * str)). cbv iota.
  change (contains (lit "ui.child_or_fixed()") []) with false. cbv iota.
  change (nonempty (@nil ascii)) with false.
  unfold bind, lift.
  destruct (indent cfg w) as [[[] w1]|e]; [|reflexivity].
  destruct (write name w1) as [[[] w2]|e]; [|reflexivity].
  destruct (print_arguments guard cfg (a_args parsed) (a_kwargs parsed)
              false w2) as [[[] w3]|e]; reflexivity.
Qed.

Lemma print_ui_single_line_witness :
  let cfg := mk_config (lit "    ") true true true false in
  print_ui (fun e => e) cfg (print_nodes (fun e => e) cfg 1) []
           (lit "ui.text(u'a, b',id=_1,scope=_scope)")
           (mk_wstate 0 1 false [])
  = Ok (tt, mk_wstate 0 2 false ([NL] ++ lit "text u'a, b'")).
Proof.
  intros cfg.
  exact (eq_trans
           (print_ui_single_line (fun e => e) cfg 0 [] (lit "text")
              (lit "u'a, b'") [lit "id=_1"; lit "scope=_scope"]
              (mk_wstate 0 1 false []) eq_refl eq_refl
              (Forall_cons _
                 (argument_plain "u" _ eq_refl eq_refl
                    (argument_string SQ (lit "a, b") [] eq_refl eq_refl
                       eq_refl argument_nil))
                 (Forall_cons _
                    (argument_text_plain (lit "id=_1") eq_refl)
                    (Forall_cons _
                       (argument_text_plain (lit "scope=_scope") eq_refl)
                       (Forall_nil _))))
              eq_refl)
           eq_refl).
Defined.

Lemma wrote_refl (w : wstate) : wrote w w 0 [].
Proof. unfold wrote. simpl. rewrite app_nil_r. repeat split; lia. Qed.

Lemma add_indent_wrote (d : Z) (w : wstate) :
  exists w', add_indent d w = Ok (tt, w') /\ wrote w w' d []
             /\ skip_indent_until_write w' = skip_indent_until_write w.
Proof.
  eexists. split; [reflexivity|]. split; [|reflexivity].
  unfold wrote. simpl. rewrite app_nil_r. repeat split; lia.
Qed.

(** A loop that writes one line for each element. *)
Lemma for_each_lines {A : Type} (cfg : config) (f : A -> str) (l : list A)
      (w : wstate) :
  skip_indent_until_write w = false ->
  exists w',
    for_each l (fun x => indent cfg ;; write (f x)) w = Ok (tt, w')
    /\ wrote w w' 0
         (concat (map (fun x =>
            NL :: repeat_str (indentation cfg) (Z.to_nat (indent_level w))
               ++ f x) l))
    /\ skip_indent_until_write w' = false.
Proof.
  revert w. induction l as [|x l IH]; intros w Hs.
  - exists w. split; [reflexivity|]. split; [apply wrote_refl|exact Hs].
  - destruct (indent_write_wrote cfg (f x) w) as [w1 [E1 [H1 S1]]].
    destruct (IH w1 S1) as [w2 [E2 [H2 S2]]].
    exists w2. simpl for_each. unfold bind at 1. rewrite E1.
    split; [exact E2|]. split; [|exact S2].
    assert (El : indent_level w1 = indent_level w)
      by (destruct H1 as [A1 _]; lia).
    rewrite El in H2. unfold line_start in H1. rewrite Hs in H1.
    simpl concat. apply (wrote_trans _ _ _ 0 0 _ _ H1 H2).
Qed.

(** A loop that writes one text for each element, on the same line. *)
Lemma for_each_words {A : Type} (f : A -> str) (l : list A) (w : wstate) :
  exists w',
    for_each l (fun x => write (f x)) w = Ok (tt, w')
    /\ wrote w w' 0 (concat (map f l)).
Proof.
  revert w. induction l as [|x l IH]; intros w.
  - exists w. split; [reflexivity|apply wrote_refl].
  - destruct (write_wrote (f x) w) as [w1 [E1 [H1 _]]].
    destruct (IH w1) as [w2 [E2 H2]].
    exists w2. simpl for_each. unfold bind at 1. rewrite E1.
    split; [exact E2|]. simpl concat.
    apply (wrote_trans _ _ _ 0 0 _ _ H1 H2).
Qed.

(** What [print_arguments] writes: the guarded positional arguments on
    the line; then the keyword arguments but those the compiler added
    ([id] with an underscore first, [scope=_scope]), each on a line of its
    own one level deeper after a colon when multi-line keywords are forced
    and the output is not meant for comparison, and on the same line
    otherwise, where the colon is written only for a statement with a
    block.  The depth on return is the depth on entry. *)
Theorem print_arguments_spec (guard : str -> str) (cfg : config)
        (args : list str) (kwargs : list (str * str)) (multiline : bool)
        (w : wstate) :
  (exists w',
      print_arguments guard cfg args kwargs multiline w = Ok (tt, w')
      /\ wrote w w' 0
           (arguments_text guard cfg (indent_level w) args kwargs multiline))
  /\ (forall k v, In (k, v) (written_kwargs guard kwargs) ->
                  exists v0, In (k, v0) kwargs /\ v = guard v0
                             /\ internal_kwarg (k, v0) = false).
Proof.
  split.
  - unfold print_arguments, arguments_text.
    fold (internal_kwarg).
    change (map (fun kv : str * str => (fst kv, guard (snd kv)))
              (filter
                 (fun kv : str * str =>
                    negb
                      (str_eqb (fst kv) (lit "id")
                       && startswith (snd kv) (lit "_")
                       || str_eqb (fst kv) (lit "scope")
                          && str_eqb (snd kv) (lit "_scope"))) kwargs))
      with (written_kwargs guard kwargs).
    set (kept := written_kwargs guard kwargs).
    set (head := if nonempty args
                 then lit " " ++ join (lit " ") (map guard args) else []).
    assert (Hhead : exists w1,
               (if nonempty args
                then write (lit " " ++ join (lit " ") (map guard args))
                else ret tt) w = Ok (tt, w1)
               /\ wrote w w1 0 head).
    { unfold head. destruct (nonempty args).
      - destruct (write_wrote (lit " " ++ join (lit " ") (map guard args)) w)
          as [w1 [E1 [H1 _]]]. eauto.
      - exists w. split; [reflexivity|apply wrote_refl]. }
    destruct Hhead as [w1 [E1 H1]].
    unfold bind at 1. rewrite E1.
    assert (El : indent_level w1 = indent_level w)
      by (destruct H1 as [A1 _]; lia).
    destruct (force_multiline_kwargs cfg && negb (comparable cfg)
              && nonempty kept).
    + destruct (write_wrote (lit ":") w1) as [w2 [E2 [H2 S2]]].
      unfold bind at 1. rewrite E2.
      destruct (add_indent_wrote 1 w2) as [w3 [E3 [H3 S3]]].
      unfold bind at 1. rewrite E3. rewrite S2 in S3.
      destruct (for_each_lines (A := str * str) cfg
                  (fun kv => fst kv ++ lit " " ++ snd kv)
                  kept w3 S3) as [w4 [E4 [H4 _]]].
      unfold bind at 1. rewrite E4.
      destruct (add_indent_wrote (-1) w4) as [w5 [E5 [H5 _]]].
      exists w5. split; [exact E5|].
      assert (Elev : indent_level w3 = (indent_level w + 1)%Z).
      { destruct H1 as [A1 _]. destruct H2 as [B1 _].
        destruct H3 as [C1 _]. lia. }
      rewrite Elev in H4.
      pose proof (wrote_trans _ _ _ _ _ _ _ H1
                    (wrote_trans _ _ _ _ _ _ _ H2
                       (wrote_trans _ _ _ _ _ _ _ H3
                          (wrote_trans _ _ _ _ _ _ _ H4 H5)))) as H.
      simpl app in H. rewrite app_nil_r in H. exact H.
    + destruct (for_each_words (A := str * str)
                  (fun kv : str * str =>
                     lit " " ++ fst kv ++ lit " " ++ snd kv) kept w1)
        as [w2 [E2 H2]].
      unfold bind at 1. rewrite E2.
      destruct multiline.
      * destruct (write_wrote (lit ":") w2) as [w3 [E3 [H3 _]]].
        exists w3. split; [exact E3|].
        pose proof (wrote_trans _ _ _ _ _ _ _ H1
                      (wrote_trans _ _ _ _ _ _ _ H2 H3)) as H.
        exact H.
      * exists w2. split; [reflexivity|].
        pose proof (wrote_trans _ _ _ _ _ _ _ H1 H2) as H.
        rewrite app_nil_r. exact H.
  - intros k v Hin. unfold written_kwargs in Hin.
    apply in_map_iff in Hin. destruct Hin as [[k0 v0] [E Hin]].
    simpl in E. inversion E; subst k v. clear E.
    apply filter_In in Hin. destruct Hin as [Hin Hf].
    apply negb_true_iff in Hf. eauto.
Qed.

(** ** The branches of a conditional *)

Lemma bind_ext {A B : Type} (m : M A) (k1 k2 : A -> M B) (w : wstate) :
  (forall a w', k1 a w' = k2 a w') -> bind m k1 w = bind m k2 w.
Proof.
  intros H. unfold bind. destruct (m w) as [[a w']|e]; [apply H|reflexivity].
Qed.

Lemma bind_ret_unit (m : M unit) (w : wstate) : bind m (fun _ => ret tt) w = m w.
Proof.
  unfold bind, ret. destruct (m w) as [[[] w']|e]; reflexivity.
Qed.

Section Conditional.

Variable cfg : config.
Variable rec : str -> Z -> M unit.
Variable if_indent : nat.

(** The loop of [print_if] over the lines of a block: they are gathered,
    and printed as one block at the last line. *)
Lemma print_if_lines_block (block : list str) :
  forall (i last : nat) (rest current : list str) (w : wstate),
    0 < i ->
    forallb (fun l => negb (is_branch_line if_indent l)) block = true ->
    i + length block <= last ->
    print_if_lines cfg rec if_indent last i (block ++ rest) current w
    = print_if_lines cfg rec if_indent last (i + length block) rest
                     (current ++ block) w.
Proof.
  induction block as [|l block IH]; intros i last rest current w Hi Hb Hl.
  - simpl. rewrite Nat.add_0_r, app_nil_r. reflexivity.
  - simpl in Hb. apply andb_true_iff in Hb. destruct Hb as [Hx Hb].
    apply negb_true_iff in Hx. unfold is_branch_line in Hx.
    apply orb_false_iff in Hx. destruct Hx as [H1 H2].
    simpl app. simpl print_if_lines at 1. simpl length in *.
    destruct (Nat.eqb_spec i 0); [lia|]. rewrite H1, H2.
    destruct (Nat.eqb_spec i last); [lia|].
    rewrite (IH (S i) last rest (current ++ [l]) w); [|lia|exact Hb|lia].
    rewrite <- app_assoc. simpl. rewrite Nat.add_succ_r. reflexivity.
Qed.

(** The last block. *)
Lemma print_if_lines_last (block : list str) :
  forall (i : nat) (current : list str) (w : wstate),
    0 < i -> block <> [] ->
    forallb (fun l => negb (is_branch_line if_indent l)) block = true ->
    print_if_lines cfg rec if_indent (i + length block - 1) i block current w
    = print_block cfg rec (current ++ block) w.
Proof.
  intros i current w Hi Hne Hb.
  destruct (exists_last Hne) as [front [l E]]. subst block.
  rewrite forallb_app in Hb. apply andb_true_iff in Hb.
  destruct Hb as [Hf Hl]. simpl in Hl. rewrite andb_true_r in Hl.
  apply negb_true_iff in Hl. unfold is_branch_line in Hl.
  apply orb_false_iff in Hl. destruct Hl as [H1 H2].
  rewrite length_app. simpl length.
  rewrite (print_if_lines_block front i _ [l] current w Hi Hf) by lia.
  simpl print_if_lines.
  destruct (Nat.eqb_spec (i + length front) 0); [lia|]. rewrite H1, H2.
  replace (i + (length front + 1) - 1) with (i + length front) by lia.
  rewrite Nat.eqb_refl. rewrite <- app_assoc.
  apply bind_ret_unit.
Qed.

Lemma print_if_lines_branches (branches : list (str * list str)) :
  forall (block : list str) (i : nat) (current : list str) (w : wstate),
    0 < i ->
    branches_ok if_indent block branches = true ->
    print_if_lines cfg rec if_indent
      (i + length (block ++ flat_branches branches) - 1) i
      (block ++ flat_branches branches) current w
    = (print_block cfg rec (current ++ block) ;;
       print_branches cfg rec if_indent branches) w.
Proof.
  induction branches as [|[opener block'] branches IH];
    intros block i current w Hi Hok.
  - simpl in Hok. apply andb_true_iff in Hok. destruct Hok as [Hb Hne].
    unfold flat_branches. simpl. rewrite app_nil_r.
    rewrite print_if_lines_last; [|exact Hi| |exact Hb].
    + symmetry. apply bind_ret_unit.
    + destruct block; [discriminate|discriminate].
  - simpl in Hok. apply andb_true_iff in Hok. destruct Hok as [Hb Hok].
    apply andb_true_iff in Hok. destruct Hok as [Ho Hok].
    change (flat_branches ((opener, block') :: branches))
      with (opener :: block' ++ flat_branches branches).
    rewrite length_app. simpl length.
    rewrite (print_if_lines_block block i
               (i + (length block
                     + S (length (block' ++ flat_branches branches))) - 1)
               (opener :: block' ++ flat_branches branches) current w Hi Hb
               ltac:(lia)).
    simpl print_if_lines at 1.
    destruct (Nat.eqb_spec (i + length block) 0); [lia|].
    assert (IH' : forall w',
               print_if_lines cfg rec if_indent
                 (i + (length block
                       + S (length (block' ++ flat_branches branches))) - 1)
                 (S (i + length block))
                 (block' ++ flat_branches branches) [] w'
               = (print_block cfg rec ([] ++ block') ;;
                  print_branches cfg rec if_indent branches) w').
    { intros w'.
      replace (i + (length block
                    + S (length (block' ++ flat_branches branches))) - 1)
        with (S (i + length block)
              + length (block' ++ flat_branches branches) - 1) by lia.
      apply IH; [lia|exact Hok]. }
    unfold is_branch_line in Ho.
    simpl print_branches.
    destruct (startswith (slice_from if_indent opener) (lit "elif")) eqn:E1.
    + apply bind_ext. intros _ w1. apply bind_ext. intros _ w2.
      apply bind_ext. intros _ w3. apply IH'.
    + simpl in Ho. rewrite Ho.
      apply bind_ext. intros _ w1. apply bind_ext. intros _ w2.
      apply bind_ext. intros _ w3. apply IH'.
Qed.

End Conditional.

(** A conditional in branches: when the lines of the code are the [if]
    line, the lines of its block and, for each further branch, the line
    that opens it and the lines of its block, [print_if] prints the
    condition, then the block, then each branch in turn, its opening line
    and its block through [print_block]. *)
Theorem print_if_branches (cfg : config) (rec : str -> Z -> M unit)
        (header code first second : str) (block : list str)
        (branches : list (str * list str)) (w : wstate) :
  splitlines code = first :: block ++ flat_branches branches ->
  nth_error (splitlines code) 1 = Some second ->
  is_header second = true ->
  branches_ok (indent_width first) block branches = true ->
  print_if cfg rec header code w
  = (indent cfg ;;
     print_condition (lit "if") first ;;
     print_block cfg rec block ;;
     print_branches cfg rec (indent_width first) branches) w.
Proof.
  intros Hl H2 Hh Hok. unfold print_if. rewrite H2, Hh. cbn [negb].
  rewrite Hl. cbn [hd]. fold (indent_width first).
  apply bind_ext. intros _ w0.
  simpl print_if_lines.
  apply bind_ext. intros _ w1.
  pose proof (print_if_lines_branches cfg rec (indent_width first) branches
                block 1 [] w1 Nat.lt_0_1 Hok) as H.
  simpl length.
  replace (S (length (block ++ flat_branches branches)) - 1)
    with (1 + length (block ++ flat_branches branches) - 1) by lia.
  exact H.
Qed.

Lemma print_if_branches_witness :
  let cfg := mk_config (lit "    ") true true true false in
  let code := lit "if x:" ++ [NL] ++ lit "    _2 = (_1, 0)" ++ [NL]
              ++ lit "    ui.text(a)" ++ [NL] ++ lit "else:" ++ [NL]
              ++ lit "    _3 = (_1, 1)" ++ [NL] ++ lit "    ui.text(b)" in
  print_if cfg (fun _ _ => ret tt) [] code (mk_wstate 0 1 false [])
  = (indent cfg ;;
     print_condition (lit "if") (lit "if x:") ;;
     print_block cfg (fun _ _ => ret tt)
                 [lit "    _2 = (_1, 0)"; lit "    ui.text(a)"] ;;
     print_branches cfg (fun _ _ => ret tt) 0
                    [(lit "else:",
                      [lit "    _3 = (_1, 1)"; lit "    ui.text(b)"])])
      (mk_wstate 0 1 false []).
Proof.
  intros cfg code.
  exact (print_if_branches cfg (fun _ _ => ret tt) [] code (lit "if x:")
           (lit "    _2 = (_1, 0)")
           [lit "    _2 = (_1, 0)"; lit "    ui.text(a)"]
           [(lit "else:", [lit "    _3 = (_1, 1)"; lit "    ui.text(b)"])]
           (mk_wstate 0 1 false []) eq_refl eq_refl eq_refl eq_refl).
Defined.

(** ** The statements of a block *)

(** The pattern of [print_nodes] on a header line closed by a line feed:
    the match is the line, and the rest is what follows it. *)
Lemma header_of_at_exact (P : str) (n1 : nat) (own : str) (u : bool)
      (index : str) (n2 : nat) (t : str) :
  is_decimal own = true -> is_decimal index = true ->
  header_of_at P (header_line n1 own P u index n2 true ++ t)
  = Some (mk_hmatch own P index (header_line n1 own P u index n2 true) t).
Proof.
  intros Ho Hi.
  assert (E : header_line n1 own P u index n2 true ++ t
              = repeat SP n1 ++ header_core own P u index
                ++ (repeat SP n2 ++ NL :: t)).
  { unfold header_line. repeat rewrite <- app_assoc. reflexivity. }
  rewrite E at 1. rewrite (header_of_at_line n1 own P u index _ Ho Hi).
  cbv zeta.
  rewrite (span_app is_sp (repeat SP n2) (NL :: t)
             (forallb_repeat is_sp SP n2 eq_refl) eq_refl).
  cbn [snd opt_char]. rewrite ch_eqb_refl.
  rewrite <- E. rewrite firstn_suffix. reflexivity.
Qed.

Lemma ends_line_tail (c : ascii) (b : str) :
  ends_line (c :: b) = true -> ends_line b = true.
Proof.
  unfold ends_line. destruct b as [|x b]; [reflexivity|].
  destruct (exists_last (l := x :: b) ltac:(discriminate)) as [z [l E]].
  rewrite E. rewrite app_comm_cons, !rev_app_distr. simpl. auto.
Qed.

Lemma ends_line_not_spaces (c : ascii) (b : str) :
  ends_line (c :: b) = true -> forallb is_sp (c :: b) = false.
Proof.
  intros H. destruct (forallb is_sp (c :: b)) eqn:E; [|reflexivity].
  exfalso. unfold ends_line in H.
  destruct (exists_last (l := c :: b) ltac:(discriminate)) as [z [l Ez]].
  rewrite Ez in *. rewrite rev_app_distr in H. simpl in H.
  apply ch_eqb_eq in H. subst l.
  rewrite forallb_app in E. apply andb_true_iff in E.
  destruct E as [_ E]. discriminate.
Qed.

(** The leftmost match in a text without a match that ends a line,
    followed by a header line: the match is the header line. *)
Lemma search_sibling_exact (P b : str) (n1 : nat) (own : str) (u : bool)
      (index : str) (n2 : nat) (t : str) :
  valid_parent P = true ->
  is_decimal own = true -> is_decimal index = true ->
  no_match P b = true -> ends_line b = true ->
  re_search (header_of_at P)
            (b ++ header_line n1 own P u index n2 true ++ t)
  = Some (b, mk_hmatch own P index
                       (header_line n1 own P u index n2 true) t).
Proof.
  intros HP Ho Hi. induction b as [|c b IH]; intros Hb He.
  - simpl app. rewrite re_search_eq.
    rewrite (header_of_at_exact P n1 own u index n2 t Ho Hi). reflexivity.
  - apply no_match_cons in Hb. destruct Hb as [Hc Hb].
    destruct (header_of_at P
                ((c :: b) ++ header_line n1 own P u index n2 true ++ t))
      as [m|] eqn:E.
    + pose proof (header_of_at_straddle P (c :: b) t n1 own u index n2 true
                    m HP Ho Hi Hc E) as Hsp.
      rewrite (ends_line_not_spaces c b He) in Hsp. discriminate.
    + rewrite re_search_eq, E. cbn [app]. cbv iota.
      rewrite (IH Hb (ends_line_tail c b He)). reflexivity.
Qed.

Lemma flattened_cons (P : str) (x : sibling) (xs : list sibling) :
  flattened P (x :: xs) = sibling_header P x ++ s_text x ++ flattened P xs.
Proof. unfold flattened. simpl. rewrite <- app_assoc. reflexivity. Qed.

(** The records of siblings that stand on lines of their own: for each
    sibling its header line and its text. *)
Lemma re_split_on_lines (P : str) (xs : list sibling) :
  valid_parent P = true ->
  forallb (sibling_ok P) xs = true -> on_lines xs = true ->
  forall b n,
    no_match P b = true -> (xs <> [] -> ends_line b = true) ->
    length (b ++ flattened P xs) <= n ->
    pair_up (tl (re_split_fuel n (header_of_at P) (b ++ flattened P xs)))
    = map (fun x => (sibling_header P x, s_text x)) xs.
Proof.
  intros HP. induction xs as [|x xs IH]; intros Hok Hl b n Hb He Hn.
  - unfold flattened. simpl. rewrite app_nil_r.
    destruct n; simpl; [reflexivity|].
    unfold no_match in Hb.
    destruct (re_search (header_of_at P) b); [discriminate|reflexivity].
  - simpl in Hok. apply andb_true_iff in Hok. destruct Hok as [Hx Hok].
    unfold sibling_ok in Hx. apply andb_true_iff in Hx.
    destruct Hx as [Hx Ht]. apply andb_true_iff in Hx.
    destruct Hx as [Ho Hi].
    unfold on_lines in Hl. apply andb_true_iff in Hl.
    destruct Hl as [Hnl Hends]. simpl in Hnl.
    apply andb_true_iff in Hnl. destruct Hnl as [Hnlx Hnl].
    rewrite flattened_cons in *. unfold sibling_header in *.
    rewrite Hnlx in *.
    pose proof (search_sibling_exact P b (s_n1 x) (s_own x) (s_u x)
                  (s_index x) (s_n2 x) (s_text x ++ flattened P xs)
                  HP Ho Hi Hb (He ltac:(discriminate))) as E.
    destruct n as [|n].
    { exfalso. rewrite !length_app in Hn.
      pose proof (header_line_nonempty (s_n1 x) (s_own x) P (s_u x)
                    (s_index x) (s_n2 x) true) as Hne.
      destruct (header_line (s_n1 x) (s_own x) P (s_u x) (s_index x)
                            (s_n2 x) true); [congruence|simpl in Hn; lia]. }
    simpl re_split_fuel. rewrite E. cbn [h_text h_rest tl].
    rewrite pair_up_tl by apply re_split_nonempty.
    simpl map. f_equal.
    + rewrite Hnlx. f_equal.
      destruct xs as [|y xs].
      * unfold flattened. simpl. rewrite app_nil_r.
        destruct n; simpl; [reflexivity|].
        unfold no_match in Ht.
        destruct (re_search (header_of_at P) (s_text x));
          [discriminate|reflexivity].
      * simpl in Hok. apply andb_true_iff in Hok. destruct Hok as [Hy _].
        unfold sibling_ok in Hy. apply andb_true_iff in Hy.
        destruct Hy as [Hy _]. apply andb_true_iff in Hy.
        destruct Hy as [Hoy Hiy].
        simpl in Hnl. apply andb_true_iff in Hnl. destruct Hnl as [Hnly _].
        assert (Hex : ends_line (s_text x) = true).
        { simpl in Hends. apply andb_true_iff in Hends. apply Hends. }
        rewrite flattened_cons. unfold sibling_header. rewrite Hnly.
        pose proof (search_sibling_exact P (s_text x) (s_n1 y) (s_own y)
                      (s_u y) (s_index y) (s_n2 y)
                      (s_text y ++ flattened P xs) HP Hoy Hiy Ht Hex) as E'.
        destruct n as [|n].
        { exfalso. rewrite flattened_cons, !length_app in Hn.
          unfold sibling_header in Hn. rewrite Hnly in Hn.
          pose proof (header_line_nonempty (s_n1 y) (s_own y) P (s_u y)
                        (s_index y) (s_n2 y) true) as Hne.
          pose proof (header_line_nonempty (s_n1 x) (s_own x) P (s_u x)
                        (s_index x) (s_n2 x) true) as Hne'.
          destruct (header_line (s_n1 y) (s_own y) P (s_u y) (s_index y)
                                (s_n2 y) true); [congruence|].
          destruct (header_line (s_n1 x) (s_own x) P (s_u x) (s_index x)
                                (s_n2 x) true); [congruence|].
          simpl in Hn. lia. }
        simpl re_split_fuel. rewrite E'. reflexivity.
    + apply IH.
      * exact Hok.
      * unfold on_lines. rewrite Hnl. simpl.
        destruct xs as [|y xs]; [reflexivity|].
        simpl in Hends. apply andb_true_iff in Hends. apply Hends.
      * exact Ht.
      * intros Hne. destruct xs as [|y xs]; [congruence|].
        simpl in Hends. apply andb_true_iff in Hends. apply Hends.
      * rewrite !length_app in Hn. rewrite !length_app.
        pose proof (header_line_nonempty (s_n1 x) (s_own x) P (s_u x)
                      (s_index x) (s_n2 x) true) as Hne.
        destruct (header_line (s_n1 x) (s_own x) P (s_u x) (s_index x)
                              (s_n2 x) true); [congruence|simpl in Hn; lia].
Qed.

Lemma for_each_map {A B : Type} (f : A -> B) (l : list A)
      (body : B -> M unit) (w : wstate) :
  for_each (map f l) body w = for_each l (fun x => body (f x)) w.
Proof.
  revert w. induction l as [|a l IH]; intros w; simpl; [reflexivity|].
  unfold bind. destruct (body (f a) w) as [[u w']|e]; [apply IH|reflexivity].
Qed.

(** The statements of a block on lines of their own: [print_nodes] moves
    the indentation by [extra_indent], hands every statement to
    [print_node] in the order of the text, its header line with its text,
    and moves the indentation back. *)
Theorem print_nodes_siblings
        (guard : str -> str) (cfg : config) (fuel : nat)
        (P : str) (xs : list sibling) (extra_indent : Z) (w : wstate) :
  valid_parent P = true ->
  forallb (sibling_ok P) xs = true ->
  on_lines xs = true ->
  xs <> [] ->
  print_nodes guard cfg (S fuel) (flattened P xs) extra_indent w
  = (add_indent extra_indent ;;
     for_each xs (fun x => print_node guard cfg (print_nodes guard cfg fuel)
                                      (sibling_header P x) (s_text x)) ;;
     add_indent (- extra_indent)) w.
Proof.
  intros HP Hok Hl Hne.
  destruct xs as [|x xs]; [congruence|].
  pose proof (re_split_on_lines P (x :: xs) HP Hok Hl []
                (length (flattened P (x :: xs))) (no_match_nil P)
                (fun _ => eq_refl) (le_n _)) as Hsplit.
  simpl app in Hsplit.
  pose proof Hok as Hok'. simpl in Hok'.
  apply andb_true_iff in Hok'. destruct Hok' as [Hx _].
  unfold sibling_ok in Hx. apply andb_true_iff in Hx.
  destruct Hx as [Hx _]. apply andb_true_iff in Hx. destruct Hx as [Ho Hi].
  pose proof Hl as Hl'. unfold on_lines in Hl'.
  apply andb_true_iff in Hl'. destruct Hl' as [Hnl _]. simpl in Hnl.
  apply andb_true_iff in Hnl. destruct Hnl as [Hnlx _].
  simpl print_nodes. unfold print_nodes_body, print_nodes_split.
  destruct (split1 [NL] (flattened P (x :: xs))) as [[first rest]|] eqn:Es.
  - rewrite flattened_cons in Es. unfold sibling_header in Es.
    rewrite (first_line_header P _ _ _ _ _ _ _ first rest HP Ho Hi Es).
    unfold re_split. rewrite Hsplit.
    unfold bind, lift, add_indent. cbn beta iota.
    rewrite for_each_map. reflexivity.
  - exfalso.
    assert (Hc : contains [NL] (flattened P (x :: xs)) = false).
    { unfold contains. rewrite Es. reflexivity. }
    rewrite flattened_cons in Hc. unfold sibling_header, header_line in Hc.
    rewrite Hnlx in Hc.
    rewrite !app_assoc in Hc. repeat rewrite <- app_assoc in Hc.
    apply contains_app_r in Hc. apply contains_app_r in Hc.
    apply contains_app_r in Hc. simpl in Hc. discriminate.
Qed.

Lemma print_nodes_siblings_witness :
  let cfg := mk_config (lit "    ") true true true false in
  let xs := [ mk_sibling 0 (lit "1") false (lit "0") 0 true
                         (lit "ui.null()" ++ [NL]);
              mk_sibling 0 (lit "2") false (lit "1") 0 true
                         (lit "ui.close()") ] in
  print_nodes (fun e => e) cfg 3 (flattened (lit "0") xs) 1
              (mk_wstate 0 1 false [])
  = (add_indent 1 ;;
     for_each xs
       (fun x => print_node (fun e => e) cfg (print_nodes (fun e => e) cfg 2)
                            (sibling_header (lit "0") x) (s_text x)) ;;
     add_indent (- 1)) (mk_wstate 0 1 false []).
Proof.
  intros cfg xs.
  exact (print_nodes_siblings (fun e => e) cfg 2 (lit "0") xs 1
           (mk_wstate 0 1 false []) eq_refl eq_refl eq_refl
           ltac:(discriminate)).
Defined.

(** ** The body of a screen (C10) *)















(** ** The entry point *)

Section Screen.

Variable guard : str -> str.
Variables paraminfo source : Type.
Variable reconstruct : paraminfo -> str.
Variable wc : list (list str) -> str.
Variable to_source : source -> str -> str.

Lemma screen_keyword_cases (acc : list (list str) * list str)
      (key : str) (value : option str) :
  match value with
  | Some [] => screen_keyword guard acc key value = Raise IndexError
  | _ => exists acc', screen_keyword guard acc key value = Ok acc'
  end.
Proof.
  destruct value as [[|c v]|]; simpl; [reflexivity| |eauto].
  match goal with
  | |- context [if ?b then _ else _] => destruct b
  end; eauto.
Qed.

Lemma screen_keywords_cases (ast : screen paraminfo source) :
  if empty_keyword ast
  then screen_keywords guard paraminfo source ast = Raise IndexError
  else exists kw, screen_keywords guard paraminfo source ast = Ok kw.
Proof.
  unfold screen_keywords, empty_keyword.
  pose proof (screen_keyword_cases ([], []) (lit "zorder") (ast_zorder paraminfo source ast))
    as H1.
  destruct (ast_zorder paraminfo source ast) as [[|c1 v1]|].
  - rewrite H1. reflexivity.
  - destruct H1 as [acc1 E1]. rewrite E1.
    pose proof (screen_keyword_cases acc1 (lit "modal") (ast_modal paraminfo source ast))
      as H2.
    destruct (ast_modal paraminfo source ast) as [[|c2 v2]|].
    + rewrite H2. reflexivity.
    + destruct H2 as [acc2 E2]. rewrite E2.
      pose proof (screen_keyword_cases acc2 (lit "variant")
                    (ast_variant paraminfo source ast)) as H3.
      destruct (ast_variant paraminfo source ast) as [[|c3 v3]|]; exact H3.
    + destruct H2 as [acc2 E2]. rewrite E2.
      pose proof (screen_keyword_cases acc2 (lit "variant")
                    (ast_variant paraminfo source ast)) as H3.
      destruct (ast_variant paraminfo source ast) as [[|c3 v3]|]; exact H3.
  - destruct H1 as [acc1 E1]. rewrite E1.
    pose proof (screen_keyword_cases acc1 (lit "modal") (ast_modal paraminfo source ast))
      as H2.
    destruct (ast_modal paraminfo source ast) as [[|c2 v2]|].
    + rewrite H2. reflexivity.
    + destruct H2 as [acc2 E2]. rewrite E2.
      pose proof (screen_keyword_cases acc2 (lit "variant")
                    (ast_variant paraminfo source ast)) as H3.
      destruct (ast_variant paraminfo source ast) as [[|c3 v3]|]; exact H3.
    + destruct H2 as [acc2 E2]. rewrite E2.
      pose proof (screen_keyword_cases acc2 (lit "variant")
                    (ast_variant paraminfo source ast)) as H3.
      destruct (ast_variant paraminfo source ast) as [[|c3 v3]|]; exact H3.
Qed.

Lemma screen_keywords_fuel (ast : screen paraminfo source) :
  screen_keywords guard paraminfo source ast <> Raise OutOfFuel.
Proof.
  pose proof (screen_keywords_cases ast) as H.
  destruct (empty_keyword ast).
  - rewrite H. discriminate.
  - destruct H as [kw E]. rewrite E. discriminate.
Qed.

Lemma print_screen_empty_keyword (cfg : config) (fuel : nat)
      (ast : screen paraminfo source) (w : wstate) :
  empty_keyword ast = true ->
  print_screen guard paraminfo source reconstruct wc to_source cfg fuel ast w
  = Raise IndexError.
Proof.
  intros H. unfold print_screen.
  pose proof (screen_keywords_cases ast) as Hk. rewrite H in Hk.
  unfold bind at 1. destruct (indent_wrote cfg w) as [w0 [E0 _]].
  rewrite E0. unfold bind at 1. simpl write at 1. cbv beta iota.
  unfold bind at 1.
  destruct (ast_parameters paraminfo source ast);
    (simpl; unfold bind at 1; unfold lift; rewrite Hk; reflexivity).
Qed.

Lemma print_screen_pass (cfg : config) (fuel : nat)
      (ast : screen paraminfo source) (w : wstate) :
  empty_keyword ast = false -> decompile_python cfg = false ->
  exists w',
    print_screen guard paraminfo source reconstruct wc to_source cfg fuel ast w
    = Ok (tt, w').
Proof.
  intros H Hd.
  pose proof (screen_keywords_cases ast) as Hk. rewrite H in Hk.
  destruct Hk as [kw Hk].
  assert (Hall : forall A (m : M A),
             (forall w, exists a w', m w = Ok (a, w')) ->
             forall B (k : A -> M B),
               (forall a w, exists b w', k a w = Ok (b, w')) ->
               forall w, exists b w', bind m k w = Ok (b, w')).
  { intros A m Hm B k Hk' w0. unfold bind.
    destruct (Hm w0) as [a [w1 E]]. rewrite E. apply Hk'. }
  assert (Hw : forall s w0, exists (b : unit) w', write s w0 = Ok (b, w')).
  { intros s w0. unfold write. eauto. }
  assert (Hi : forall w0, exists (b : unit) w', indent cfg w0 = Ok (b, w')).
  { intros w0. destruct (indent_wrote cfg w0) as [w1 [E _]]. eauto. }
  assert (Hr : forall w0, exists (b : unit) w', ret tt w0 = Ok (b, w')).
  { intros w0. unfold ret. eauto. }
  assert (Hf : forall (l : list str) w0,
             exists (b : unit) w',
               for_each l (fun i => indent cfg ;; write i) w0 = Ok (b, w')).
  { induction l as [|x l IH]; intros w0; simpl.
    - apply Hr.
    - apply Hall; [|intros _; exact IH].
      apply Hall; [exact Hi|intros _; apply Hw]. }
  assert (Hres : exists (b : unit) w',
             print_screen guard paraminfo source reconstruct wc to_source
                          cfg fuel ast w = Ok (b, w')).
  { unfold print_screen. rewrite Hd. cbn [negb].
    apply Hall; [exact Hi|intros _].
    apply Hall; [apply Hw|intros _].
    apply Hall;
      [destruct (ast_parameters paraminfo source ast); [apply Hw|apply Hr]|].
    intros _.
    apply Hall; [intros w0; unfold lift; rewrite Hk; eauto|intros kw'].
    apply Hall; [apply Hw|intros _].
    apply Hall; [intros w0; unfold add_indent; eauto|intros _].
    apply Hall; [apply Hf|intros _].
    apply Hall.
    - destruct (truthy (ast_tag paraminfo source ast)); [|apply Hr].
      apply Hall; [exact Hi|intros _; apply Hw].
    - intros _. apply Hall; [exact Hi|intros _; apply Hw]. }
  destruct Hres as [[] [w' E]]. exists w'. exact E.
Qed.

Lemma agree_print_screen (cfg : config) (f1 f2 : nat)
      (ast : screen paraminfo source) :
  length (screen_body (to_source (ast_code_source paraminfo source ast) (indentation cfg)))
  < f1 ->
  length (screen_body (to_source (ast_code_source paraminfo source ast) (indentation cfg)))
  < f2 ->
  agree (print_screen guard paraminfo source reconstruct wc to_source cfg
                      f1 ast)
        (print_screen guard paraminfo source reconstruct wc to_source cfg
                      f2 ast).
Proof.
  intros H1 H2. unfold print_screen.
  pose proof (screen_keywords_fuel ast) as Hk.
  same. apply print_nodes_agree; assumption.
Qed.

End Screen.

(** [pprint] ends on every screen: with fuel for one call more than the
    text handed to [print_nodes] has characters, the model does not run
    out, and more fuel changes nothing. *)
Theorem pprint_terminates (guard : str -> str) (paraminfo source : Type)
        (reconstruct : paraminfo -> str) (wc : list (list str) -> str)
        (to_source : source -> str -> str) (out : str)
        (ast : screen paraminfo source) (level line : Z)
        (multiline python screencode comparable skip : bool) (n : nat) :
  let body := screen_body (to_source (ast_code_source paraminfo source ast) (lit "    ")) in
  pprint guard paraminfo source reconstruct wc to_source
         (S (length body) + n) out ast level line
         multiline python screencode comparable skip
  = pprint guard paraminfo source reconstruct wc to_source
           (S (length body)) out ast level line
           multiline python screencode comparable skip
  /\ pprint guard paraminfo source reconstruct wc to_source
            (S (length body)) out ast level line
            multiline python screencode comparable skip
     <> Raise OutOfFuel.
Proof.
  intros body. unfold pprint, dump.
  destruct (agree_print_screen guard paraminfo source reconstruct wc
              to_source
              (mk_config (lit "    ") multiline python screencode comparable)
              (S (length body)) (S (length body) + n) ast
              (Nat.lt_succ_diag_r _) ltac:(subst body; simpl; lia)
              (mk_wstate level line skip out)) as [E H].
  rewrite <- E. split; [reflexivity|].
  destruct (print_screen guard paraminfo source reconstruct wc to_source _
              (S (length body)) ast (mk_wstate level line skip out))
    as [[u w']|e]; [discriminate|congruence].
Qed.

(** A screen whose [zorder], [modal] or [variant] is the empty unicode
    string makes [pprint] raise [IndexError], whatever the options: the
    last character of the value is read.  Without such a keyword and with
    [decompile_python] off, [pprint] returns. *)
Theorem pprint_empty_keyword (guard : str -> str) (paraminfo source : Type)
        (reconstruct : paraminfo -> str) (wc : list (list str) -> str)
        (to_source : source -> str -> str) (fuel : nat) (out : str)
        (ast : screen paraminfo source) (level line : Z)
        (multiline python screencode comparable skip : bool) :
  (empty_keyword ast = true ->
   pprint guard paraminfo source reconstruct wc to_source fuel out ast
          level line multiline python screencode comparable skip
   = Raise IndexError)
  /\ (empty_keyword ast = false -> python = false ->
      exists r,
        pprint guard paraminfo source reconstruct wc to_source fuel out ast
               level line multiline python screencode comparable skip
        = Ok r).
Proof.
  unfold pprint, dump. split.
  - intros H. rewrite print_screen_empty_keyword; [reflexivity|exact H].
  - intros H Hp. subst python.
    destruct (print_screen_pass guard paraminfo source reconstruct wc
                to_source
                (mk_config (lit "    ") multiline false screencode comparable)
                fuel ast (mk_wstate level line skip out) H eq_refl)
      as [w' E].
    rewrite E. eauto.
Qed.

Lemma pprint_empty_keyword_witness :
  pprint (fun e => e) unit unit (fun _ => []) (fun _ => []) (fun _ _ => [])
         0 [] (mk_screen unit unit (lit "s") None None (Some []) None None tt)
         0 1 true true true false false
  = Raise IndexError.
Proof.
  exact (proj1 (pprint_empty_keyword (fun e => e) unit unit (fun _ => [])
                  (fun _ => []) (fun _ _ => []) 0 []
                  (mk_screen unit unit (lit "s") None None (Some []) None
                             None tt)
                  0 1 true true true false false) eq_refl).
Defined.
